(** * railway-screenshot-api: render-context pool and capture pipeline

    A shallow embedding of the TypeScript sources

    - [src/browser-pool.ts]  (class [BrowserPool]),
    - [src/screenshot.ts]    (blocklist, [waitForImages], [scrollToBottom],
                              class [ScreenshotService]),
    - [src/index.ts]         ([authMiddleware], the [POST /batch] handler),

    together with the properties the design document states about them.

    Conventions.  JavaScript strings are [string]s whose characters are
    read as code units in the range 0..255; numbers that the code only
    adds, subtracts and compares (milliseconds, pixels) are [Z]; a
    promise that settles is an [Outcome]. *)

From Stdlib Require Import List String Ascii Bool ZArith Lia.
From Stdlib Require Import QArith Qround.
Import ListNotations.

Local Close Scope Q_scope.

Local Open Scope string_scope.
Local Open Scope list_scope.
Local Open Scope Z_scope.

(* ================================================================== *)
(** * Blocklist matcher ([BLOCKED_PATTERNS], [globToRegex],
      [shouldBlockUrl]) *)
(* ================================================================== *)

Module Blocklist.

Definition BLOCKED_PATTERNS : list string :=
  [ (* Ad networks *)
    "*://*.doubleclick.net/*";
    "*://*.googlesyndication.com/*";
    "*://*.googleadservices.com/*";
    "*://*.google-analytics.com/*";
    "*://*.googletagmanager.com/*";
    "*://*.googletagservices.com/*";
    "*://*.facebook.net/*";
    "*://*.facebook.com/tr/*";
    "*://*.fbcdn.net/signals/*";
    "*://*.amazon-adsystem.com/*";
    "*://*.adsrvr.org/*";
    "*://*.adnxs.com/*";
    "*://*.criteo.com/*";
    "*://*.criteo.net/*";
    "*://*.outbrain.com/*";
    "*://*.taboola.com/*";
    "*://*.pubmatic.com/*";
    "*://*.rubiconproject.com/*";
    "*://*.openx.net/*";
    "*://*.casalemedia.com/*";
    "*://*.advertising.com/*";
    "*://*.adform.net/*";
    "*://*.ads-twitter.com/*";
    "*://*.moatads.com/*";
    "*://*.quantserve.com/*";
    "*://*.scorecardresearch.com/*";
    "*://*.rlcdn.com/*";
    "*://*.bluekai.com/*";
    "*://*.krxd.net/*";
    "*://*.exelator.com/*";
    "*://*.everesttech.net/*";
    (* Cookie consent popups *)
    "*://*.cookielaw.org/*";
    "*://*.cookiebot.com/*";
    "*://*.onetrust.com/*";
    "*://*.trustarc.com/*";
    "*://*.cookiepro.com/*";
    "*://*.consentmanager.net/*";
    "*://*.usercentrics.eu/*";
    "*://*.privacymanager.io/*";
    "*://*.termly.io/*";
    "*://*.iubenda.com/*";
    (* Tracking pixels and analytics *)
    "*://*.hotjar.com/*";
    "*://*.fullstory.com/*";
    "*://*.mixpanel.com/*";
    "*://*.segment.io/*";
    "*://*.segment.com/*";
    "*://*.amplitude.com/*";
    "*://*.heapanalytics.com/*";
    "*://*.mouseflow.com/*";
    "*://*.luckyorange.com/*";
    "*://*.crazyegg.com/*";
    "*://*.inspectlet.com/*";
    (* More ad networks *)
    "*://*.adskeeper.com/*";
    "*://*.mgid.com/*";
    "*://*.revcontent.com/*";
    "*://*.content.ad/*";
    "*://*.zergnet.com/*" ].

(** ** Characters *)

Definition backslash : ascii := "092"%char.
Definition star : ascii := "*"%char.
Definition dot : ascii := "."%char.
Definition caret : ascii := "^"%char.
Definition dollar : ascii := "$"%char.

(** The character class of the first [replace] in [globToRegex]:
    [. + ? ^ $ { } ( ) | [ ] \]. *)
Definition escaped_class : list ascii :=
  [ dot; "+"%char; "?"%char; caret; dollar; "{"%char; "}"%char;
    "("%char; ")"%char; "|"%char; "["%char; "]"%char; backslash ].

Definition in_class (cls : list ascii) (c : ascii) : bool :=
  existsb (Ascii.eqb c) cls.

(** ECMAScript [SyntaxCharacter]: the characters that are not literal in
    a pattern. *)
Definition syntax_chars : list ascii := star :: escaped_class.

(** ECMAScript [LineTerminator], restricted to the modelled code units:
    line feed and carriage return. *)
Definition is_line_terminator (c : ascii) : bool :=
  (Ascii.eqb c "010"%char || Ascii.eqb c "013"%char)%bool.

(** [Canonicalize] of a case-insensitive, non-unicode [RegExp]: the
    upper-case mapping whenever it stays a single code unit of the same
    range (a-z, and the Latin-1 letters 0xE0-0xFE but for the division
    sign). *)
Definition canonicalize (c : ascii) : ascii :=
  let n := nat_of_ascii c in
  if ((97 <=? n) && (n <=? 122))%nat then ascii_of_nat (n - 32)
  else if ((224 <=? n) && (n <=? 254) && negb (n =? 247))%nat
       then ascii_of_nat (n - 32)
  else c.

(** ** [String.prototype.replace] with a global pattern *)

(** [pattern.replace(/[.+?^${}()|[\]\\]/g, '\\$&')] *)
Fixpoint escape_specials (s : string) : string :=
  match s with
  | EmptyString => EmptyString
  | String c rest =>
      if in_class escaped_class c
      then String backslash (String c (escape_specials rest))
      else String c (escape_specials rest)
  end.

(** [.replace(/\*/g, '.*')] *)
Fixpoint replace_stars (s : string) : string :=
  match s with
  | EmptyString => EmptyString
  | String c rest =>
      if Ascii.eqb c star
      then String dot (String star (replace_stars rest))
      else String c (replace_stars rest)
  end.

(** ** A fragment of ECMAScript regular expressions

    One alternative made of assertions [^] and [$], pattern characters,
    identity escapes, [.] and the quantifier [*].  Everything else makes
    the constructor throw a [SyntaxError] ([None]). *)

Inductive token : Type :=
| TokChar (c : ascii)
| TokDot
| TokStar
| TokBol
| TokEol.

Fixpoint tokenize (s : string) : option (list token) :=
  match s with
  | EmptyString => Some []
  | String c rest =>
      if Ascii.eqb c backslash then
        match rest with
        | String d rest' =>
            if in_class syntax_chars d
            then option_map (cons (TokChar d)) (tokenize rest')
            else None
        | EmptyString => None
        end
      else if Ascii.eqb c dot then option_map (cons TokDot) (tokenize rest)
      else if Ascii.eqb c star then option_map (cons TokStar) (tokenize rest)
      else if Ascii.eqb c caret then option_map (cons TokBol) (tokenize rest)
      else if Ascii.eqb c dollar then option_map (cons TokEol) (tokenize rest)
      else if in_class syntax_chars c then None
      else option_map (cons (TokChar c)) (tokenize rest)
  end.

Inductive atom : Type :=
| ALit (c : ascii)
| ADot.

Inductive term : Type :=
| TAtom (a : atom)
| TStar (a : atom)
| TBol
| TEol.

Definition regex : Type := list term.

Fixpoint build (ts : list token) : option regex :=
  match ts with
  | [] => Some []
  | TokBol :: r => option_map (cons TBol) (build r)
  | TokEol :: r => option_map (cons TEol) (build r)
  | TokStar :: _ => None
  | TokChar c :: TokStar :: r => option_map (cons (TStar (ALit c))) (build r)
  | TokChar c :: r => option_map (cons (TAtom (ALit c))) (build r)
  | TokDot :: TokStar :: r => option_map (cons (TStar ADot)) (build r)
  | TokDot :: r => option_map (cons (TAtom ADot)) (build r)
  end.

Record RegExp : Type := mkRegExp {
  re_terms : regex;
  ignoreCase : bool
}.

(** [new RegExp(source, flags)], for no flag or the flag [i]. *)
Definition new_RegExp (source flags : string) : option RegExp :=
  match tokenize source with
  | Some ts =>
      match build ts with
      | Some r =>
          if String.eqb flags "i" then Some (mkRegExp r true)
          else if String.eqb flags EmptyString then Some (mkRegExp r false)
          else None
      | None => None
      end
  | None => None
  end.

(** Convert glob patterns to regex. *)
Definition globToRegex (pattern : string) : option RegExp :=
  let escaped := replace_stars (escape_specials pattern) in
  new_RegExp (String caret (escaped ++ String dollar EmptyString)) "i".

(** ** Matching *)

Definition atom_matches (ic : bool) (a : atom) (c : ascii) : bool :=
  match a with
  | ALit p =>
      if ic then Ascii.eqb (canonicalize p) (canonicalize c)
      else Ascii.eqb p c
  | ADot => negb (is_line_terminator c)
  end.

(** Does [r] match a prefix of [s]?  [bol] tells whether [s] starts at
    the beginning of the input. *)
Fixpoint match_here (ic : bool) (r : regex) (bol : bool) (s : string)
  {struct r} : bool :=
  match r with
  | [] => true
  | TBol :: r' => bol && match_here ic r' bol s
  | TEol :: r' =>
      match s with
      | EmptyString => match_here ic r' bol s
      | String _ _ => false
      end
  | TAtom a :: r' =>
      match s with
      | EmptyString => false
      | String c s' => atom_matches ic a c && match_here ic r' false s'
      end
  | TStar a :: r' =>
      (fix loop (bol : bool) (s : string) {struct s} : bool :=
         match_here ic r' bol s ||
         match s with
         | EmptyString => false
         | String c s' => atom_matches ic a c && loop false s'
         end) bol s
  end.

(** A match may start at any index of the input. *)
Fixpoint search (ic : bool) (r : regex) (bol : bool) (s : string) : bool :=
  match_here ic r bol s ||
  match s with
  | EmptyString => false
  | String _ s' => search ic r false s'
  end.

(** [regex.test(url)] (no [g] or [y] flag: the search starts at 0). *)
Definition test (re : RegExp) (s : string) : bool :=
  search (ignoreCase re) (re_terms re) true s.

(** [BLOCKED_PATTERNS.map(globToRegex)]; [None] when a constructor
    throws while the module is loaded. *)
Fixpoint map_throwing {A B : Type} (f : A -> option B) (l : list A)
  : option (list B) :=
  match l with
  | [] => Some []
  | a :: l' =>
      match f a with
      | Some b => option_map (cons b) (map_throwing f l')
      | None => None
      end
  end.

Definition BLOCKED_REGEXES : option (list RegExp) :=
  map_throwing globToRegex BLOCKED_PATTERNS.

Definition shouldBlockUrl (url : string) : option bool :=
  option_map (existsb (fun re => test re url)) BLOCKED_REGEXES.

(** ** Glob matching, as the design document words it

    "[*] = any run of characters, case-insensitive"; "a full-string
    anchor match, not substring search". *)

Definition same_ignoring_case (c d : ascii) : Prop :=
  canonicalize c = canonicalize d.

Inductive glob_matches : string -> string -> Prop :=
| glob_end : glob_matches EmptyString EmptyString
| glob_star (run : string) (p u : string) :
    glob_matches p u ->
    glob_matches (String star p) (run ++ u)
| glob_char (c d : ascii) (p u : string) :
    c <> star ->
    same_ignoring_case c d ->
    glob_matches p u ->
    glob_matches (String c p) (String d u).

Fixpoint no_line_terminator (s : string) : bool :=
  match s with
  | EmptyString => true
  | String c s' => negb (is_line_terminator c) && no_line_terminator s'
  end.

(** ** The compiled form of a glob pattern

    What [globToRegex] produces for a pattern, character by character:
    the tokens of the escaped source and the terms built from them. *)

Fixpoint glob_tokens (p : string) : list token :=
  match p with
  | EmptyString => []
  | String c p' =>
      if Ascii.eqb c star then TokDot :: TokStar :: glob_tokens p'
      else TokChar c :: glob_tokens p'
  end.

Fixpoint glob_terms (p : string) : regex :=
  match p with
  | EmptyString => []
  | String c p' =>
      (if Ascii.eqb c star then TStar ADot else TAtom (ALit c)) :: glob_terms p'
  end.

End Blocklist.

(* ================================================================== *)
(** * Asynchronous programs over the pool *)
(* ================================================================== *)

(** ** The shared objects of [browser-pool.ts] *)

Module Pool.

(** A Playwright object ([Browser], [BrowserContext], [Page]) is known by
    a handle; a [PooledPage] object is known by its address in the store
    of pooled-page objects. *)
Definition handle : Type := nat.
Definition ref : Type := nat.

Record PooledPage : Type := mkPooledPage {
  page : handle;
  context : handle;
  inUse : bool;
  createdAt : Z
}.

(** The fields of a [BrowserPool], with the store that holds the
    [PooledPage] objects its array (and the closures) refer to. *)
Record BrowserPool : Type := mkBrowserPool {
  browser : option handle;
  pages : list ref;
  poolSize : nat;
  maxPageAge : Z;
  store : list PooledPage
}.

(** [new BrowserPool(poolSize)] *)
Definition new_BrowserPool (poolSize : nat) : BrowserPool :=
  {| browser := None;
     pages := [];
     poolSize := poolSize;
     maxPageAge := 5 * 60 * 1000;
     store := [] |}.

Definition no_page : PooledPage :=
  {| page := 0%nat; context := 0%nat; inUse := false; createdAt := 0 |}.

Definition deref (pool : BrowserPool) (r : ref) : PooledPage :=
  nth r (store pool) no_page.

Fixpoint write_at {A : Type} (l : list A) (i : nat) (x : A) : list A :=
  match l, i with
  | [], _ => []
  | _ :: l', O => x :: l'
  | y :: l', S i' => y :: write_at l' i' x
  end.

(** [pooledPage.inUse = b] *)
Definition set_inUse (r : ref) (b : bool) (pool : BrowserPool) : BrowserPool :=
  let o := deref pool r in
  {| browser := browser pool;
     pages := pages pool;
     poolSize := poolSize pool;
     maxPageAge := maxPageAge pool;
     store := write_at (store pool) r
                {| page := page o; context := context o;
                   inUse := b; createdAt := createdAt o |} |}.

Definition set_pages (ps : list ref) (pool : BrowserPool) : BrowserPool :=
  {| browser := browser pool;
     pages := ps;
     poolSize := poolSize pool;
     maxPageAge := maxPageAge pool;
     store := store pool |}.

(** [const pooledPage = {...}; this.pages.push(pooledPage)]: a new
    object, and a reference to it at the end of the array. *)
Definition push_new (o : PooledPage) (pool : BrowserPool) : ref * BrowserPool :=
  let r := List.length (store pool) in
  (r, {| browser := browser pool;
         pages := pages pool ++ [r];
         poolSize := poolSize pool;
         maxPageAge := maxPageAge pool;
         store := store pool ++ [o] |}).

(** [this.pages.find((p) => !p.inUse)] *)
Definition find_free (pool : BrowserPool) : option ref :=
  List.find (fun r => negb (inUse (deref pool r))) (pages pool).

(** [this.pages.indexOf(pooledPage)], [None] for [-1]. *)
Fixpoint indexOf (r : ref) (l : list ref) : option nat :=
  match l with
  | [] => None
  | x :: l' => if Nat.eqb x r then Some O else option_map S (indexOf r l')
  end.

(** [this.pages.splice(index, 1)] *)
Fixpoint splice1 {A : Type} (index : nat) (l : list A) : list A :=
  match l, index with
  | [], _ => []
  | _ :: l', O => l'
  | x :: l', S i => x :: splice1 i l'
  end.

Record Stats : Type := mkStats {
  total : nat;
  available : nat;
  inUseCount : nat
}.

Definition getStats (pool : BrowserPool) : Stats :=
  {| total := List.length (pages pool);
     available :=
       List.length (filter (fun r => negb (inUse (deref pool r))) (pages pool));
     inUseCount :=
       List.length (filter (fun r => inUse (deref pool r)) (pages pool)) |}.

End Pool.

(** ** Values, outcomes and the operations a task waits for *)

Module Async.
Import Pool.

Definition Buffer : Type := list Byte.byte.

(** What a [throw] carries, as far as the code looks at it:
    [reason?.message]. *)
Record Thrown : Type := mkThrown { message : option string }.

Definition Error (msg : string) : Thrown := mkThrown (Some msg).

Inductive Outcome (A : Type) : Type :=
| Fulfilled (a : A)
| Rejected (e : Thrown).
Arguments Fulfilled {A} a.
Arguments Rejected {A} e.

Inductive Val : Type :=
| VUnit
| VHandle (h : handle)
| VBuffer (b : Buffer).

Definition as_handle (v : Val) : handle :=
  match v with VHandle h => h | _ => 0%nat end.

Definition as_buffer (v : Val) : Buffer :=
  match v with VBuffer b => b | _ => [] end.

Inductive WaitUntil : Type :=
| load
| domcontentloaded
| networkidle
| commit.

Inductive OutputType : Type := png | jpeg | pdf.

(** The two functions the service evaluates inside the page. *)
Inductive Script : Type :=
| ScrollScript
| ImagesScript (maxWait : Z) (viewportOnly : bool).

(** The calls into Playwright and the timers a task can be suspended
    on.  [OpTick] is the resumption of an [await] on a promise of one of
    the program's own async functions: nothing external, but a later
    job. *)
Inductive ExtOp : Type :=
| OpTimer (ms : Z)
| OpNewContext (b : handle) (width height deviceScaleFactor : Z)
| OpNewPage (ctx : handle)
| OpCloseContext (ctx : handle)
| OpRoute (pg : handle) (glob : string)
| OpSetViewportSize (pg : handle) (width height : Z)
| OpGoto (pg : handle) (url : string)
         (waitUntil : option WaitUntil) (timeout : option Z)
| OpEvaluate (pg : handle) (script : Script)
| OpWaitForTimeout (pg : handle) (ms : Z)
| OpPdf (pg : handle) (format : string) (printBackground : bool)
| OpScreenshot (pg : handle) (fullPage : bool) (type : OutputType)
               (quality : option Z)
| OpUnrouteAll (pg : handle) (behavior : string)
| OpTick.

(** ** Programs

    A tree of the effects of an async function: reads and writes of the
    pool run at once; [Await] suspends the task until the operation
    settles; [Fork] starts a program that nobody waits for. *)
Inductive Prog (A : Type) : Type :=
| Ret (a : A)
| Throw (e : Thrown)
| GetPool (k : BrowserPool -> Prog A)
| PutPool (pool : BrowserPool) (k : Prog A)
| DateNow (k : Z -> Prog A)
| ConsoleError (e : Thrown) (k : Prog A)
| Await (op : ExtOp) (k : Outcome Val -> Prog A)
| Fork (p : Prog unit) (k : Prog A).
Arguments Ret {A} a.
Arguments Throw {A} e.
Arguments GetPool {A} k.
Arguments PutPool {A} pool k.
Arguments DateNow {A} k.
Arguments ConsoleError {A} e k.
Arguments Await {A} op k.
Arguments Fork {A} p k.

Fixpoint bind {A B : Type} (p : Prog A) (f : A -> Prog B) : Prog B :=
  match p with
  | Ret a => f a
  | Throw e => Throw e
  | GetPool k => GetPool (fun s => bind (k s) f)
  | PutPool s k => PutPool s (bind k f)
  | DateNow k => DateNow (fun t => bind (k t) f)
  | ConsoleError e k => ConsoleError e (bind k f)
  | Await op k => Await op (fun o => bind (k o) f)
  | Fork p k => Fork p (bind k f)
  end.

Declare Scope prog_scope.
Delimit Scope prog_scope with prog.
Bind Scope prog_scope with Prog.

Notation "x <- p ;; q" := (bind p (fun x => q))
  (at level 61, p at next level, right associativity) : prog_scope.
Notation "p ;; q" := (bind p (fun _ => q))
  (at level 61, right associativity) : prog_scope.

Local Open Scope prog_scope.

(** The outcome of a program, as a value: the program that results
    never throws. *)
Fixpoint attempt {A : Type} (p : Prog A) : Prog (Outcome A) :=
  match p with
  | Ret a => Ret (Fulfilled a)
  | Throw e => Ret (Rejected e)
  | GetPool k => GetPool (fun s => attempt (k s))
  | PutPool s k => PutPool s (attempt k)
  | DateNow k => DateNow (fun t => attempt (k t))
  | ConsoleError e k => ConsoleError e (attempt k)
  | Await op k => Await op (fun o => attempt (k o))
  | Fork p k => Fork p (attempt k)
  end.

Definition settle {A : Type} (o : Outcome A) : Prog A :=
  match o with
  | Fulfilled a => Ret a
  | Rejected e => Throw e
  end.

(** [await op(...)] on an external operation. *)
Definition await (op : ExtOp) : Prog Val := Await op settle.

(** [await f(...)] where [f] is an async function of the program: the
    body runs up to its own suspension points; once it has settled, the
    caller resumes in a later job. *)
Definition await_call {A : Type} (p : Prog A) : Prog A :=
  o <- attempt p ;; Await OpTick (fun _ => settle o).

(** [promise.catch(handler)] *)
Definition catch {A : Type} (p : Prog A) (handler : Thrown -> Prog A) : Prog A :=
  o <- attempt p ;;
  match o with
  | Fulfilled a => Ret a
  | Rejected e => handler e
  end.

(** [promise.catch(() => {})] *)
Definition catch_ignore {A : Type} (p : Prog A) : Prog unit :=
  catch (p ;; Ret tt) (fun _ => Ret tt).

(** [try { body } finally { cleanup }]: the cleanup runs however the
    body ends; if the cleanup itself throws, that replaces the outcome
    of the body. *)
Definition try_finally {A : Type} (body : Prog A) (cleanup : Prog unit) : Prog A :=
  o <- attempt body ;; cleanup ;; settle o.

Definition get_pool : Prog BrowserPool := GetPool Ret.
Definition put_pool (s : BrowserPool) : Prog unit := PutPool s (Ret tt).
Definition modify_pool (f : BrowserPool -> BrowserPool) : Prog unit :=
  GetPool (fun s => PutPool (f s) (Ret tt)).
Definition date_now : Prog Z := DateNow Ret.
Definition console_error (e : Thrown) : Prog unit := ConsoleError e (Ret tt).
Definition fork (p : Prog unit) : Prog unit := Fork p (Ret tt).

(** ** Running programs *)

(** A task that has run as far as it can. *)
Inductive Paused (A : Type) : Type :=
| Settled (o : Outcome A)
| Waiting (op : ExtOp) (k : Outcome Val -> Prog A).
Arguments Settled {A} o.
Arguments Waiting {A} op k.

Record World : Type := mkWorld {
  w_pool : BrowserPool;
  w_now : Z;                        (* Date.now() *)
  w_trace : list ExtOp;             (* external operations started *)
  w_errors : list Thrown;           (* console.error *)
  w_detached : list (Z * Paused unit)
                                    (* forked tasks, with the time each
                                       one was last suspended *)
}.

Definition with_pool (s : BrowserPool) (w : World) : World :=
  {| w_pool := s; w_now := w_now w; w_trace := w_trace w;
     w_errors := w_errors w; w_detached := w_detached w |}.

Definition with_error (e : Thrown) (w : World) : World :=
  {| w_pool := w_pool w; w_now := w_now w; w_trace := w_trace w;
     w_errors := w_errors w ++ [e]; w_detached := w_detached w |}.

Definition with_detached (t : Paused unit) (w : World) : World :=
  {| w_pool := w_pool w; w_now := w_now w; w_trace := w_trace w;
     w_errors := w_errors w;
     w_detached := w_detached w ++ [(w_now w, t)] |}.

Definition set_detached (l : list (Z * Paused unit)) (w : World) : World :=
  {| w_pool := w_pool w; w_now := w_now w; w_trace := w_trace w;
     w_errors := w_errors w; w_detached := l |}.

Definition is_tick (op : ExtOp) : bool :=
  match op with OpTick => true | _ => false end.

(** Starting an external operation leaves a mark in the trace. *)
Definition started (op : ExtOp) (w : World) : World :=
  {| w_pool := w_pool w; w_now := w_now w;
     w_trace := if is_tick op then w_trace w else w_trace w ++ [op];
     w_errors := w_errors w; w_detached := w_detached w |}.

Definition elapse (dt : N) (w : World) : World :=
  {| w_pool := w_pool w; w_now := w_now w + Z.of_N dt; w_trace := w_trace w;
     w_errors := w_errors w; w_detached := w_detached w |}.

(** One job: the program runs until it settles or reaches an [Await].
    A forked program runs its first stretch on the spot and is then left
    among the detached tasks. *)
Fixpoint run_sync {A : Type} (p : Prog A) (w : World) {struct p}
  : World * Paused A :=
  match p with
  | Ret a => (w, Settled (Fulfilled a))
  | Throw e => (w, Settled (Rejected e))
  | GetPool k => run_sync (k (w_pool w)) w
  | PutPool s k => run_sync k (with_pool s w)
  | DateNow k => run_sync (k (w_now w)) w
  | ConsoleError e k => run_sync k (with_error e w)
  | Await op k => (started op w, Waiting op k)
  | Fork p' k =>
      let (w1, t) := run_sync p' w in
      run_sync k (with_detached t w1)
  end.

(** *** One task against an environment

    The environment settles every operation the task waits for: the
    [n]-th operation started gets an outcome and takes some time.  Tasks
    forked on the way stay suspended. *)
Definition Oracle : Type := nat -> ExtOp -> Outcome Val * N.

Definition answer (env : Oracle) (w : World) (op : ExtOp) : Outcome Val * N :=
  if is_tick op then (Fulfilled VUnit, 0%N)
  else env (List.length (w_trace w)) op.

Fixpoint exec {A : Type} (p : Prog A) (env : Oracle) (w : World) {struct p}
  : World * Outcome A :=
  match p with
  | Ret a => (w, Fulfilled a)
  | Throw e => (w, Rejected e)
  | GetPool k => exec (k (w_pool w)) env w
  | PutPool s k => exec k env (with_pool s w)
  | DateNow k => exec (k (w_now w)) env w
  | ConsoleError e k => exec k env (with_error e w)
  | Await op k =>
      let (o, dt) := answer env w op in
      exec (k o) env (elapse dt (started op w))
  | Fork p' k =>
      let (w1, t) := run_sync p' w in
      exec k env (with_detached t w1)
  end.

(** *** Several tasks, interleaved as the event loop interleaves them

    The tasks of the callers and the detached tasks share the world.  A
    step is one turn of the event loop with the promise jobs it brings:

    - a callback of a caller (a request handler) calls some programs,
      one after the other, each running up to its first suspension;
    - an operation a task waits for settles, and the task runs on;
    - time passes.

    A task suspended on [OpTick] is a promise job that is already
    queued.  The queue of promise jobs is emptied before the event loop
    takes its next turn: as long as some task waits on [OpTick], the
    only steps are resumptions of such tasks.  (Which of several queued
    jobs comes first is left open.)  A timer is resumed no sooner than
    it is due; jobs take no time. *)
Record System (A : Type) : Type := mkSystem {
  sys_world : World;
  sys_tasks : list (Z * Paused A)
}.
Arguments mkSystem {A} sys_world sys_tasks.
Arguments sys_world {A} s.
Arguments sys_tasks {A} s.

Inductive Action (A : Type) : Type :=
| Request (ps : list (Prog A))
| Resume (i : nat) (o : Outcome Val)
| ResumeDetached (j : nat) (o : Outcome Val)
| Elapse (dt : N).
Arguments Request {A} ps.
Arguments Resume {A} i o.
Arguments ResumeDetached {A} j o.
Arguments Elapse {A} dt.

Definition due (now since : Z) (op : ExtOp) : bool :=
  match op with
  | OpTimer ms => since + ms <=? now
  | _ => true
  end.

Definition waits_tick {A : Type} (t : Z * Paused A) : bool :=
  match snd t with
  | Waiting op _ => is_tick op
  | Settled _ => false
  end.

(** Some promise job is queued. *)
Definition tick_pending {A : Type} (s : System A) : bool :=
  existsb waits_tick (sys_tasks s) ||
  existsb waits_tick (w_detached (sys_world s)).

(** May a task suspended on [op] since [since] be resumed now? *)
Definition resumable {A : Type} (s : System A) (since : Z) (op : ExtOp) : bool :=
  if is_tick op then true
  else negb (tick_pending s) && due (w_now (sys_world s)) since op.

(** A program is called: it runs up to its first suspension and becomes
    one more task. *)
Definition start {A : Type} (s : System A) (p : Prog A) : System A :=
  let (w', t) := run_sync p (sys_world s) in
  mkSystem w' (sys_tasks s ++ [(w_now w', t)]).

Definition step {A : Type} (a : Action A) (s : System A) : option (System A) :=
  let w := sys_world s in
  match a with
  | Request ps =>
      if tick_pending s then None else Some (fold_left start ps s)
  | Resume i o =>
      match nth_error (sys_tasks s) i with
      | Some (since, Waiting op k) =>
          if resumable s since op then
            let (w', t) := run_sync (k o) w in
            Some (mkSystem w' (write_at (sys_tasks s) i (w_now w', t)))
          else None
      | _ => None
      end
  | ResumeDetached j o =>
      match nth_error (w_detached w) j with
      | Some (since, Waiting op k) =>
          if resumable s since op then
            let (w', t) := run_sync (k o) w in
            Some (mkSystem
                    (set_detached (write_at (w_detached w') j (w_now w', t)) w')
                    (sys_tasks s))
          else None
      | _ => None
      end
  | Elapse dt =>
      if tick_pending s then None
      else Some (mkSystem (elapse dt w) (sys_tasks s))
  end.

Fixpoint run {A : Type} (schedule : list (Action A)) (s : System A)
  : option (System A) :=
  match schedule with
  | [] => Some s
  | a :: rest =>
      match step a s with
      | Some s' => run rest s'
      | None => None
      end
  end.

(** What task [i] has settled with, if it has. *)
Definition result_of {A : Type} (s : System A) (i : nat) : option (Outcome A) :=
  match nth_error (sys_tasks s) i with
  | Some (_, Settled o) => Some o
  | _ => None
  end.

End Async.

(* ================================================================== *)
(** * The methods of [BrowserPool] *)
(* ================================================================== *)

Module PoolOps.
Import Pool Async.
Local Open Scope prog_scope.

(** [private async createPooledPage(): Promise<PooledPage>] *)
Definition createPooledPage : Prog ref :=
  pool <- get_pool ;;
  match browser pool with
  | None => Throw (Error "Browser not initialized")
  | Some b =>
      context <- await (OpNewContext b 1280 720 1) ;;
      page <- await (OpNewPage (as_handle context)) ;;
      now <- date_now ;;
      pool <- get_pool ;;
      let pooledPage :=
        {| page := as_handle page;
           context := as_handle context;
           inUse := false;
           createdAt := now |} in
      let (r, pool') := push_new pooledPage pool in
      put_pool pool' ;;
      Ret r
  end.

(** The closure [release] that [acquirePage] returns, for the pooled
    page it has bound. *)
Definition release_of (pooledPage : ref) : Prog unit :=
  modify_pool (set_inUse pooledPage false) ;;
  (* If page is too old, replace it *)
  now <- date_now ;;
  pool <- get_pool ;;
  if now - createdAt (deref pool pooledPage) >? maxPageAge pool then
    match indexOf pooledPage (pages pool) with
    | Some index =>
        put_pool (set_pages (splice1 index (pages pool)) pool) ;;
        catch_ignore (await (OpCloseContext (context (deref pool pooledPage)))) ;;
        (* Create replacement *)
        fork (catch (createPooledPage ;; Ret tt) console_error) ;;
        Ret tt
    | None => Ret tt
    end
  else Ret tt.

Record Acquired : Type := mkAcquired {
  acquired_page : handle;
  release : Prog unit
}.

(** [async acquirePage(): Promise<{ page; release }>] *)
Definition acquirePage : Prog Acquired :=
  (* Find available page *)
  pool <- get_pool ;;
  let pooledPage := find_free pool in
  (* If no available page, wait briefly and try again *)
  pooledPage <-
    match pooledPage with
    | None =>
        await (OpTimer 100) ;;
        pool <- get_pool ;;
        Ret (find_free pool)
    | Some r => Ret (Some r)
    end ;;
  (* Still no page? Create a new one temporarily *)
  pooledPage <-
    match pooledPage with
    | None => await_call createPooledPage
    | Some r => Ret r
    end ;;
  modify_pool (set_inUse pooledPage true) ;;
  pool <- get_pool ;;
  Ret {| acquired_page := page (deref pool pooledPage);
         release := release_of pooledPage |}.

(** The pool keeps a reference to a pooled page for the page [pg]. *)
Definition tracked (pool : BrowserPool) (pg : handle) : bool :=
  existsb (fun r => Nat.eqb (page (deref pool r)) pg) (pages pool).

(** A program returns in the job it is called in: there is nothing it
    waits for. *)
Definition returns_at_once {A : Type} (p : Prog A) (w : World) : Prop :=
  exists w' o, run_sync p w = (w', Settled o).

End PoolOps.

(* ================================================================== *)
(** * [screenshot.ts]: the capture service *)
(* ================================================================== *)

Module Screenshot.
Import Pool Async PoolOps.
Local Open Scope prog_scope.

Inductive Device : Type := desktop | tablet | mobile.

Record ScreenshotOptions : Type := mkOptions {
  url : string;
  fullPage : option bool;
  type : option OutputType;
  quality : option Z;
  width : option Z;
  height : option Z;
  delay : option Z;
  device : option Device;
  blockAds : option bool
}.

Record Viewport : Type := mkViewport { vp_width : Z; vp_height : Z }.

Definition deviceViewports (d : Device) : Viewport :=
  match d with
  | desktop => {| vp_width := 1280; vp_height := 720 |}
  | tablet => {| vp_width := 768; vp_height := 1024 |}
  | mobile => {| vp_width := 375; vp_height := 667 |}
  end.

(** [x || dflt] on an optional number: [undefined] and [0] are falsy. *)
Definition number_or (x : option Z) (dflt : Z) : Z :=
  match x with
  | Some v => if v =? 0 then dflt else v
  | None => dflt
  end.

(** [x ?? dflt] *)
Definition nullish_or {A : Type} (x : option A) (dflt : A) : A :=
  match x with
  | Some v => v
  | None => dflt
  end.

(** Truthiness of an optional boolean. *)
Definition truthy (x : option bool) : bool := nullish_or x false.

(** The handler installed by [page.route]: what it does with the request
    for [url]. *)
Inductive RouteDecision : Type := route_abort | route_continue.

Definition route_handler (url : string) : option RouteDecision :=
  option_map (fun b : bool => if b then route_abort else route_continue)
             (Blocklist.shouldBlockUrl url).

(** [async function waitForImages(page, viewportOnly = true, timeout = 5000)] *)
Definition waitForImages (pg : handle) (viewportOnly : option bool)
                         (timeout : option Z) : Prog unit :=
  await (OpEvaluate pg (ImagesScript (nullish_or timeout 5000)
                                     (nullish_or viewportOnly true))) ;;
  Ret tt.

(** [async function scrollToBottom(page)] *)
Definition scrollToBottom (pg : handle) : Prog unit :=
  await (OpEvaluate pg ScrollScript) ;;
  Ret tt.

Definition viewport_of (options : ScreenshotOptions) : Viewport :=
  match device options with
  | Some d => deviceViewports d
  | None =>
      {| vp_width := number_or (width options) 1280;
         vp_height := number_or (height options) 720 |}
  end.

(** [if (options.delay && options.delay > 0)
      await page.waitForTimeout(options.delay * 1000)] *)
Definition delay_step (options : ScreenshotOptions) (pg : handle) : Prog unit :=
  match delay options with
  | Some d =>
      if negb (d =? 0) && (d >? 0)
      then await (OpWaitForTimeout pg (d * 1000)) ;; Ret tt
      else Ret tt
  | None => Ret tt
  end.

(** The end of the [try] block: [page.pdf] for a PDF, [page.screenshot]
    otherwise; what it returns is what [capture] returns. *)
Definition export_step (options : ScreenshotOptions) (pg : handle) : Prog Buffer :=
  match type options with
  | Some pdf =>
      pdf_bytes <- await (OpPdf pg "A4" true) ;;
      Ret (as_buffer pdf_bytes)
  | _ =>
      screenshot <-
        await (OpScreenshot pg
                 (nullish_or (fullPage options) false)
                 (nullish_or (type options) png)
                 (match type options with
                  | Some jpeg => Some (number_or (quality options) 80)
                  | _ => None
                  end)) ;;
      Ret (as_buffer screenshot)
  end.

(** The [try] block of [capture]. *)
Definition capture_try (options : ScreenshotOptions) (blockAds : bool)
                       (pg : handle) : Prog Buffer :=
  (* Set up ad/cookie blocking if enabled *)
  (if blockAds then await (OpRoute pg "**/*") ;; Ret tt else Ret tt) ;;
  (* Set viewport *)
  let viewport := viewport_of options in
  await (OpSetViewportSize pg (vp_width viewport) (vp_height viewport)) ;;
  (* Navigate to URL - use domcontentloaded for speed *)
  await (OpGoto pg (url options) (Some domcontentloaded) (Some 30000)) ;;
  (* For viewport screenshots: wait for visible images only.
     For fullPage: scroll first, then wait for all images *)
  (if truthy (fullPage options) then
     await_call (scrollToBottom pg) ;;
     await_call (waitForImages pg (Some false) None)
   else
     await_call (waitForImages pg (Some true) None)) ;;
  (* User-specified delay (optional) *)
  delay_step options pg ;;
  (* Take screenshot or PDF *)
  export_step options pg.

(** The [finally] block of [capture]. *)
Definition capture_finally (pg : handle) (release : Prog unit) : Prog unit :=
  (* Clear routes and page state for reuse *)
  catch_ignore (await (OpUnrouteAll pg "wait")) ;;
  catch_ignore (await (OpGoto pg "about:blank" None None)) ;;
  await_call release.

(** [async capture(options: ScreenshotOptions): Promise<Buffer>] *)
Definition capture (options : ScreenshotOptions) : Prog Buffer :=
  acq <- await_call acquirePage ;;
  let blockAds := nullish_or (blockAds options) true in
  try_finally
    (capture_try options blockAds (acquired_page acq))
    (capture_finally (acquired_page acq) (release acq)).

(** ** [captureMany] *)

Record BatchEntry : Type := mkEntry {
  entry_url : string;
  success : bool;
  buffer : option Buffer;
  error : option string
}.

(** [s || dflt] on an optional string: [undefined] and the empty string
    are falsy. *)
Definition string_or (s : option string) (dflt : string) : string :=
  match s with
  | Some EmptyString => dflt
  | Some v => v
  | None => dflt
  end.

(** The callback of [results.map] in [captureMany]. *)
Definition to_entry (url : string) (result : Outcome Buffer) : BatchEntry :=
  match result with
  | Fulfilled value =>
      {| entry_url := url; success := true;
         buffer := Some value; error := None |}
  | Rejected reason =>
      {| entry_url := url; success := false;
         buffer := None;
         error := Some (string_or (message reason) "Screenshot failed") |}
  end.

(** [Promise.allSettled] of the promises of tasks [first .. first+n-1]:
    settles, with the outcomes in the order of the tasks, once every one
    of them has settled. *)
Fixpoint allSettled {A : Type} (s : System A) (first n : nat)
  : option (list (Outcome A)) :=
  match n with
  | O => Some []
  | S n' =>
      match result_of s first, allSettled s (S first) n' with
      | Some o, Some rest => Some (o :: rest)
      | _, _ => None
      end
  end.

(** [optionsArray.map((opts) => this.capture(opts))]: in the job that
    calls [captureMany] every capture is called, in order, before any of
    them is resumed. *)
Definition start_all (optionsArray : list ScreenshotOptions)
  : list (Action Buffer) :=
  [Request (map capture optionsArray)].

Fixpoint map_index {A B : Type} (f : A -> nat -> B) (index : nat) (l : list A)
  : list B :=
  match l with
  | [] => []
  | a :: l' => f a index :: map_index f (S index) l'
  end.

Definition no_options : ScreenshotOptions :=
  mkOptions EmptyString None None None None None None None None.

(** [async captureMany(optionsArray)], on a service nobody else is
    using: the captures are started, the environment resumes the tasks
    as [schedule] says, and the batch settles if all captures have.
    [None]: the promise of the batch has not settled by then. *)
Definition captureMany (optionsArray : list ScreenshotOptions)
                       (schedule : list (Action Buffer)) (w : World)
  : option (list BatchEntry) :=
  match run (start_all optionsArray ++ schedule) (mkSystem w []) with
  | Some s =>
      match allSettled s 0 (List.length optionsArray) with
      | Some results =>
          Some (map_index
                  (fun result index =>
                     to_entry (url (nth index optionsArray no_options)) result)
                  0%nat results)
      | None => None
      end
  | None => None
  end.

(** ** The operations of a capture, in order

    The page operations the [try] block goes through when none of them
    fails, and how a straight sequence of operations runs against an
    environment: up to the first one that is rejected. *)

Definition delay_ops (options : ScreenshotOptions) (pg : handle) : list ExtOp :=
  match delay options with
  | Some d => if 0 <? d then [OpWaitForTimeout pg (d * 1000)] else []
  | None => []
  end.

Definition export_op (options : ScreenshotOptions) (pg : handle) : ExtOp :=
  match type options with
  | Some pdf => OpPdf pg "A4" true
  | Some jpeg =>
      OpScreenshot pg (nullish_or (fullPage options) false) jpeg
                   (Some (number_or (quality options) 80))
  | _ => OpScreenshot pg (nullish_or (fullPage options) false) png None
  end.

Definition setup_ops (options : ScreenshotOptions) (blockAds : bool)
                     (pg : handle) : list ExtOp :=
  (if blockAds then [OpRoute pg "**/*"] else []) ++
  [OpSetViewportSize pg (vp_width (viewport_of options))
                        (vp_height (viewport_of options))].

Definition navigation_op (options : ScreenshotOptions) (pg : handle) : ExtOp :=
  OpGoto pg (url options) (Some domcontentloaded) (Some 30000).

Definition readiness_ops (options : ScreenshotOptions) (pg : handle) : list ExtOp :=
  if truthy (fullPage options)
  then [OpEvaluate pg ScrollScript; OpEvaluate pg (ImagesScript 5000 false)]
  else [OpEvaluate pg (ImagesScript 5000 true)].

Definition planned_ops (options : ScreenshotOptions) (blockAds : bool)
                       (pg : handle) : list ExtOp :=
  setup_ops options blockAds pg ++
  [navigation_op options pg] ++
  readiness_ops options pg ++
  delay_ops options pg ++
  [export_op options pg].

(** The operations a program has started, from world [w] on. *)
Definition ops_started {A : Type} (p : Prog A) (env : Oracle) (w : World)
  : list ExtOp :=
  skipn (List.length (w_trace w)) (w_trace (fst (exec p env w))).

Definition is_scroll (op : ExtOp) : bool :=
  match op with
  | OpEvaluate _ ScrollScript => true
  | _ => false
  end.

Definition is_route (op : ExtOp) : bool :=
  match op with
  | OpRoute _ _ => true
  | _ => false
  end.

Definition is_image_wait (op : ExtOp) : bool :=
  match op with
  | OpEvaluate _ (ImagesScript _ _) => true
  | _ => false
  end.

(** Every image wait among [ops] comes right after a scroll pass;
    [after_scroll] tells whether the operation before [ops] was one. *)
Fixpoint scroll_precedes_images (after_scroll : bool) (ops : list ExtOp) : bool :=
  match ops with
  | [] => true
  | op :: rest =>
      (if is_image_wait op then after_scroll else true) &&
      scroll_precedes_images (is_scroll op) rest
  end.

(** Every image wait among [ops] has the given time limit and scope. *)
Definition image_waits_are (maxWait : Z) (viewportOnly : bool)
                           (ops : list ExtOp) : bool :=
  forallb (fun op =>
             match op with
             | OpEvaluate _ (ImagesScript m v) =>
                 (m =? maxWait) && Bool.eqb v viewportOnly
             | _ => true
             end) ops.

Fixpoint follow (env : Oracle) (ops : list ExtOp) (last : Val) (w : World)
  : World * Outcome Val :=
  match ops with
  | [] => (w, Fulfilled last)
  | op :: rest =>
      let (o, dt) := answer env w op in
      match o with
      | Fulfilled v => follow env rest v (elapse dt (started op w))
      | Rejected e => (elapse dt (started op w), Rejected e)
      end
  end.

Definition buffer_outcome (r : World * Outcome Val) : World * Outcome Buffer :=
  let (w', o) := r in
  (w', match o with
       | Fulfilled v => Fulfilled (as_buffer v)
       | Rejected e => Rejected e
       end).

End Screenshot.

(** ** The first version of the service ([src/screenshot.ts] as checked
       in under that name): no blocking, no readiness wait *)

Module Draft.
Import Pool Async PoolOps.
Local Open Scope prog_scope.

Definition capture_try (options : Screenshot.ScreenshotOptions)
                       (pg : handle) : Prog Buffer :=
  let viewport := Screenshot.viewport_of options in
  await (OpSetViewportSize pg (Screenshot.vp_width viewport)
                              (Screenshot.vp_height viewport)) ;;
  await (OpGoto pg (Screenshot.url options) (Some networkidle) (Some 30000)) ;;
  Screenshot.delay_step options pg ;;
  Screenshot.export_step options pg.

Definition capture (options : Screenshot.ScreenshotOptions) : Prog Buffer :=
  acq <- await_call acquirePage ;;
  try_finally
    (capture_try options (acquired_page acq))
    (catch_ignore (await (OpGoto (acquired_page acq) "about:blank" None None)) ;;
     await_call (release acq)).

End Draft.

(* ================================================================== *)
(** * The functions evaluated inside the page *)
(* ================================================================== *)

Module InPage.

(** ** The promise of [waitForImages]

    The page is seen through [document.images] (an image is known by its
    index there), the window size, and the [load] and [error] events the
    images fire while the promise is pending, in the order they are
    delivered; times are milliseconds since the function was called. *)

Record DOMRect : Type := mkRect { top : Z; bottom : Z; left : Z; right : Z }.
Record Image : Type := mkImage { rect : DOMRect; complete : bool }.
Record Window : Type := mkWindow { innerWidth : Z; innerHeight : Z }.

Inductive EventKind : Type := load_event | error_event.
Record ImageEvent : Type := mkEvent { at_ms : Z; target : nat; kind : EventKind }.

Definition document_images (images : list Image) : list (nat * Image) :=
  combine (seq 0 (List.length images)) images.

Definition in_viewport (win : Window) (img : Image) : bool :=
  (top (rect img) <? innerHeight win) &&
  (bottom (rect img) >? 0) &&
  (left (rect img) <? innerWidth win) &&
  (right (rect img) >? 0).

(** Filter to viewport-visible images if requested. *)
Definition targetImages (win : Window) (viewportOnly : bool)
                        (images : list (nat * Image)) : list (nat * Image) :=
  if viewportOnly
  then filter (fun i => in_viewport win (snd i)) images
  else images.

Definition unloadedImages (target : list (nat * Image)) : list (nat * Image) :=
  filter (fun i => negb (complete (snd i))) target.

(** The variables of the executor: the counter [loaded], whether the
    timeout is still set, and the time at which [resolve] was first
    called. *)
Record Waiter : Type := mkWaiter {
  loaded : nat;
  timeoutId : bool;
  resolved : option Z
}.

Definition resolve (t : Z) (st : Waiter) : Waiter :=
  match resolved st with
  | None => {| loaded := loaded st; timeoutId := timeoutId st;
               resolved := Some t |}
  | Some _ => st
  end.

Definition clearTimeout (st : Waiter) : Waiter :=
  {| loaded := loaded st; timeoutId := false; resolved := resolved st |}.

(** [checkDone], called at time [t], with [n = unloadedImages.length]. *)
Definition checkDone (n : nat) (t : Z) (st : Waiter) : Waiter :=
  let st' := {| loaded := S (loaded st); timeoutId := timeoutId st;
                resolved := resolved st |} in
  if (n <=? loaded st')%nat then resolve t (clearTimeout st') else st'.

(** [setTimeout(resolve, maxWait)] comes due. *)
Definition timer_fires (maxWait : Z) (st : Waiter) : Waiter :=
  if timeoutId st then resolve maxWait (clearTimeout st) else st.

(** The relevant images: those that carry the listeners. *)
Definition listened (relevant : list nat) (e : ImageEvent) : bool :=
  existsb (Nat.eqb (target e)) relevant.

(** An event is delivered: the timeout, if due by then, has fired; the
    event calls [checkDone] if its target carries the listeners. *)
Definition dispatch (maxWait : Z) (listeners : list nat) (e : ImageEvent)
                    (st : Waiter) : Waiter :=
  let st := if maxWait <=? at_ms e then timer_fires maxWait st else st in
  if listened listeners e
  then checkDone (List.length listeners) (at_ms e) st
  else st.

Definition listeners_of (win : Window) (viewportOnly : bool)
                        (images : list Image) : list nat :=
  map fst (unloadedImages (targetImages win viewportOnly (document_images images))).

Definition waitForImages_script (maxWait : Z) (viewportOnly : bool)
    (win : Window) (images : list Image) (events : list ImageEvent) : Waiter :=
  let st0 := {| loaded := 0; timeoutId := true; resolved := None |} in
  let listeners := listeners_of win viewportOnly images in
  if (List.length listeners =? 0)%nat then resolve 0 (clearTimeout st0)
  else
    timer_fires maxWait
      (fold_left (fun st e => dispatch maxWait listeners e st) events st0).

(** When the promise resolves. *)
Definition resolves_at (maxWait : Z) (viewportOnly : bool)
    (win : Window) (images : list Image) (events : list ImageEvent) : option Z :=
  resolved (waitForImages_script maxWait viewportOnly win images events).

(** *** The wording of the design document

    "Wait until every relevant image reports load-completion or
    load-error": image [i] has reported by time [t]; all the relevant
    pending images have. *)
Definition reported_by (events : list ImageEvent) (t : Z) (i : nat) : Prop :=
  exists e, In e events /\ target e = i /\ at_ms e <= t.

Definition all_reported_by (events : list ImageEvent) (relevant : list nat)
                           (t : Z) : Prop :=
  forall i, In i relevant -> reported_by events t i.

(** The events come in the order of their times. *)
Fixpoint in_time_order (events : list ImageEvent) : Prop :=
  match events with
  | [] => True
  | e :: rest =>
      (forall e', In e' rest -> at_ms e <= at_ms e') /\ in_time_order rest
  end.

(** No image fires more than one event while the promise is pending. *)
Definition report_once (events : list ImageEvent) : Prop :=
  NoDup (map target events).

(** What the executor amounts to, for [need] notifications still
    missing: the time of the [need]-th event on a relevant image, unless
    the timeout comes first. *)
Fixpoint settle_time (maxWait : Z) (relevant : list nat) (need : nat)
                     (events : list ImageEvent) : Z :=
  match events with
  | [] => maxWait
  | e :: rest =>
      if maxWait <=? at_ms e then maxWait
      else if listened relevant e then
        match need with
        | O | S O => at_ms e
        | S need' => settle_time maxWait relevant need' rest
        end
      else settle_time maxWait relevant need rest
  end.

(** ** The promise of [scrollToBottom] *)

Inductive ScrollCall : Type :=
| scrollBy (x y : Z)
| scrollTo (x y : Z).

Record Scroller : Type := mkScroller {
  totalHeight : Z;
  timer : bool;                 (* the interval is still set *)
  calls : list ScrollCall;      (* calls on [window], oldest first *)
  resolve_due : option Z        (* when [setTimeout(resolve, 200)] is due *)
}.

Definition distance : Z := 300.
Definition delay : Z := 100.

(** The callback of [setInterval], run at time [now] when
    [document.body.scrollHeight] reads [scrollHeight]. *)
Definition interval_callback (scrollHeight now : Z) (st : Scroller) : Scroller :=
  let st1 := {| totalHeight := totalHeight st + distance;
                timer := timer st;
                calls := calls st ++ [scrollBy 0 distance];
                resolve_due := resolve_due st |} in
  if totalHeight st1 >=? scrollHeight then
    {| totalHeight := totalHeight st1;
       timer := false;
       calls := calls st1 ++ [scrollTo 0 0];
       resolve_due := Some (now + 200) |}
  else st1.

(** The interval fires every [delay] ms for as long as it is set; the
    [k]-th time, the height of the page reads [scrollHeightAt k]. *)
Fixpoint run_interval (fuel k : nat) (scrollHeightAt : nat -> Z) (st : Scroller)
  : Scroller :=
  match fuel with
  | O => st
  | S fuel' =>
      if timer st
      then run_interval fuel' (S k) scrollHeightAt
             (interval_callback (scrollHeightAt k) (delay * Z.of_nat k) st)
      else st
  end.

Definition scrollToBottom_script (fuel : nat) (scrollHeightAt : nat -> Z)
  : Scroller :=
  run_interval fuel 1 scrollHeightAt
    {| totalHeight := 0; timer := true; calls := []; resolve_due := None |}.

End InPage.

(* ================================================================== *)
(** * [index.ts]: the response of [POST /batch] *)
(* ================================================================== *)

Module Index.
Import Async.

#[local] Unset Elimination Schemes.
Inductive Json : Type :=
| JNull
| JNum (n : Z)
| JStr (s : string)
| JArr (items : list Json)
| JObj (fields : list (string * Json)).
#[local] Set Elimination Schemes.

Fixpoint lookup (name : string) (fields : list (string * Json)) : option Json :=
  match fields with
  | [] => None
  | (k, v) :: rest => if String.eqb k name then Some v else lookup name rest
  end.

(** The member [name] of a JSON object. *)
Definition field (name : string) (j : Json) : option Json :=
  match j with
  | JObj fields => lookup name fields
  | _ => None
  end.

(** [Math.round]: the nearest integer, halves upwards.  The quotient is
    taken in the rationals; for the integers below 2^53 that
    [Date.now()] and [length] return, the double-precision quotient
    rounds to the same integer. *)
Definition Math_round (x : Q) : Z := Qfloor (Qplus x (Qmake 1 2)).

Definition type_name (t : OutputType) : string :=
  match t with
  | png => "png"
  | jpeg => "jpeg"
  | pdf => "pdf"
  end.

(** The body of the handler after [captureMany] has settled with
    [screenshots]; [startTime] and [now] are the two readings of
    [Date.now()], [toBase64] stands for [buffer.toString('base64')]. *)
Definition batch_response {X : Type} (toBase64 : X -> string)
    (startTime now : Z) (urls : list string) (globalType : option OutputType)
    (screenshots : list X) : Json :=
  let duration := now - startTime in
  let results :=
    Screenshot.map_index
      (fun buffer index =>
         JObj ((match nth_error urls index with
                | Some u => [("url", JStr u)]
                | None => []
                end) ++
               [("image", JStr (toBase64 buffer));
                ("type", JStr (type_name (Screenshot.nullish_or globalType png)))]))
      0%nat screenshots in
  JObj [("count", JNum (Z.of_nat (List.length results)));
        ("durationMs", JNum duration);
        ("avgMs",
         match List.length results with
         | O => JNull
         | S _ =>
             JNum (Math_round
                     (Qmake duration (Pos.of_nat (List.length results))))
         end);
        ("results", JArr results)].

End Index.

(* ================================================================== *)
(** * What Playwright promises about [page.goto] *)
(* ================================================================== *)

Module Playwright.
Import Async.

(** How a navigation goes: after how many milliseconds each lifecycle
    state is reached, if ever. *)
Record Navigation : Type := mkNavigation {
  reaches : WaitUntil -> option Z
}.

Definition TimeoutError : Thrown := Error "page.goto: Timeout exceeded.".

(** [page.goto(url, { waitUntil, timeout })] resolves when the state
    [waitUntil] (default [load]) is reached, and throws once [timeout]
    milliseconds (default 30000, and positive) have passed without. *)
Definition goto (nav : Navigation) (waitUntil : option WaitUntil)
                (timeout : option Z) : Outcome Val * N :=
  let state := Screenshot.nullish_or waitUntil load in
  let limit := Screenshot.nullish_or timeout 30000 in
  match reaches nav state with
  | Some t =>
      if t <=? limit then (Fulfilled VUnit, Z.to_N t)
      else (Rejected TimeoutError, Z.to_N limit)
  | None => (Rejected TimeoutError, Z.to_N limit)
  end.

(** The environment [env] settles the navigations to [url] as
    Playwright does when the page loads as [nav] says. *)
Definition navigates (env : Oracle) (url : string) (nav : Navigation) : Prop :=
  forall n pg waitUntil timeout,
    env n (OpGoto pg url waitUntil timeout) = goto nav waitUntil timeout.

End Playwright.

(* ================================================================== *)
(** * [index.ts]: who may call the service *)
(* ================================================================== *)

Module Server.

(** ** [authMiddleware] of [index.ts] *)





End Server.

(* ================================================================== *)
(** * Sample pools, options and environments *)
(* ================================================================== *)

Module Examples.
Import Pool Async PoolOps Screenshot.

Definition a_page (busy : bool) (created : Z) : PooledPage :=
  {| page := 11%nat; context := 10%nat; inUse := busy; createdAt := created |}.

(** A pool of capacity one, its page created at time [created]. *)
Definition one_page_pool (busy : bool) (created : Z) : BrowserPool :=
  {| browser := Some 1%nat;
     pages := [0%nat];
     poolSize := 1;
     maxPageAge := 5 * 60 * 1000;
     store := [a_page busy created] |}.

Definition world_at (pool : BrowserPool) (now : Z) : World :=
  {| w_pool := pool; w_now := now; w_trace := [];
     w_errors := []; w_detached := [] |}.

Definition png_bytes : Buffer := [Byte.x89; Byte.x50; Byte.x4e; Byte.x47].
Definition pdf_bytes : Buffer := [Byte.x25; Byte.x50; Byte.x44; Byte.x46].

Definition options_for (u : string) : ScreenshotOptions :=
  mkOptions u None None None None None None None None.

(** Everything succeeds. *)
Definition calm : Oracle :=
  fun _ op =>
    match op with
    | OpNewContext _ _ _ _ => (Fulfilled (VHandle 20%nat), 5%N)
    | OpNewPage _ => (Fulfilled (VHandle 21%nat), 5%N)
    | OpScreenshot _ _ _ _ => (Fulfilled (VBuffer png_bytes), 40%N)
    | OpPdf _ _ _ => (Fulfilled (VBuffer pdf_bytes), 60%N)
    | OpGoto _ _ _ _ => (Fulfilled VUnit, 300%N)
    | _ => (Fulfilled VUnit, 1%N)
    end.

(** The target never loads, and the clean-up operations fail too. *)
Definition hostile : Oracle :=
  fun n op =>
    match op with
    | OpGoto _ _ (Some _) _ => (Rejected Playwright.TimeoutError, 30000%N)
    | OpGoto _ _ None _ => (Rejected (Error "net::ERR_ABORTED"), 1%N)
    | OpUnrouteAll _ _ => (Rejected (Error "Target closed"), 1%N)
    | _ => calm n op
    end.

Definition idle_world : World := world_at (one_page_pool false 0) 1000.

Definition the_acquired : Acquired :=
  {| acquired_page := 11%nat; release := release_of 0%nat |}.

(** The only page of the pool is busy. *)
Definition busy_world : World := world_at (one_page_pool true 0) 1000.

(** The page is more than five minutes old. *)
Definition aged_world : World := world_at (one_page_pool true 0) 400000.

Definition busy_system : System Acquired := mkSystem busy_world [].

(** One caller, left alone: no page is free, the timer runs out, the
    browser gives a context (20) and a page (21). *)
Definition overflow_schedule : list (Action Acquired) :=
  [ Request [acquirePage];
    Elapse 100;
    Resume 0 (Fulfilled VUnit);
    Resume 0 (Fulfilled (VHandle 20%nat));
    Resume 0 (Fulfilled (VHandle 21%nat));
    Resume 0 (Fulfilled VUnit) ].

(** Two callers, the second of which would call [acquirePage] after
    the first one's [createPooledPage] has returned and before the first
    one is resumed: not a run of the event loop. *)
Definition race_schedule : list (Action Acquired) :=
  [ Request [acquirePage];
    Elapse 100;
    Resume 0 (Fulfilled VUnit);
    Resume 0 (Fulfilled (VHandle 20%nat));
    Resume 0 (Fulfilled (VHandle 21%nat));
    Request [acquirePage];
    Resume 0 (Fulfilled VUnit) ].

(** A pool with two free pages, and a batch of two: the first URL
    loads, the second does not resolve. *)
Definition two_page_world : World :=
  world_at
    {| browser := Some 1%nat;
       pages := [0%nat; 1%nat];
       poolSize := 2;
       maxPageAge := 5 * 60 * 1000;
       store := [ {| page := 11%nat; context := 10%nat;
                     inUse := false; createdAt := 0 |};
                  {| page := 13%nat; context := 12%nat;
                     inUse := false; createdAt := 0 |} ] |}
    1000.

Definition batch : list ScreenshotOptions :=
  [ options_for "https://example.com";
    options_for "https://invalid-url.test" ].

Definition done : Outcome Val := Fulfilled VUnit.

Definition batch_schedule : list (Action Buffer) :=
  [ Resume 0 done; Resume 1 done;   (* back from acquirePage *)
    Resume 0 done; Resume 1 done;   (* page.route *)
    Resume 0 done; Resume 1 done;   (* page.setViewportSize *)
    Resume 1 (Rejected (Error "net::ERR_NAME_NOT_RESOLVED"));
                                    (* page.goto of the second *)
    Resume 0 done;                  (* page.goto of the first *)
    Resume 1 done;                  (* page.unrouteAll *)
    Resume 0 done;                  (* page.evaluate *)
    Resume 0 done;                  (* back from waitForImages *)
    Resume 1 done;                  (* page.goto about:blank *)
    Resume 1 done;                  (* back from release *)
    Resume 0 (Fulfilled (VBuffer png_bytes));
                                    (* page.screenshot *)
    Resume 0 done;                  (* page.unrouteAll *)
    Resume 0 done;                  (* page.goto about:blank *)
    Resume 0 done ].                (* back from release *)

(** The two captures of the batch, called in one job and resumed from
    [acquirePage]. *)
Definition sharing_schedule : list (Action Buffer) :=
  [ Request (map capture batch); Resume 0 done; Resume 1 done ].

(** A page whose height is 500 px until the first scroll makes it grow
    to 1000 px. *)
Definition growing_page (k : nat) : Z :=
  if (k <=? 1)%nat then 500 else 1000.

(** A window of 1280 x 720 with three images: one in view and loaded,
    one in view and loading, one far below and loading. *)
Definition a_window : InPage.Window := InPage.mkWindow 1280 720.

Definition three_images : list InPage.Image :=
  [ InPage.mkImage (InPage.mkRect 0 100 0 100) true;
    InPage.mkImage (InPage.mkRect 200 300 0 100) false;
    InPage.mkImage (InPage.mkRect 5000 5100 0 100) false ].

(** The image in view loads after 40 ms; the one below never does. *)
Definition one_load : list InPage.ImageEvent :=
  [ InPage.mkEvent 40 1 InPage.load_event ].

(** Two images in view, both loading; the first one fires [load]
    twice, the second one nothing. *)
Definition two_pending_images : list InPage.Image :=
  [ InPage.mkImage (InPage.mkRect 0 100 0 100) false;
    InPage.mkImage (InPage.mkRect 200 300 0 100) false ].

Definition double_load : list InPage.ImageEvent :=
  [ InPage.mkEvent 10 0 InPage.load_event;
    InPage.mkEvent 20 0 InPage.load_event ].

(** The document is parsed after 800 ms; the network never goes idle. *)
Definition busy_site : Playwright.Navigation :=
  Playwright.mkNavigation
    (fun state =>
       match state with
       | commit => Some 200
       | domcontentloaded => Some 800
       | load => Some 45000
       | networkidle => None
       end).

(** An environment in which navigations go as [busy_site] says. *)
Definition busy_site_env : Oracle :=
  fun n op =>
    match op with
    | OpGoto _ _ waitUntil timeout => Playwright.goto busy_site waitUntil timeout
    | _ => calm n op
    end.

End Examples.
(* ================================================================== *)
(** * Captures sharing the pool: what is observed, and the protocol *)
(* ================================================================== *)

Module Exclusion.
Import Pool Async PoolOps Screenshot.
Local Open Scope prog_scope.

(** ** What is observed of a system of captures *)

(** The page an operation works on, for the operations of a page. *)
Definition page_of_op (op : ExtOp) : option handle :=
  match op with
  | OpRoute pg _ => Some pg
  | OpSetViewportSize pg _ _ => Some pg
  | OpGoto pg _ _ _ => Some pg
  | OpEvaluate pg _ => Some pg
  | OpWaitForTimeout pg _ => Some pg
  | OpPdf pg _ _ => Some pg
  | OpScreenshot pg _ _ _ => Some pg
  | OpUnrouteAll pg _ => Some pg
  | OpTimer _ | OpNewContext _ _ _ _ | OpNewPage _ | OpCloseContext _
  | OpTick => None
  end.

(** The page a suspended task is working on. *)
Definition operating_on {A : Type} (t : Z * Paused A) : option handle :=
  match snd t with
  | Waiting op _ => page_of_op op
  | Settled _ => None
  end.

Definition is_capture (p : Prog Buffer) : Prop :=
  exists options, p = capture options.

(** The callers call nothing but [capture]. *)
Fixpoint only_captures (schedule : list (Action Buffer)) : Prop :=
  match schedule with
  | [] => True
  | Request ps :: rest => Forall is_capture ps /\ only_captures rest
  | _ :: rest => only_captures rest
  end.

(** The array of the pool refers to objects that exist. *)
Definition pool_ok (pool : BrowserPool) : Prop :=
  forall r, In r (pages pool) -> (r < List.length (store pool))%nat.

(** The browser has given every pooled page a page of its own. *)
Definition distinct_pages (pool : BrowserPool) : Prop :=
  forall r r',
    (r < List.length (store pool))%nat ->
    (r' < List.length (store pool))%nat ->
    page (deref pool r) = page (deref pool r') ->
    r = r'.

(** ** Where a capture stands with respect to the pool

    [Idle]: it has no pooled page (not yet, or not any more).
    [Reserving r]: [createPooledPage] has pushed [r] for it, free, and
    [acquirePage] is about to resume.  [Holding r pg]: [acquirePage] has
    marked [r], whose page is [pg], and [release] has not been called. *)
Inductive Status : Type :=
| Idle
| Reserving (r : ref)
| Holding (r : ref) (pg : handle).

Definition ref_of (st : Status) : option ref :=
  match st with
  | Idle => None
  | Reserving r => Some r
  | Holding r _ => Some r
  end.

(** ** What a job does to the shared state *)

Definition same_state (w w' : World) : Prop :=
  w_pool w' = w_pool w /\ w_detached w' = w_detached w.

(** [pooledPage.inUse = true] *)
Definition claims (r : ref) (w w' : World) : Prop :=
  w_pool w' = set_inUse r true (w_pool w) /\ w_detached w' = w_detached w.

(** [this.pages.push(pooledPage)] *)
Definition pushes (w w' : World) : Prop :=
  (exists o, w_pool w' = snd (push_new o (w_pool w))) /\
  w_detached w' = w_detached w.

(** The job in which [release] is called: the page is marked free, and
    may leave the array. *)
Definition releases (r : ref) (w w' : World) : Prop :=
  store (w_pool w') = store (set_inUse r false (w_pool w)) /\
  incl (pages (w_pool w')) (pages (w_pool w)) /\
  w_detached w' = w_detached w.

Definition world_after {A : Type} (k : Outcome Val -> Prog A)
                       (o : Outcome Val) (w : World) : World :=
  fst (run_sync (k o) w).

Definition task_after {A : Type} (k : Outcome Val -> Prog A)
                      (o : Outcome Val) (w : World) : Paused A :=
  snd (run_sync (k o) w).

#[local] Unset Elimination Schemes.

(** A detached task ([createPooledPage().catch(console.error)]) leaves
    the pool as it is or pushes a page, job after job. *)
Inductive Detached : Paused unit -> Prop :=
| detached_settled (o : Outcome unit) : Detached (Settled o)
| detached_waiting (op : ExtOp) (k : Outcome Val -> Prog unit) :
    (forall o w,
        (same_state w (world_after k o w) \/ pushes w (world_after k o w)) /\
        Detached (task_after k o w)) ->
    Detached (Waiting op k).

(** A job that leaves the pool alone; it may start a detached task. *)
Definition quiet (w w' : World) : Prop :=
  w_pool w' = w_pool w /\
  (w_detached w' = w_detached w \/
   exists z d, w_detached w' = w_detached w ++ [(z, d)] /\ Detached d).

(** The protocol of a capture: what a suspended capture waits for in
    each status, and what its next job does to the pool.

    - Without a page it waits for nothing of a page.  Resumed, it leaves
      the pool alone; or, in a job that is not a promise job, it marks
      the page its scan finds free; or it pushes a new page.
    - With a page pushed for it, it waits for the promise job in which
      it marks that page.
    - Holding a page, it waits for operations of that page (or for a
      promise job) until the job in which it calls [release]. *)
Inductive Stage : Status -> Paused Buffer -> Prop :=
| stage_settled (o : Outcome Buffer) : Stage Idle (Settled o)
| stage_idle (op : ExtOp) (k : Outcome Val -> Prog Buffer) :
    page_of_op op = None ->
    (forall o w,
        (quiet w (world_after k o w) /\ Stage Idle (task_after k o w)) \/
        (is_tick op = false /\
         exists r,
           find_free (w_pool w) = Some r /\
           claims r w (world_after k o w) /\
           Stage (Holding r (page (deref (w_pool (world_after k o w)) r)))
                 (task_after k o w)) \/
        (pushes w (world_after k o w) /\
         Stage (Reserving (List.length (store (w_pool w)))) (task_after k o w))) ->
    Stage Idle (Waiting op k)
| stage_reserving (r : ref) (k : Outcome Val -> Prog Buffer) :
    (forall o w,
        claims r w (world_after k o w) /\
        Stage (Holding r (page (deref (w_pool (world_after k o w)) r)))
              (task_after k o w)) ->
    Stage (Reserving r) (Waiting OpTick k)
| stage_holding (r : ref) (pg : handle) (op : ExtOp)
                (k : Outcome Val -> Prog Buffer) :
    page_of_op op = Some pg \/ op = OpTick ->
    (forall o w,
        (same_state w (world_after k o w) /\
         Stage (Holding r pg) (task_after k o w)) \/
        (releases r w (world_after k o w) /\
         Stage Idle (task_after k o w))) ->
    Stage (Holding r pg) (Waiting op k).

#[local] Set Elimination Schemes.

(** A program that touches nothing but the page [pg]. *)
Inductive PageProg (pg : handle) {A : Type} : Prog A -> Prop :=
| page_ret (a : A) : PageProg pg (Ret a)
| page_throw (e : Thrown) : PageProg pg (Throw e)
| page_await (op : ExtOp) (k : Outcome Val -> Prog A) :
    page_of_op op = Some pg \/ op = OpTick ->
    (forall o, PageProg pg (k o)) ->
    PageProg pg (Await op k).

(** The pooled page a status claims exists, and is marked if held. *)
Definition status_ok (pool : BrowserPool) (st : Status) : Prop :=
  match st with
  | Idle => True
  | Reserving r => (r < List.length (store pool))%nat
  | Holding r pg =>
      (r < List.length (store pool))%nat /\
      inUse (deref pool r) = true /\
      page (deref pool r) = pg
  end.

(** The invariant of a system of captures: every task is at a stage of
    the protocol, and no pooled page is claimed by two of them. *)
Record Inv (w : World) (tasks : list (Z * Paused Buffer))
           (sts : list Status) : Prop := mkInv {
  inv_pool : pool_ok (w_pool w);
  inv_detached : Forall (fun d => Detached (snd d)) (w_detached w);
  inv_stage : Forall2 (fun t st => Stage st (snd t)) tasks sts;
  inv_status : forall i st, nth_error sts i = Some st -> status_ok (w_pool w) st;
  inv_distinct :
    forall i j sti stj r,
      nth_error sts i = Some sti -> nth_error sts j = Some stj ->
      ref_of sti = Some r -> ref_of stj = Some r -> i = j
}.

(** The pool keeps what the statuses rely on: the objects, their pages,
    and the marks of the pages in [keep]. *)
Definition extends (keep : ref -> Prop) (pool pool' : BrowserPool) : Prop :=
  (List.length (store pool) <= List.length (store pool'))%nat /\
  forall r,
    (r < List.length (store pool))%nat ->
    page (deref pool' r) = page (deref pool r) /\
    (keep r -> inUse (deref pool r) = true -> inUse (deref pool' r) = true).

Definition no_reserving (sts : list Status) : Prop :=
  forall i r, nth_error sts i <> Some (Reserving r).

End Exclusion.
Module BlocklistFacts.
Import Blocklist.

Ltac all_chars c :=
  destruct c as [[|] [|] [|] [|] [|] [|] [|] [|]]; vm_compute;
  try discriminate; repeat split; try reflexivity; try discriminate.

Lemma escaped_char_facts (c : ascii) :
  in_class escaped_class c = true ->
  Ascii.eqb c star = false /\ in_class syntax_chars c = true.
Proof. all_chars c. Qed.

Lemma plain_char_facts (c : ascii) :
  in_class escaped_class c = false ->
  Ascii.eqb c star = false ->
  Ascii.eqb c backslash = false /\ Ascii.eqb c dot = false /\
  Ascii.eqb c caret = false /\ Ascii.eqb c dollar = false /\
  in_class syntax_chars c = false.
Proof. all_chars c. Qed.

Lemma tokenize_glob (p tail : string) :
  tokenize (replace_stars (escape_specials p) ++ tail)
  = option_map (app (glob_tokens p)) (tokenize tail).
Proof.
  induction p as [|c p IH]; cbn [escape_specials replace_stars glob_tokens].
  - simpl. destruct (tokenize tail); reflexivity.
  - destruct (in_class escaped_class c) eqn:Hesc.
    + destruct (escaped_char_facts c Hesc) as [Hstar Hsyn].
      cbn [replace_stars]. change (Ascii.eqb backslash star) with false.
      cbv iota. rewrite Hstar. cbn [String.append tokenize].
      change (Ascii.eqb backslash backslash) with true. cbv iota.
      rewrite Hsyn, IH. destruct (tokenize tail); reflexivity.
    + destruct (Ascii.eqb c star) eqn:Hstar.
      * apply Ascii.eqb_eq in Hstar. subst c.
        cbn [replace_stars]. change (Ascii.eqb star star) with true.
        cbv iota. cbn [String.append].
        change (tokenize (String dot (String star
                  (replace_stars (escape_specials p) ++ tail))))
          with (option_map (cons TokDot) (option_map (cons TokStar)
                  (tokenize (replace_stars (escape_specials p) ++ tail)))).
        rewrite IH. destruct (tokenize tail); reflexivity.
      * destruct (plain_char_facts c Hesc Hstar) as (Hb & Hd & Hc & He & Hs).
        cbn [replace_stars]. rewrite Hstar. cbn [String.append tokenize].
        rewrite Hb, Hd, Hstar, Hc, He, Hs, IH.
        destruct (tokenize tail); reflexivity.
Qed.

Lemma build_glob (p : string) :
  build (glob_tokens p ++ [TokEol]) = Some (glob_terms p ++ [TEol]).
Proof.
  induction p as [|c p IH]; [reflexivity|].
  cbn [glob_tokens glob_terms]. destruct (Ascii.eqb c star).
  - cbn [app build]. rewrite IH. reflexivity.
  - cbn [app]. destruct p as [|d p].
    + reflexivity.
    + cbn [glob_tokens app] in *. destruct (Ascii.eqb d star);
        cbn [app build] in *; rewrite IH; reflexivity.
Qed.

Lemma globToRegex_compiles (p : string) :
  globToRegex p = Some (mkRegExp (TBol :: glob_terms p ++ [TEol]) true).
Proof.
  unfold globToRegex, new_RegExp.
  cbn [tokenize]. change (Ascii.eqb caret backslash) with false.
  change (Ascii.eqb caret dot) with false.
  change (Ascii.eqb caret star) with false.
  change (Ascii.eqb caret caret) with true. cbv iota.
  rewrite tokenize_glob. cbn [tokenize option_map].
  change (Ascii.eqb dollar backslash) with false.
  change (Ascii.eqb dollar dot) with false.
  change (Ascii.eqb dollar star) with false.
  change (Ascii.eqb dollar caret) with false.
  change (Ascii.eqb dollar dollar) with true. cbv iota.
  cbn [tokenize option_map build]. rewrite build_glob. reflexivity.
Qed.

Lemma match_here_star (ic : bool) (a : atom) (r : regex) (b : bool) (s : string) :
  match_here ic (TStar a :: r) b s
  = (match_here ic r b s ||
     match s with
     | EmptyString => false
     | String c s' => atom_matches ic a c && match_here ic (TStar a :: r) false s'
     end)%bool.
Proof. destruct s; reflexivity. Qed.

Lemma search_anchored_later (ic : bool) (r : regex) (s : string) :
  search ic (TBol :: r) false s = false.
Proof. induction s as [|c s IH]; simpl; [reflexivity|exact IH]. Qed.

Lemma search_anchored (ic : bool) (r : regex) (s : string) :
  search ic (TBol :: r) true s = match_here ic r true s.
Proof.
  destruct s as [|c s]; cbn [search match_here andb].
  - apply orb_false_r.
  - rewrite search_anchored_later. apply orb_false_r.
Qed.

Lemma no_line_terminator_app (run u : string) :
  no_line_terminator (run ++ u)%string = true ->
  no_line_terminator run = true /\ no_line_terminator u = true.
Proof.
  induction run as [|c run IH]; simpl; [auto|].
  intros H. apply andb_true_iff in H as [Hc H].
  destruct (IH H) as [H1 H2]. rewrite Hc, H1. auto.
Qed.

Lemma star_run (r : regex) (b : bool) (run u : string) :
  no_line_terminator run = true ->
  (forall b', match_here true r b' u = true) ->
  match_here true (TStar ADot :: r) b (run ++ u)%string = true.
Proof.
  revert b. induction run as [|c run IH]; intros b Hrun Hu.
  - simpl String.append. rewrite match_here_star, Hu. reflexivity.
  - simpl in Hrun. apply andb_true_iff in Hrun as [Hc Hrun].
    simpl String.append. rewrite match_here_star.
    cbn [atom_matches]. rewrite Hc, (IH false Hrun Hu).
    apply orb_true_r.
Qed.

Lemma star_split (r : regex) (s : string) (b : bool) :
  match_here true (TStar ADot :: r) b s = true ->
  exists run u b', s = (run ++ u)%string /\ match_here true r b' u = true.
Proof.
  revert b. induction s as [|c s IH]; intros b H;
    rewrite match_here_star in H; apply orb_true_iff in H as [H|H].
  - exists EmptyString, EmptyString, b. auto.
  - discriminate.
  - exists EmptyString, (String c s), b. auto.
  - apply andb_true_iff in H as [_ H].
    destruct (IH _ H) as (run & u & b' & -> & Hu).
    exists (String c run), u, b'. auto.
Qed.

Lemma glob_terms_match (p : string) :
  forall (s : string) (b : bool),
    no_line_terminator s = true ->
    (match_here true (glob_terms p ++ [TEol]) b s = true <-> glob_matches p s).
Proof.
  induction p as [|c p IH]; intros s b Hs.
  - cbn [glob_terms app match_here]. destruct s; split; intros H.
    + constructor.
    + reflexivity.
    + discriminate.
    + inversion H.
  - cbn [glob_terms app]. destruct (Ascii.eqb c star) eqn:Hc.
    + apply Ascii.eqb_eq in Hc. subst c. split; intros H.
      * apply star_split in H as (run & u & b' & -> & Hu).
        apply no_line_terminator_app in Hs as [_ Hu'].
        apply glob_star. apply (IH u b' Hu'). exact Hu.
      * inversion H as [|run p' u Hm|c d p' u Hne]; subst.
        -- apply no_line_terminator_app in Hs as [Hrun Hu].
           apply star_run; [exact Hrun|].
           intros b'. apply (IH u b' Hu). exact Hm.
        -- congruence.
    + apply Ascii.eqb_neq in Hc. cbn [match_here].
      destruct s as [|d s].
      * split; [discriminate|]. intros H. inversion H; subst. congruence.
      * simpl in Hs. apply andb_true_iff in Hs as [_ Hs].
        cbn [atom_matches]. split; intros H.
        -- apply andb_true_iff in H as [Hcd H].
           apply Ascii.eqb_eq in Hcd.
           apply glob_char; [exact Hc|exact Hcd|].
           apply (IH s false Hs). exact H.
        -- inversion H as [|run p' u Hm Hp Hu|c' d' p' u Hne Hcd Hm]; subst.
           ++ congruence.
           ++ apply andb_true_iff. split.
              ** apply Ascii.eqb_eq. exact Hcd.
              ** apply (IH s false Hs). exact Hm.
Qed.

Lemma test_globToRegex (p url : string) (re : RegExp) :
  no_line_terminator url = true ->
  globToRegex p = Some re ->
  (test re url = true <-> glob_matches p url).
Proof.
  intros Hurl Hre. rewrite globToRegex_compiles in Hre.
  injection Hre as <-. unfold test. cbn [ignoreCase re_terms].
  rewrite search_anchored. apply glob_terms_match. exact Hurl.
Qed.

Lemma map_throwing_total {A B : Type} (f : A -> option B) (g : A -> B) (l : list A) :
  (forall a, f a = Some (g a)) ->
  map_throwing f l = Some (map g l).
Proof.
  intros Hf. induction l as [|a l IH]; simpl; [reflexivity|].
  rewrite Hf, IH. reflexivity.
Qed.

(** C10.  For a URL without a line terminator [shouldBlockUrl] answers
    (no pattern fails to compile), and it answers [true] exactly when
    some pattern of the list matches the whole URL as a glob: [*] stands
    for any run of characters, every other character for itself, letter
    case ignored.  The script of the tag manager is blocked; a plain
    image is not. *)
Theorem shouldBlock_is_anchored_glob (url : string) :
  no_line_terminator url = true ->
  (exists b : bool,
      shouldBlockUrl url = Some b /\
      (b = true <->
       exists p, In p BLOCKED_PATTERNS /\ glob_matches p url))
  /\ shouldBlockUrl "https://www.googletagmanager.com/gtm.js" = Some true
  /\ shouldBlockUrl "https://example.com/logo.png" = Some false.
Proof.
  intros Hurl. split; [|split; vm_compute; reflexivity].
  unfold shouldBlockUrl, BLOCKED_REGEXES.
  rewrite (map_throwing_total _ _ _ globToRegex_compiles).
  cbn [option_map]. eexists. split; [reflexivity|].
  rewrite existsb_exists. split.
  - intros (re & Hin & Ht). apply in_map_iff in Hin as (p & <- & Hp).
    exists p. split; [exact Hp|].
    apply (test_globToRegex p url _ Hurl (globToRegex_compiles p)). exact Ht.
  - intros (p & Hp & Hm). eexists. split.
    + apply in_map. exact Hp.
    + apply (test_globToRegex p url _ Hurl (globToRegex_compiles p)). exact Hm.
Qed.

Lemma shouldBlock_is_anchored_glob_witness :
  no_line_terminator "https://www.googletagmanager.com/gtm.js" = true /\
  ((exists b : bool,
      shouldBlockUrl "https://www.googletagmanager.com/gtm.js" = Some b /\
      (b = true <->
       exists p, In p BLOCKED_PATTERNS /\
                 glob_matches p "https://www.googletagmanager.com/gtm.js"))
  /\ shouldBlockUrl "https://www.googletagmanager.com/gtm.js" = Some true
  /\ shouldBlockUrl "https://example.com/logo.png" = Some false).
Proof.
  split; [reflexivity|].
  apply (shouldBlock_is_anchored_glob "https://www.googletagmanager.com/gtm.js").
  reflexivity.
Defined.
End BlocklistFacts.

(* ================================================================== *)
(** * Running programs: equations *)
(* ================================================================== *)

Module AsyncFacts.
Import Pool Async.
Local Open Scope prog_scope.

Lemma exec_bind {A B : Type} (p : Prog A) (f : A -> Prog B) (env : Oracle) :
  forall w,
    exec (bind p f) env w =
    let (w1, o) := exec p env w in
    match o with
    | Fulfilled a => exec (f a) env w1
    | Rejected e => (w1, Rejected e)
    end.
Proof.
  revert B f.
  induction p as [A a|A e|A k IH|A s k IH|A k IH|A e k IH|A op k IH|A p' IHp k IH];
    intros B f w; cbn [bind exec].
  - reflexivity.
  - reflexivity.
  - apply IH.
  - apply IH.
  - apply IH.
  - apply IH.
  - destruct (answer env w op) as [o dt]. apply IH.
  - destruct (run_sync p' w) as [w1 t]. apply IH.
Qed.

Lemma exec_attempt {A : Type} (p : Prog A) (env : Oracle) :
  forall w,
    exec (attempt p) env w =
    let (w1, o) := exec p env w in (w1, Fulfilled o).
Proof.
  induction p as [A a|A e|A k IH|A s k IH|A k IH|A e k IH|A op k IH|A p' IHp k IH];
    intros w; cbn [attempt exec]; try reflexivity; try apply IH.
  - destruct (answer env w op) as [o dt]. apply IH.
  - destruct (run_sync p' w) as [w1 t]. apply IH.
Qed.

Lemma exec_settle {A : Type} (o : Outcome A) (env : Oracle) (w : World) :
  exec (settle o) env w = (w, o).
Proof. destruct o; reflexivity. Qed.

Lemma tick_world (w : World) : elapse 0 (started OpTick w) = w.
Proof.
  destruct w. unfold elapse, started. cbn. f_equal. apply Z.add_0_r.
Qed.

(** Awaiting an async function of the program: for a task that runs
    alone, the later job changes nothing. *)
Lemma exec_await_call {A : Type} (p : Prog A) (env : Oracle) (w : World) :
  exec (await_call p) env w = exec p env w.
Proof.
  unfold await_call. rewrite exec_bind, exec_attempt.
  destruct (exec p env w) as [w1 o]. cbn [exec answer is_tick].
  rewrite tick_world. apply exec_settle.
Qed.

Lemma exec_await (op : ExtOp) (env : Oracle) (w : World) :
  exec (await op) env w =
  let (o, dt) := answer env w op in (elapse dt (started op w), o).
Proof.
  unfold await. cbn [exec]. destruct (answer env w op) as [o dt].
  apply exec_settle.
Qed.

(** [promise.catch(() => {})] never rejects. *)
Lemma exec_catch_ignore {A : Type} (p : Prog A) (env : Oracle) (w : World) :
  exec (catch_ignore p) env w = (fst (exec p env w), Fulfilled tt).
Proof.
  unfold catch_ignore, catch. rewrite exec_bind, exec_attempt, exec_bind.
  destruct (exec p env w) as [w1 [a|e]]; reflexivity.
Qed.

(** [try]/[finally]: the outcome of the body survives a cleanup that
    does not throw. *)
Lemma exec_try_finally {A : Type} (body : Prog A) (cleanup : Prog unit)
      (env : Oracle) (w : World) :
  exec (try_finally body cleanup) env w =
  let (w1, o) := exec body env w in
  let (w2, c) := exec cleanup env w1 in
  match c with
  | Fulfilled _ => (w2, o)
  | Rejected e => (w2, Rejected e)
  end.
Proof.
  unfold try_finally. rewrite exec_bind, exec_attempt.
  destruct (exec body env w) as [w1 o]. rewrite exec_bind.
  destruct (exec cleanup env w1) as [w2 [[]|e]]; [apply exec_settle|reflexivity].
Qed.

Lemma run_sync_bind {A B : Type} (p : Prog A) (f : A -> Prog B) :
  forall w,
    run_sync (bind p f) w =
    let (w1, t) := run_sync p w in
    match t with
    | Settled (Fulfilled a) => run_sync (f a) w1
    | Settled (Rejected e) => (w1, Settled (Rejected e))
    | Waiting op k => (w1, Waiting op (fun o => bind (k o) f))
    end.
Proof.
  revert B f.
  induction p as [A a|A e|A k IH|A s k IH|A k IH|A e k IH|A op k IH|A p' IHp k IH];
    intros B f w; cbn [bind run_sync]; try reflexivity; try apply IH.
  destruct (run_sync p' w) as [w1 t]. apply IH.
Qed.

(** The trace only grows. *)
Lemma run_sync_trace {A : Type} (p : Prog A) :
  forall w, exists rest, w_trace (fst (run_sync p w)) = w_trace w ++ rest.
Proof.
  induction p as [A a|A e|A k IH|A s k IH|A k IH|A e k IH|A op k IH|A p' IHp k IH];
    intros w; cbn [run_sync fst].
  - exists []. symmetry. apply app_nil_r.
  - exists []. symmetry. apply app_nil_r.
  - apply IH.
  - apply (IH (with_pool s w)).
  - apply IH.
  - apply (IH (with_error e w)).
  - unfold started. cbn [w_trace]. destruct (is_tick op).
    + exists []. symmetry. apply app_nil_r.
    + exists [op]. reflexivity.
  - destruct (IHp w) as [r1 H1]. destruct (run_sync p' w) as [w1 t].
    cbn [fst] in H1. destruct (IH (with_detached t w1)) as [r2 H2].
    exists (r1 ++ r2). rewrite H2. cbn [with_detached w_trace].
    rewrite H1. symmetry. apply app_assoc.
Qed.

Lemma exec_trace {A : Type} (p : Prog A) (env : Oracle) :
  forall w, exists rest, w_trace (fst (exec p env w)) = w_trace w ++ rest.
Proof.
  induction p as [A a|A e|A k IH|A s k IH|A k IH|A e k IH|A op k IH|A p' IHp k IH];
    intros w; cbn [exec fst].
  - exists []. symmetry. apply app_nil_r.
  - exists []. symmetry. apply app_nil_r.
  - apply IH.
  - apply (IH (with_pool s w)).
  - apply IH.
  - apply (IH (with_error e w)).
  - destruct (answer env w op) as [o dt].
    destruct (IH o (elapse dt (started op w))) as [r H].
    rewrite H. unfold started. cbn [elapse w_trace]. destruct (is_tick op).
    + exists r. reflexivity.
    + exists (op :: r). rewrite <- app_assoc. reflexivity.
  - destruct (run_sync_trace p' w) as [r1 H1].
    destruct (run_sync p' w) as [w1 t]. cbn [fst] in H1.
    destruct (IH (with_detached t w1)) as [r2 H2].
    exists (r1 ++ r2). rewrite H2. cbn [with_detached w_trace].
    rewrite H1. symmetry. apply app_assoc.
Qed.

End AsyncFacts.

(* ================================================================== *)
(** * The pool *)
(* ================================================================== *)

Module PoolFacts.
Import Pool Async PoolOps AsyncFacts.
Local Open Scope prog_scope.

(** ** The store *)

Lemma nth_write_at_same {A : Type} (l : list A) (i : nat) (x d : A) :
  (i < List.length l)%nat -> nth i (write_at l i x) d = x.
Proof.
  revert i. induction l as [|y l IH]; intros [|i] H; simpl in *; try lia.
  - reflexivity.
  - apply IH. lia.
Qed.

Lemma nth_write_at_other {A : Type} (l : list A) (i j : nat) (x d : A) :
  i <> j -> nth j (write_at l i x) d = nth j l d.
Proof.
  revert i j. induction l as [|y l IH]; intros [|i] [|j] H; simpl;
    try reflexivity; try congruence.
  apply IH. congruence.
Qed.

Lemma length_write_at {A : Type} (l : list A) (i : nat) (x : A) :
  List.length (write_at l i x) = List.length l.
Proof.
  revert i. induction l as [|y l IH]; intros [|i]; simpl; try reflexivity.
  f_equal. apply IH.
Qed.

Lemma inUse_set_inUse (pool : BrowserPool) (r : ref) :
  inUse (deref (set_inUse r false pool) r) = false.
Proof.
  unfold deref, set_inUse. cbn [store].
  destruct (Nat.lt_ge_cases r (List.length (store pool))) as [H|H].
  - rewrite nth_write_at_same by exact H. reflexivity.
  - rewrite nth_overflow; [reflexivity|]. rewrite length_write_at. exact H.
Qed.

Lemma deref_set_inUse_other (pool : BrowserPool) (r r' : ref) (b : bool) :
  r <> r' -> deref (set_inUse r b pool) r' = deref pool r'.
Proof. intros H. unfold deref, set_inUse. cbn [store]. apply nth_write_at_other, H. Qed.

(** ** [release] *)

(** The first stretch of the detached [createPooledPage().catch(...)]
    leaves the pool as it is. *)
Lemma replacement_starts (w : World) :
  w_pool (fst (run_sync (catch (createPooledPage ;; Ret tt) console_error) w))
  = w_pool w.
Proof.
  unfold catch, createPooledPage, get_pool. cbn [bind attempt run_sync].
  destruct (browser (w_pool w)); reflexivity.
Qed.

(** What [release] leaves behind; it never rejects. *)
Lemma exec_release (r : ref) (env : Oracle) (w : World) :
  exists w', exec (release_of r) env w = (w', Fulfilled tt) /\
             inUse (deref (w_pool w') r) = false /\
             browser (w_pool w') = browser (w_pool w).
Proof.
  unfold release_of, modify_pool, date_now, get_pool, put_pool.
  cbn [bind exec w_pool w_now with_pool].
  destruct (_ >? _).
  - destruct (indexOf r (pages (set_inUse r false (w_pool w)))) as [index|].
    + cbn [bind exec]. rewrite exec_bind, exec_catch_ignore, exec_await.
      destruct (answer env _ _) as [o dt]. cbn [fst].
      unfold fork. cbn [bind exec].
      match goal with |- context [run_sync ?p ?w0] =>
        pose proof (replacement_starts w0) as Hrep;
        destruct (run_sync p w0) as [w1 t] end.
      cbn [fst] in Hrep. eexists. split; [reflexivity|].
      cbn [w_pool with_detached]. rewrite Hrep. cbn.
      split; [apply inUse_set_inUse|reflexivity].
    + eexists. split; [reflexivity|]. cbn.
      split; [apply inUse_set_inUse|reflexivity].
  - eexists. split; [reflexivity|]. cbn.
    split; [apply inUse_set_inUse|reflexivity].
Qed.

(** ** [acquirePage] *)

(** The closure handed out is the [release] of one pooled page. *)
Lemma acquire_gives_release (env : Oracle) (w w1 : World) (acq : Acquired) :
  exec acquirePage env w = (w1, Fulfilled acq) ->
  exists r, release acq = release_of r /\
            acquired_page acq = page (deref (w_pool w1) r).
Proof.
  unfold acquirePage. rewrite exec_bind. unfold get_pool at 1. cbn [exec].
  rewrite exec_bind.
  set (first := match find_free (w_pool w) with
                | Some r => _ | None => _ end).
  destruct (exec first env w) as [wa [pp|e]]; [|discriminate].
  rewrite exec_bind.
  set (second := match pp with Some r => _ | None => _ end).
  destruct (exec second env wa) as [wb [r|e]]; [|discriminate].
  unfold modify_pool, get_pool. cbn [bind exec].
  intros H. injection H as <- <-. exists r. split; reflexivity.
Qed.

Lemma createdAt_set_inUse (pool : BrowserPool) (r : ref) (b : bool) :
  createdAt (deref (set_inUse r b pool) r) = createdAt (deref pool r).
Proof.
  unfold deref, set_inUse. cbn [store].
  destruct (Nat.lt_ge_cases r (List.length (store pool))) as [H|H].
  - rewrite nth_write_at_same by exact H. reflexivity.
  - rewrite !nth_overflow; [reflexivity|exact H|].
    rewrite length_write_at. exact H.
Qed.

Lemma context_set_inUse (pool : BrowserPool) (r : ref) (b : bool) :
  context (deref (set_inUse r b pool) r) = context (deref pool r).
Proof.
  unfold deref, set_inUse. cbn [store].
  destruct (Nat.lt_ge_cases r (List.length (store pool))) as [H|H].
  - rewrite nth_write_at_same by exact H. reflexivity.
  - rewrite !nth_overflow; [reflexivity|exact H|].
    rewrite length_write_at. exact H.
Qed.

Lemma splice1_length (r : ref) (l : list ref) :
  forall index, indexOf r l = Some index ->
                S (List.length (splice1 index l)) = List.length l.
Proof.
  induction l as [|x l IH]; intros index H; cbn [indexOf] in H; [discriminate|].
  destruct (Nat.eqb x r).
  - injection H as <-. reflexivity.
  - destruct (indexOf r l) as [i|]; [|discriminate]. injection H as <-.
    cbn [splice1 List.length]. f_equal. apply IH. reflexivity.
Qed.

Lemma splice1_removes (r : ref) (l : list ref) :
  NoDup l ->
  forall index, indexOf r l = Some index -> ~ In r (splice1 index l).
Proof.
  induction 1 as [|x l Hx Hl IH]; intros index H; cbn [indexOf] in H;
    [discriminate|].
  destruct (Nat.eqb_spec x r) as [->|Hne].
  - injection H as <-. exact Hx.
  - destruct (indexOf r l) as [i|]; [|discriminate]. injection H as <-.
    cbn [splice1]. intros [Heq|Hin]; [exact (Hne Heq)|].
    exact (IH i eq_refl Hin).
Qed.

(** C3, against the claim as it stands: [release] on a page older than
    the limit does not return before the context is closed; it is
    suspended on [context.close()]. *)
Lemma release_waits_for_close :
  ~ returns_at_once (release_of 0%nat) Examples.aged_world /\
  exists w' k,
    run_sync (release_of 0%nat) Examples.aged_world
    = (w', Waiting (OpCloseContext 10%nat) k).
Proof.
  split.
  - intros (w' & o & H). vm_compute in H. discriminate.
  - eexists. eexists. vm_compute. reflexivity.
Qed.

(** C3, amended.  [release] on a pooled page that is older than
    [maxPageAge] and still in the pool: in the job of the call the page
    is marked free and taken out of the array (one entry less; gone, if
    the array had it once), and the task waits for [context.close()].
    When that settles, with whatever outcome, [createPooledPage] is
    started without being waited for and [release] returns.  The
    replacement, once its context and page are there, is pushed as a
    free page created now: the array is as long as before. *)
Theorem release_retires_aged_page
    (w : World) (r : ref) (index : nat) (b : handle) :
  maxPageAge (w_pool w) < w_now w - createdAt (deref (w_pool w) r) ->
  indexOf r (pages (w_pool w)) = Some index ->
  browser (w_pool w) = Some b ->
  let close := OpCloseContext (context (deref (w_pool w) r)) in
  let remaining := splice1 index (pages (w_pool w)) in
  let create := OpNewContext b 1280 720 1 in
  exists k,
    run_sync (release_of r) w
    = (started close (with_pool (set_pages remaining (set_inUse r false (w_pool w))) w),
       Waiting close k) /\
    S (List.length remaining) = List.length (pages (w_pool w)) /\
    (NoDup (pages (w_pool w)) -> ~ In r remaining) /\
    forall (o : Outcome Val) (w2 : World),
      browser (w_pool w2) = Some b ->
      exists k2,
        run_sync (k o) w2
        = (with_detached (Waiting create k2) (started create w2),
           Settled (Fulfilled tt)) /\
        forall (c : handle) (w3 : World),
          exists k3,
            run_sync (k2 (Fulfilled (VHandle c))) w3
            = (started (OpNewPage c) w3, Waiting (OpNewPage c) k3) /\
            forall (p : handle) (w4 : World),
              run_sync (k3 (Fulfilled (VHandle p))) w4
              = (with_pool
                   (snd (push_new {| page := p; context := c; inUse := false;
                                     createdAt := w_now w4 |} (w_pool w4))) w4,
                 Settled (Fulfilled tt)).
Proof.
  intros Hage Hindex Hbrowser close remaining create.
  unfold release_of, modify_pool, date_now, get_pool, put_pool.
  cbn [bind run_sync w_pool w_now with_pool].
  rewrite createdAt_set_inUse.
  assert (Hold : (w_now w - createdAt (deref (w_pool w) r)
                  >? maxPageAge (set_inUse r false (w_pool w))) = true).
  { cbn [set_inUse maxPageAge]. apply Z.gtb_lt. exact Hage. }
  rewrite Hold. cbn [set_inUse pages]. rewrite Hindex.
  rewrite context_set_inUse.
  unfold catch_ignore, catch, await, fork, createPooledPage, get_pool, put_pool,
    date_now, console_error, settle.
  cbn [bind attempt run_sync].
  eexists. split; [reflexivity|].
  split; [apply (splice1_length r), Hindex|].
  split; [intros Hnd; apply splice1_removes; assumption|].
  intros o w2 Hb2. destruct o as [v|e]; cbn [bind attempt run_sync];
    rewrite Hb2; cbn [bind attempt run_sync];
    (eexists; split; [reflexivity|]);
    intros c w3; cbn [bind attempt run_sync];
    (eexists; split; [reflexivity|]);
    intros p w4; cbn [bind attempt run_sync as_handle push_new snd];
    reflexivity.
Qed.

Lemma release_retires_aged_page_witness :
  let w := Examples.aged_world in
  maxPageAge (w_pool w) < w_now w - createdAt (deref (w_pool w) 0%nat) /\
  indexOf 0%nat (pages (w_pool w)) = Some 0%nat /\
  browser (w_pool w) = Some 1%nat /\
  exists k,
    run_sync (release_of 0%nat) w
    = (started (OpCloseContext (context (deref (w_pool w) 0%nat)))
         (with_pool (set_pages (splice1 0 (pages (w_pool w)))
                       (set_inUse 0%nat false (w_pool w))) w),
       Waiting (OpCloseContext (context (deref (w_pool w) 0%nat))) k) /\
    S (List.length (splice1 0 (pages (w_pool w)))) = List.length (pages (w_pool w)) /\
    (NoDup (pages (w_pool w)) -> ~ In 0%nat (splice1 0 (pages (w_pool w)))) /\
    forall (o : Outcome Val) (w2 : World),
      browser (w_pool w2) = Some 1%nat ->
      exists k2,
        run_sync (k o) w2
        = (with_detached (Waiting (OpNewContext 1%nat 1280 720 1) k2)
             (started (OpNewContext 1%nat 1280 720 1) w2),
           Settled (Fulfilled tt)) /\
        forall (c : handle) (w3 : World),
          exists k3,
            run_sync (k2 (Fulfilled (VHandle c))) w3
            = (started (OpNewPage c) w3, Waiting (OpNewPage c) k3) /\
            forall (p : handle) (w4 : World),
              run_sync (k3 (Fulfilled (VHandle p))) w4
              = (with_pool
                   (snd (push_new {| page := p; context := c; inUse := false;
                                     createdAt := w_now w4 |} (w_pool w4))) w4,
                 Settled (Fulfilled tt)).
Proof.
  intros w.
  split; [vm_compute; reflexivity|]. split; [reflexivity|]. split; [reflexivity|].
  apply (release_retires_aged_page w 0%nat 0%nat 1%nat);
    [vm_compute; reflexivity|reflexivity|reflexivity].
Defined.

(** C4.  The context created when no page is free is not temporary:
    [createPooledPage] pushes it onto the array of the pool like any
    other.  On a pool of capacity one whose page is busy, the call
    returns a page the pool tracks, the array then has two pages, and
    once the caller has released it the page is still in the array,
    free for later calls. *)
Theorem overflow_page_is_tracked :
  exists s a,
    run Examples.overflow_schedule Examples.busy_system = Some s /\
    result_of s 0 = Some (Fulfilled a) /\
    tracked (w_pool (sys_world s)) (acquired_page a) = true /\
    total (getStats (w_pool (sys_world s))) = 2%nat /\
    poolSize (w_pool (sys_world s)) = 1%nat /\
    exists w',
      exec (release a) Examples.calm (sys_world s) = (w', Fulfilled tt) /\
      tracked (w_pool w') (acquired_page a) = true /\
      getStats (w_pool w')
      = {| total := 2; available := 1; inUseCount := 1 |}.
Proof.
  eexists. eexists.
  split; [vm_compute; reflexivity|].
  split; [vm_compute; reflexivity|].
  split; [reflexivity|]. split; [reflexivity|]. split; [reflexivity|].
  eexists. split; [vm_compute; reflexivity|].
  split; reflexivity.
Qed.

(** [acquirePage] when no page of the pool is free: the call waits on
    one timer of 100 ms.  Resumed, it scans again; a page
    free by then is marked and returned in that job.  If there is still
    none it asks the browser for a context and a page, without another
    wait; the new pooled page is pushed onto the array of the pool,
    free, and in a later job is marked busy and returned with the
    [release] of that pooled page. *)
Theorem acquire_without_free_page (w : World) (b : handle) :
  find_free (w_pool w) = None ->
  browser (w_pool w) = Some b ->
  exists k1,
    run_sync acquirePage w = (started (OpTimer 100) w, Waiting (OpTimer 100) k1) /\
    (forall (v : Val) (w2 : World) (r : ref),
        find_free (w_pool w2) = Some r ->
        run_sync (k1 (Fulfilled v)) w2
        = (with_pool (set_inUse r true (w_pool w2)) w2,
           Settled (Fulfilled
                      {| acquired_page := page (deref (set_inUse r true (w_pool w2)) r);
                         release := release_of r |}))) /\
    (forall (v : Val) (w2 : World),
        find_free (w_pool w2) = None ->
        browser (w_pool w2) = Some b ->
        let create := OpNewContext b 1280 720 1 in
        exists k2,
          run_sync (k1 (Fulfilled v)) w2 = (started create w2, Waiting create k2) /\
          forall (c : handle) (w3 : World),
            exists k3,
              run_sync (k2 (Fulfilled (VHandle c))) w3
              = (started (OpNewPage c) w3, Waiting (OpNewPage c) k3) /\
              forall (p : handle) (w4 : World),
                let r := List.length (store (w_pool w4)) in
                let pushed :=
                  {| browser := browser (w_pool w4);
                     pages := pages (w_pool w4) ++ [r];
                     poolSize := poolSize (w_pool w4);
                     maxPageAge := maxPageAge (w_pool w4);
                     store := store (w_pool w4) ++
                              [{| page := p; context := c; inUse := false;
                                  createdAt := w_now w4 |}] |} in
                exists k4,
                  run_sync (k3 (Fulfilled (VHandle p))) w4
                  = (started OpTick (with_pool pushed w4), Waiting OpTick k4) /\
                  forall (o : Outcome Val) (w5 : World),
                    run_sync (k4 o) w5
                    = (with_pool (set_inUse r true (w_pool w5)) w5,
                       Settled (Fulfilled
                                  {| acquired_page :=
                                       page (deref (set_inUse r true (w_pool w5)) r);
                                     release := release_of r |}))).
Proof.
  intros Hnone Hbrowser.
  unfold acquirePage, await_call, createPooledPage.
  unfold get_pool, await, modify_pool, date_now, put_pool, settle.
  cbn [bind attempt run_sync]. rewrite Hnone. cbn [bind attempt run_sync].
  eexists. split; [reflexivity|]. split.
  - intros v w2 r Hfree. cbn [bind attempt run_sync]. rewrite Hfree.
    cbn [bind attempt run_sync w_pool with_pool]. reflexivity.
  - intros v w2 Hnone2 Hb2. cbn [bind attempt run_sync].
    rewrite Hnone2. cbn [bind attempt run_sync]. rewrite Hb2.
    cbn [bind attempt run_sync].
    eexists. split; [reflexivity|].
    intros c w3. cbn [bind attempt run_sync].
    eexists. split; [reflexivity|].
    intros p w4. cbn [bind attempt run_sync as_handle push_new].
    eexists. split; [reflexivity|].
    intros o w5. cbn [bind attempt run_sync w_pool with_pool]. reflexivity.
Qed.

Lemma acquire_without_free_page_witness :
  let w := Examples.busy_world in
  find_free (w_pool w) = None /\
  browser (w_pool w) = Some 1%nat /\
  exists k1,
    run_sync acquirePage w = (started (OpTimer 100) w, Waiting (OpTimer 100) k1) /\
    (forall (v : Val) (w2 : World) (r : ref),
        find_free (w_pool w2) = Some r ->
        run_sync (k1 (Fulfilled v)) w2
        = (with_pool (set_inUse r true (w_pool w2)) w2,
           Settled (Fulfilled
                      {| acquired_page := page (deref (set_inUse r true (w_pool w2)) r);
                         release := release_of r |}))) /\
    (forall (v : Val) (w2 : World),
        find_free (w_pool w2) = None ->
        browser (w_pool w2) = Some 1%nat ->
        exists k2,
          run_sync (k1 (Fulfilled v)) w2
          = (started (OpNewContext 1%nat 1280 720 1) w2,
             Waiting (OpNewContext 1%nat 1280 720 1) k2) /\
          forall (c : handle) (w3 : World),
            exists k3,
              run_sync (k2 (Fulfilled (VHandle c))) w3
              = (started (OpNewPage c) w3, Waiting (OpNewPage c) k3) /\
              forall (p : handle) (w4 : World),
                exists k4,
                  run_sync (k3 (Fulfilled (VHandle p))) w4
                  = (started OpTick
                       (with_pool
                          {| browser := browser (w_pool w4);
                             pages := pages (w_pool w4) ++ [List.length (store (w_pool w4))];
                             poolSize := poolSize (w_pool w4);
                             maxPageAge := maxPageAge (w_pool w4);
                             store := store (w_pool w4) ++
                                      [{| page := p; context := c; inUse := false;
                                          createdAt := w_now w4 |}] |} w4),
                     Waiting OpTick k4) /\
                  forall (o : Outcome Val) (w5 : World),
                    run_sync (k4 o) w5
                    = (with_pool (set_inUse (List.length (store (w_pool w4))) true
                                            (w_pool w5)) w5,
                       Settled (Fulfilled
                                  {| acquired_page :=
                                       page (deref (set_inUse (List.length (store (w_pool w4)))
                                                              true (w_pool w5))
                                                   (List.length (store (w_pool w4))));
                                     release := release_of (List.length (store (w_pool w4))) |}))).
Proof.
  intros w. split; [reflexivity|]. split; [reflexivity|].
  apply (acquire_without_free_page w 1%nat); reflexivity.
Defined.

(** ** [getStats] *)

(** Every page of the array is counted once: as available or as in
    use. *)
Theorem getStats_partition (pool : BrowserPool) :
  (total (getStats pool)
   = available (getStats pool) + inUseCount (getStats pool))%nat.
Proof.
  unfold getStats. cbn [total available inUseCount].
  induction (pages pool) as [|r l IH]; cbn [filter List.length]; [reflexivity|].
  destruct (inUse (deref pool r)); cbn [negb List.length]; lia.
Qed.

End PoolFacts.

(* ================================================================== *)
(** * The capture service *)
(* ================================================================== *)

Module CaptureFacts.
Import Pool Async PoolOps Screenshot AsyncFacts PoolFacts.
Local Open Scope prog_scope.


(** ** The [try] block runs its operations in order *)

Lemma exec_then {A : Type} (op : ExtOp) (rest : Prog A) (env : Oracle) (w : World) :
  exec (await op ;; rest) env w =
  let (o, dt) := answer env w op in
  match o with
  | Fulfilled _ => exec rest env (elapse dt (started op w))
  | Rejected e => (elapse dt (started op w), Rejected e)
  end.
Proof.
  rewrite exec_bind, exec_await. destruct (answer env w op) as [[v|e] dt]; reflexivity.
Qed.

Lemma exec_script_then {A : Type} (op : ExtOp) (rest : Prog A) (env : Oracle) (w : World) :
  exec (await_call (await op ;; Ret tt) ;; rest) env w =
  let (o, dt) := answer env w op in
  match o with
  | Fulfilled _ => exec rest env (elapse dt (started op w))
  | Rejected e => (elapse dt (started op w), Rejected e)
  end.
Proof.
  rewrite exec_bind, exec_await_call, exec_then.
  destruct (answer env w op) as [[v|e] dt]; reflexivity.
Qed.

Lemma exec_script (op : ExtOp) (env : Oracle) (w : World) :
  exec (await_call (await op ;; Ret tt)) env w =
  let (o, dt) := answer env w op in
  match o with
  | Fulfilled _ => (elapse dt (started op w), Fulfilled tt)
  | Rejected e => (elapse dt (started op w), Rejected e)
  end.
Proof.
  rewrite exec_await_call, exec_then.
  destruct (answer env w op) as [[v|e] dt]; reflexivity.
Qed.

Lemma follow_cons (env : Oracle) (op : ExtOp) (ops : list ExtOp) (last : Val) (w : World) :
  follow env (op :: ops) last w =
  let (o, dt) := answer env w op in
  match o with
  | Fulfilled v => follow env ops v (elapse dt (started op w))
  | Rejected e => (elapse dt (started op w), Rejected e)
  end.
Proof. reflexivity. Qed.

Lemma exec_last (op : ExtOp) (last : Val) (env : Oracle) (w : World) :
  exec (v <- await op ;; Ret (as_buffer v)) env w =
  buffer_outcome (follow env [op] last w).
Proof.
  rewrite exec_bind, exec_await. cbn [follow].
  destruct (answer env w op) as [[v|e] dt]; reflexivity.
Qed.

Lemma delay_test (d : Z) : negb (d =? 0) && (d >? 0) = (0 <? d).
Proof.
  destruct (Z.eqb_spec d 0), (Z.gtb_spec d 0), (Z.ltb_spec 0 d);
    simpl; try reflexivity; lia.
Qed.

Ltac step_op :=
  rewrite exec_then, follow_cons;
  destruct (answer _ _ _) as [[?v|?e] ?dt]; [|reflexivity].

Ltac step_script :=
  rewrite exec_script_then, follow_cons;
  destruct (answer _ _ _) as [[?v|?e] ?dt]; [|reflexivity].

(** The last operation: the export or the screenshot. *)
Lemma export_follows_plan (options : ScreenshotOptions) (pg : handle)
      (env : Oracle) (last : Val) (w : World) :
  exec (export_step options pg) env w =
  buffer_outcome (follow env [export_op options pg] last w).
Proof.
  unfold export_step, export_op.
  destruct (type options) as [[| |]|]; apply exec_last.
Qed.

Lemma delay_follows_plan {A : Type} (options : ScreenshotOptions) (pg : handle)
      (rest : Prog A) (ops : list ExtOp) (f : World * Outcome Val -> World * Outcome A)
      (env : Oracle) (last : Val) (w : World) :
  (forall e w', f (w', Rejected e) = (w', Rejected e)) ->
  (forall last' w', exec rest env w' = f (follow env ops last' w')) ->
  exec (delay_step options pg ;; rest) env w =
  f (follow env (delay_ops options pg ++ ops) last w).
Proof.
  intros Hf Hrest. unfold delay_step, delay_ops.
  destruct (delay options) as [d|]; [|cbn [app bind]; apply Hrest].
  rewrite delay_test. destruct (0 <? d); [|cbn [app bind]; apply Hrest].
  cbn [app]. rewrite exec_bind, exec_then, follow_cons.
  destruct (answer _ _ _) as [[v|e] dt]; [|symmetry; apply Hf].
  cbn [exec]. apply Hrest.
Qed.

Lemma buffer_outcome_rejected (e : Thrown) (w : World) :
  buffer_outcome (w, Rejected e) = (w, Rejected e).
Proof. reflexivity. Qed.

Lemma capture_try_follows_plan (options : ScreenshotOptions) (blockAds : bool)
      (pg : handle) (env : Oracle) (w : World) :
  exec (capture_try options blockAds pg) env w =
  buffer_outcome (follow env (planned_ops options blockAds pg) VUnit w).
Proof.
  assert (Htail : forall last w0,
    exec (delay_step options pg ;; export_step options pg) env w0 =
    buffer_outcome
      (follow env (delay_ops options pg ++ [export_op options pg]) last w0)).
  { intros last w0. apply delay_follows_plan.
    - intros e w'. reflexivity.
    - intros last' w'. apply export_follows_plan. }
  unfold capture_try, planned_ops, setup_ops, navigation_op, readiness_ops,
    waitForImages, scrollToBottom.
  cbn [nullish_or].
  destruct blockAds; cbn [app].
  - rewrite exec_bind, exec_then, follow_cons.
    destruct (answer _ _ _) as [[v|e] dt]; [|reflexivity].
    cbn [exec]. step_op. step_op.
    destruct (truthy (fullPage options)); cbn [app].
    + rewrite exec_bind. step_script.
      rewrite exec_script, follow_cons.
      destruct (answer _ _ _) as [[?v|?e] ?dt]; [|reflexivity].
      apply Htail.
    + step_script. apply Htail.
  - cbn [bind]. step_op. step_op.
    destruct (truthy (fullPage options)); cbn [app].
    + rewrite exec_bind. step_script.
      rewrite exec_script, follow_cons.
      destruct (answer _ _ _) as [[?v|?e] ?dt]; [|reflexivity].
      apply Htail.
    + step_script. apply Htail.
Qed.

(** ** What a straight run leaves in the trace *)

Lemma follow_app (env : Oracle) (ops1 ops2 : list ExtOp) :
  forall last w,
    follow env (ops1 ++ ops2) last w =
    match follow env ops1 last w with
    | (w', Fulfilled v) => follow env ops2 v w'
    | (w', Rejected e) => (w', Rejected e)
    end.
Proof.
  induction ops1 as [|op ops1 IH]; intros last w; cbn [app follow].
  - reflexivity.
  - destruct (answer env w op) as [[v|e] dt]; [apply IH|reflexivity].
Qed.

Lemma follow_trace (env : Oracle) (ops : list ExtOp) :
  existsb is_tick ops = false ->
  forall last w,
    exists n, w_trace (fst (follow env ops last w)) = w_trace w ++ firstn n ops /\
              (forall v, snd (follow env ops last w) = Fulfilled v ->
                         n = List.length ops).
Proof.
  induction ops as [|op ops IH]; intros Hticks last w; cbn [follow].
  - exists 0%nat. cbn. split; [symmetry; apply app_nil_r|reflexivity].
  - cbn [existsb] in Hticks. apply orb_false_iff in Hticks as [Hop Hticks].
    destruct (answer env w op) as [[v|e] dt].
    + destruct (IH Hticks v (elapse dt (started op w))) as (n & Hn & Hfull).
      exists (S n). split.
      * rewrite Hn. unfold started. cbn [elapse w_trace firstn]. rewrite Hop.
        rewrite <- app_assoc. reflexivity.
      * intros v' Hv. cbn [List.length]. f_equal. apply (Hfull v'), Hv.
    + exists 1%nat. cbn [fst snd]. split.
      * unfold started. cbn [elapse w_trace firstn]. rewrite Hop. reflexivity.
      * discriminate.
Qed.

Lemma exec_trace_follow (env : Oracle) (ops : list ExtOp) :
  forall last w, exists more,
    w_trace (fst (follow env ops last w)) = w_trace w ++ more.
Proof.
  induction ops as [|op ops IH]; intros last w; cbn [follow].
  - exists []. symmetry. apply app_nil_r.
  - destruct (answer env w op) as [[v|e] dt].
    + destruct (IH v (elapse dt (started op w))) as [more H]. rewrite H.
      unfold started. cbn [elapse w_trace]. destruct (is_tick op).
      * exists more. reflexivity.
      * exists (op :: more). rewrite <- app_assoc. reflexivity.
    + cbn [fst]. unfold started. cbn [elapse w_trace]. destruct (is_tick op).
      * exists []. symmetry. apply app_nil_r.
      * exists [op]. reflexivity.
Qed.

Lemma planned_ops_no_tick (options : ScreenshotOptions) (blockAds : bool)
      (pg : handle) :
  existsb is_tick (planned_ops options blockAds pg) = false.
Proof.
  unfold planned_ops, setup_ops, navigation_op, readiness_ops, delay_ops,
    export_op.
  destruct blockAds, (truthy (fullPage options)), (delay options) as [d|],
    (type options) as [[| |]|]; try destruct (0 <? d); reflexivity.
Qed.

Lemma skipn_length_app {A : Type} (l r : list A) :
  skipn (List.length l) (l ++ r) = r.
Proof. induction l as [|x l IH]; [reflexivity|exact IH]. Qed.

(** The operations the [try] block starts are the planned ones, in
    order, up to the first that fails; all of them if it succeeds. *)
Lemma try_ops_started (options : ScreenshotOptions) (blockAds : bool)
      (pg : handle) (env : Oracle) (w : World) :
  exists n,
    ops_started (capture_try options blockAds pg) env w
    = firstn n (planned_ops options blockAds pg) /\
    (forall b, snd (exec (capture_try options blockAds pg) env w) = Fulfilled b ->
               n = List.length (planned_ops options blockAds pg)).
Proof.
  unfold ops_started. rewrite capture_try_follows_plan.
  destruct (follow_trace env _ (planned_ops_no_tick options blockAds pg) VUnit w)
    as (n & Hn & Hfull).
  exists n. destruct (follow env _ VUnit w) as [w' [v|e]]; cbn [fst snd buffer_outcome] in *.
  - rewrite Hn, skipn_length_app. split; [reflexivity|].
    intros b _. apply (Hfull v). reflexivity.
  - rewrite Hn, skipn_length_app. split; [reflexivity|discriminate].
Qed.

Lemma scroll_precedes_images_firstn (n : nat) :
  forall ops b, scroll_precedes_images b ops = true ->
                scroll_precedes_images b (firstn n ops) = true.
Proof.
  induction n as [|n IH]; intros [|op ops] b H; cbn in *; try reflexivity.
  apply andb_true_iff in H as [H1 H2]. rewrite H1. cbn. apply IH, H2.
Qed.

Lemma forallb_firstn {A : Type} (f : A -> bool) (n : nat) :
  forall l, forallb f l = true -> forallb f (firstn n l) = true.
Proof.
  induction n as [|n IH]; intros [|x l] H; cbn in *; try reflexivity.
  apply andb_true_iff in H as [H1 H2]. rewrite H1. cbn. apply IH, H2.
Qed.

Lemma existsb_firstn {A : Type} (f : A -> bool) (n : nat) :
  forall l, existsb f l = false -> existsb f (firstn n l) = false.
Proof.
  induction n as [|n IH]; intros [|x l] H; cbn in *; try reflexivity.
  apply orb_false_iff in H as [H1 H2]. rewrite H1. cbn. apply IH, H2.
Qed.

(** ** [capture], step by step *)

(** After the page has been handed out: the [try] block, then the two
    clean-up operations whatever they settle with, then [release]; the
    outcome is that of the [try] block. *)
Lemma capture_unfolds
    (options : ScreenshotOptions) (env : Oracle)
    (w w1 w2 : World) (acq : Acquired) (primary : Outcome Buffer) :
  exec (await_call acquirePage) env w = (w1, Fulfilled acq) ->
  exec (capture_try options (nullish_or (blockAds options) true)
                    (acquired_page acq)) env w1 = (w2, primary) ->
  let unroute := OpUnrouteAll (acquired_page acq) "wait" in
  let blank := OpGoto (acquired_page acq) "about:blank" None None in
  let w3 := elapse (snd (answer env w2 unroute)) (started unroute w2) in
  let w4 := elapse (snd (answer env w3 blank)) (started blank w3) in
  exists (w5 : World) (r : ref) (rest : list ExtOp),
    release acq = release_of r /\
    exec (release acq) env w4 = (w5, Fulfilled tt) /\
    inUse (deref (w_pool w5) r) = false /\
    w_trace w5 = w_trace w2 ++ [unroute; blank] ++ rest /\
    exec (capture options) env w = (w5, primary).
Proof.
  intros Hacq Htry unroute blank w3 w4.
  assert (Hshape := Hacq). rewrite exec_await_call in Hshape.
  apply acquire_gives_release in Hshape as (r & Hrel & _).
  destruct (exec_release r env w4) as (w5 & Hexec & Hfree & _).
  destruct (exec_trace (release_of r) env w4) as [rest Hrest].
  rewrite Hexec in Hrest. cbn [fst] in Hrest.
  exists w5, r, rest. rewrite Hrel.
  split; [reflexivity|]. split; [exact Hexec|]. split; [exact Hfree|]. split.
  - rewrite Hrest. subst w4 w3 unroute blank. cbn.
    rewrite <- !app_assoc. reflexivity.
  - unfold capture. rewrite exec_bind, Hacq, exec_try_finally, Htry.
    unfold capture_finally.
    rewrite exec_bind, exec_catch_ignore, exec_await.
    fold unroute. destruct (answer env w2 unroute) as [o1 dt1] eqn:H1.
    cbn [fst snd] in *.
    rewrite exec_bind, exec_catch_ignore, exec_await.
    fold blank. fold w3.
    destruct (answer env w3 blank) as [o2 dt2] eqn:H2. cbn [fst snd] in *.
    fold w4. rewrite exec_await_call, Hrel, Hexec. reflexivity.
Qed.

(** C1.  Once [acquirePage] has handed out a page, however the [try]
    block of [capture] ends ([primary]: a screenshot or a PDF, or the
    error of a navigation timeout, of the renderer or of the export),
    [unrouteAll] is started, then the navigation to [about:blank], then
    [release] is called, runs to its end and leaves the pooled page
    free; this holds whatever the two page operations settle with
    (their rejections are swallowed), and [capture] settles with
    [primary]. *)
Theorem capture_always_cleans_up
    (options : ScreenshotOptions) (env : Oracle)
    (w w1 w2 : World) (acq : Acquired) (primary : Outcome Buffer) :
  exec (await_call acquirePage) env w = (w1, Fulfilled acq) ->
  exec (capture_try options (nullish_or (blockAds options) true)
                    (acquired_page acq)) env w1 = (w2, primary) ->
  let unroute := OpUnrouteAll (acquired_page acq) "wait" in
  let blank := OpGoto (acquired_page acq) "about:blank" None None in
  let w3 := elapse (snd (answer env w2 unroute)) (started unroute w2) in
  let w4 := elapse (snd (answer env w3 blank)) (started blank w3) in
  exists (w5 : World) (r : ref) (rest : list ExtOp),
    release acq = release_of r /\
    exec (release acq) env w4 = (w5, Fulfilled tt) /\
    inUse (deref (w_pool w5) r) = false /\
    w_trace w5 = w_trace w2 ++ [unroute; blank] ++ rest /\
    exec (capture options) env w = (w5, primary).
Proof. exact (capture_unfolds options env w w1 w2 acq primary). Qed.

Lemma capture_always_cleans_up_witness :
  let options := Examples.options_for "https://slow.example/" in
  let env := Examples.hostile in
  let w := Examples.idle_world in
  let w1 := fst (exec (await_call acquirePage) env w) in
  let acq := Examples.the_acquired in
  let w2 := fst (exec (capture_try options true 11%nat) env w1) in
  let primary := Rejected Playwright.TimeoutError in
  exec (await_call acquirePage) env w = (w1, Fulfilled acq) /\
  exec (capture_try options (nullish_or (blockAds options) true)
                    (acquired_page acq)) env w1 = (w2, primary) /\
  exists (w5 : World) (r : ref) (rest : list ExtOp),
    release acq = release_of r /\
    exec (release acq) env
         (elapse (snd (answer env
                         (elapse (snd (answer env w2 (OpUnrouteAll (acquired_page acq) "wait")))
                                 (started (OpUnrouteAll (acquired_page acq) "wait") w2))
                         (OpGoto (acquired_page acq) "about:blank" None None)))
                 (started (OpGoto (acquired_page acq) "about:blank" None None)
                    (elapse (snd (answer env w2 (OpUnrouteAll (acquired_page acq) "wait")))
                            (started (OpUnrouteAll (acquired_page acq) "wait") w2))))
    = (w5, Fulfilled tt) /\
    inUse (deref (w_pool w5) r) = false /\
    w_trace w5 = w_trace w2 ++ [OpUnrouteAll (acquired_page acq) "wait";
                                OpGoto (acquired_page acq) "about:blank" None None] ++ rest /\
    exec (capture options) env w = (w5, primary).
Proof.
  intros options env w w1 acq w2 primary.
  assert (H1 : exec (await_call acquirePage) env w = (w1, Fulfilled acq))
    by (vm_compute; reflexivity).
  assert (H2 : exec (capture_try options (nullish_or (blockAds options) true)
                       (acquired_page acq)) env w1 = (w2, primary))
    by (vm_compute; reflexivity).
  split; [exact H1|]. split; [exact H2|].
  exact (capture_always_cleans_up options env w w1 w2 acq primary H1 H2).
Defined.

(** ** A pool without a browser *)

(** [capture] on a pool that has no browser (never initialised) and no
    free page: after the wait of 100 ms [createPooledPage] throws, and
    the capture is rejected with that error; no page operation was
    started and the pool is as it was. *)
Theorem capture_without_browser_rejects
    (options : ScreenshotOptions) (env : Oracle) (w : World) (v : Val) (dt : N) :
  find_free (w_pool w) = None ->
  browser (w_pool w) = None ->
  env (List.length (w_trace w)) (OpTimer 100) = (Fulfilled v, dt) ->
  exists w',
    exec (capture options) env w
    = (w', Rejected (Error "Browser not initialized")) /\
    w_trace w' = w_trace w ++ [OpTimer 100] /\
    w_pool w' = w_pool w /\
    w_detached w' = w_detached w.
Proof.
  intros Hnone Hbrowser Henv.
  unfold capture. rewrite exec_bind, exec_await_call.
  unfold acquirePage, get_pool. cbn [bind exec]. rewrite Hnone.
  unfold await. cbn [bind exec answer is_tick]. rewrite Henv.
  cbn [bind exec settle w_pool elapse started is_tick]. rewrite Hnone.
  rewrite exec_bind, exec_await_call.
  unfold createPooledPage, get_pool.
  cbn [bind exec w_pool elapse started is_tick]. rewrite Hbrowser.
  cbn [exec]. eexists. split; [reflexivity|]. cbn. auto.
Qed.

Lemma capture_without_browser_rejects_witness :
  let w := Examples.world_at (new_BrowserPool 10) 0 in
  find_free (w_pool w) = None /\
  browser (w_pool w) = None /\
  Examples.calm (List.length (w_trace w)) (OpTimer 100) = (Fulfilled VUnit, 1%N) /\
  exists w',
    exec (capture (Examples.options_for "https://example.com")) Examples.calm w
    = (w', Rejected (Error "Browser not initialized")) /\
    w_trace w' = w_trace w ++ [OpTimer 100] /\
    w_pool w' = w_pool w /\
    w_detached w' = w_detached w.
Proof.
  intros w. split; [reflexivity|]. split; [reflexivity|]. split; [reflexivity|].
  apply (capture_without_browser_rejects _ Examples.calm w VUnit 1%N);
    reflexivity.
Defined.

End CaptureFacts.

(* ================================================================== *)
(** * The functions evaluated inside the page *)
(* ================================================================== *)

Module InPageFacts.
Import InPage.

(** ** [waitForImages] *)

Lemma NoDup_remove_nat (x : nat) (l : list nat) :
  NoDup l -> NoDup (List.remove Nat.eq_dec x l).
Proof.
  induction 1 as [|y l Hy Hl IH]; cbn [List.remove]; [constructor|].
  destruct (Nat.eq_dec x y); [exact IH|].
  constructor; [|exact IH]. intros Hin. apply in_remove in Hin as [Hin _].
  exact (Hy Hin).
Qed.

Section Waiting.

Variable maxWait : Z.
Variable relevant : list nat.

Let n : nat := List.length relevant.
Let deliver (st : Waiter) (e : ImageEvent) : Waiter := dispatch maxWait relevant e st.

(** Once resolved, the promise stays as it is. *)
Lemma resolve_resolved (st : Waiter) (t t' : Z) :
  resolved st = Some t -> resolved (resolve t' st) = Some t.
Proof. intros H. unfold resolve. rewrite H. exact H. Qed.

Lemma checkDone_resolved (k : nat) (st : Waiter) (t t' : Z) :
  resolved st = Some t -> resolved (checkDone k t' st) = Some t.
Proof.
  intros H. unfold checkDone. cbn [loaded].
  destruct (k <=? S (loaded st))%nat; [|exact H].
  apply resolve_resolved. exact H.
Qed.

Lemma timer_fires_resolved (st : Waiter) (t : Z) :
  resolved st = Some t -> resolved (timer_fires maxWait st) = Some t.
Proof.
  intros H. unfold timer_fires. destruct (timeoutId st); [|exact H].
  apply resolve_resolved. exact H.
Qed.

Lemma resolved_stays (events : list ImageEvent) :
  forall st t, resolved st = Some t ->
               resolved (fold_left deliver events st) = Some t.
Proof.
  induction events as [|e events IH]; intros st t H; cbn [fold_left].
  - exact H.
  - apply IH. unfold deliver, dispatch.
    assert (H' : resolved (if maxWait <=? at_ms e
                           then timer_fires maxWait st else st) = Some t).
    { destruct (maxWait <=? at_ms e); [apply timer_fires_resolved|]; exact H. }
    destruct (listened relevant e); [apply checkDone_resolved|]; exact H'.
Qed.

(** The executor computes [settle_time]. *)
Lemma script_settles (events : list ImageEvent) :
  forall st,
    resolved st = None -> timeoutId st = true -> (loaded st < n)%nat ->
    resolved (timer_fires maxWait (fold_left deliver events st))
    = Some (settle_time maxWait relevant (n - loaded st) events).
Proof.
  unfold n.
  induction events as [|e events IH]; intros st Hres Htimer Hloaded.
  - cbn. unfold timer_fires, resolve, clearTimeout. rewrite Htimer. cbn.
    rewrite Hres. reflexivity.
  - cbn [fold_left settle_time]. unfold deliver at 2, dispatch.
    destruct (maxWait <=? at_ms e) eqn:Hdue.
    + (* the timeout has fired by then *)
      apply timer_fires_resolved, resolved_stays.
      assert (Hfired : resolved (timer_fires maxWait st) = Some maxWait).
      { unfold timer_fires, resolve, clearTimeout. rewrite Htimer. cbn.
        rewrite Hres. reflexivity. }
      destruct (listened relevant e); [apply checkDone_resolved|]; exact Hfired.
    + destruct (listened relevant e) eqn:Hl.
      * unfold checkDone. cbn [loaded].
        destruct (List.length relevant <=? S (loaded st))%nat eqn:Hdone.
        -- apply Nat.leb_le in Hdone.
           assert (Hneed : (List.length relevant - loaded st = 1)%nat) by lia.
           rewrite Hneed.
           apply timer_fires_resolved, resolved_stays.
           unfold resolve, clearTimeout. cbn. rewrite Hres. reflexivity.
        -- apply Nat.leb_gt in Hdone.
           rewrite IH; cbn; try assumption.
           destruct (List.length relevant - loaded st)%nat as [|[|k]] eqn:Hneed;
             try lia.
           replace (List.length relevant - S (loaded st))%nat with (S k) by lia.
           reflexivity.
      * apply IH; assumption.
Qed.

Lemma settle_time_bounded (events : list ImageEvent) :
  forall need, settle_time maxWait relevant need events <= maxWait.
Proof.
  induction events as [|e events IH]; intros need; cbn [settle_time].
  - lia.
  - destruct (Z.leb_spec maxWait (at_ms e)); [lia|].
    destruct (listened relevant e); [|apply IH].
    destruct need as [|[|k]]; try lia. apply IH.
Qed.

Lemma settle_time_late (events : list ImageEvent) :
  (forall e, In e events -> maxWait <= at_ms e) ->
  forall need, settle_time maxWait relevant need events = maxWait.
Proof.
  destruct events as [|e events]; intros H need; cbn [settle_time].
  - reflexivity.
  - destruct (Z.leb_spec maxWait (at_ms e)); [reflexivity|].
    specialize (H e (or_introl eq_refl)). lia.
Qed.

(** Events on other images change nothing. *)
Lemma settle_time_scope (events : list ImageEvent) :
  in_time_order events ->
  forall need,
    settle_time maxWait relevant need events
    = settle_time maxWait relevant need (filter (listened relevant) events).
Proof.
  induction events as [|e events IH]; intros Hord need; [reflexivity|].
  destruct Hord as [Hmin Hord]. cbn [settle_time filter].
  destruct (listened relevant e) eqn:Hl.
  - cbn [settle_time]. rewrite Hl.
    destruct (maxWait <=? at_ms e); [reflexivity|].
    destruct need as [|[|k]]; try reflexivity. apply IH, Hord.
  - destruct (Z.leb_spec maxWait (at_ms e)); [|apply IH, Hord].
    symmetry. apply settle_time_late.
    intros e' He'. apply filter_In in He' as [He' _].
    specialize (Hmin e' He'). lia.
Qed.

Lemma listened_In (e : ImageEvent) :
  listened relevant e = true <-> In (target e) relevant.
Proof.
  unfold listened. rewrite existsb_exists. split.
  - intros (i & Hi & Heq). apply Nat.eqb_eq in Heq. rewrite Heq. exact Hi.
  - intros H. exists (target e). split; [exact H|apply Nat.eqb_refl].
Qed.

(** No later than the moment every image of a set as large as what is
    still needed has reported. *)
Lemma settle_time_all_reported (events : list ImageEvent) :
  in_time_order events ->
  forall (need : nat) (pending : list nat) (t : Z),
    (1 <= need <= List.length pending)%nat ->
    NoDup pending -> incl pending relevant ->
    all_reported_by events pending t ->
    settle_time maxWait relevant need events <= t.
Proof.
  induction events as [|e events IH];
    intros Hord need pending t Hneed Hnd Hincl Hall.
  - destruct pending as [|i pending]; [cbn in Hneed; lia|].
    destruct (Hall i (or_introl eq_refl)) as (e & [] & _).
  - destruct Hord as [Hmin Hord].
    assert (Hfirst : at_ms e <= t).
    { destruct pending as [|i pending]; [cbn in Hneed; lia|].
      destruct (Hall i (or_introl eq_refl)) as (e' & [<-|He'] & _ & Ht);
        [exact Ht|]. specialize (Hmin e' He'). lia. }
    cbn [settle_time].
    destruct (Z.leb_spec maxWait (at_ms e)); [lia|].
    destruct (listened relevant e) eqn:Hl.
    + destruct need as [|[|k]]; try lia.
      apply (IH Hord (S k) (List.remove Nat.eq_dec (target e) pending) t).
      * pose proof (remove_length_le Nat.eq_dec pending (target e)).
        assert (List.length pending <= S (List.length
                  (List.remove Nat.eq_dec (target e) pending)))%nat.
        { clear - Hnd. induction pending as [|x l IHl]; [cbn; lia|].
          inversion Hnd as [|x' l' Hx Hl]; subst. cbn [List.remove].
          destruct (Nat.eq_dec (target e) x) as [->|Hne].
          - rewrite notin_remove by exact Hx. cbn. lia.
          - cbn [List.length]. specialize (IHl Hl). lia. }
        lia.
      * apply NoDup_remove_nat. exact Hnd.
      * intros i Hi. apply in_remove in Hi as [Hi _]. apply Hincl, Hi.
      * intros i Hi. apply in_remove in Hi as [Hi Hne].
        destruct (Hall i Hi) as (e' & [<-|He'] & Htgt & Ht); [congruence|].
        exists e'. auto.
    + apply (IH Hord need pending t Hneed Hnd Hincl).
      intros i Hi. destruct (Hall i Hi) as (e' & [<-|He'] & Htgt & Ht).
      * apply Hincl in Hi. rewrite <- Htgt in Hi.
        apply listened_In in Hi. congruence.
      * exists e'. auto.
Qed.

(** Resolving before the timeout takes [need] events on relevant
    images. *)
Lemma settle_time_early (events : list ImageEvent) :
  in_time_order events ->
  forall (need : nat) (t : Z),
    (1 <= need)%nat ->
    settle_time maxWait relevant need events = t -> t < maxWait ->
    exists es,
      List.length es = need /\
      (forall e, In e es -> In e events /\ In (target e) relevant /\ at_ms e <= t) /\
      (NoDup (map target events) -> NoDup (map target es)).
Proof.
  induction events as [|e events IH]; intros Hord need t Hneed Hset Ht;
    cbn [settle_time] in Hset.
  - lia.
  - destruct Hord as [Hmin Hord].
    destruct (Z.leb_spec maxWait (at_ms e)); [lia|].
    destruct (listened relevant e) eqn:Hl.
    + apply listened_In in Hl. destruct need as [|[|k]]; [lia| |].
      * exists [e]. split; [reflexivity|]. split.
        -- intros e' [<-|[]]. split; [left; reflexivity|]. split; [exact Hl|lia].
        -- intros _. cbn. constructor; [intros []|constructor].
      * destruct (IH Hord (S k) t ltac:(lia) Hset Ht) as (es & Hlen & Hes & Hnd).
        exists (e :: es). split; [cbn; lia|]. split.
        -- intros e' [<-|He'].
           ++ split; [left; reflexivity|]. split; [exact Hl|].
              destruct es as [|e0 es]; [discriminate|].
              destruct (Hes e0 (or_introl eq_refl)) as (Hin & _ & Hle).
              specialize (Hmin e0 Hin). lia.
           ++ destruct (Hes e' He') as (Hin & Hrel & Hle).
              split; [right; exact Hin|]. split; assumption.
        -- intros Hnd'. cbn [map] in *. inversion Hnd' as [|x l Hx Hl']; subst.
           constructor; [|apply Hnd, Hl'].
           intros Hin. apply Hx. apply in_map_iff in Hin as (e' & Heq & He').
           apply in_map_iff. exists e'. split; [exact Heq|apply Hes, He'].
    + destruct (IH Hord need t Hneed Hset Ht) as (es & Hlen & Hes & Hnd).
      exists es. split; [exact Hlen|]. split.
      * intros e' He'. destruct (Hes e' He') as (Hin & Hrel & Hle).
        split; [right; exact Hin|]. split; assumption.
      * intros Hnd'. apply Hnd. cbn [map] in Hnd'.
        inversion Hnd'; assumption.
Qed.

End Waiting.

(** The images that carry the listeners are the pending ones in scope,
    each once. *)
Lemma In_combine_seq {A : Type} (l : list A) :
  forall (s i : nat) (x : A),
    In (i, x) (combine (seq s (List.length l)) l) <->
    (s <= i)%nat /\ nth_error l (i - s) = Some x.
Proof.
  induction l as [|y l IH]; intros s i x; cbn [List.length seq combine].
  - split; [intros []|]. intros [_ H]. destruct (i - s)%nat; discriminate.
  - cbn [In]. rewrite IH. split.
    + intros [H|[Hle H]].
      * injection H as <- <-. split; [lia|]. rewrite Nat.sub_diag. reflexivity.
      * split; [lia|]. replace (i - s)%nat with (S (i - S s)) by lia. exact H.
    + intros [Hle H]. destruct (i - s)%nat as [|k] eqn:Hk.
      * left. injection H as <-. f_equal. lia.
      * right. split; [lia|]. replace (i - S s)%nat with k by lia. exact H.
Qed.

Lemma listeners_spec (win : Window) (viewportOnly : bool) (images : list Image)
      (i : nat) :
  In i (listeners_of win viewportOnly images) <->
  exists img, nth_error images i = Some img /\
              (viewportOnly = true -> in_viewport win img = true) /\
              complete img = false.
Proof.
  unfold listeners_of, unloadedImages, targetImages, document_images.
  rewrite in_map_iff. split.
  - intros ([i' img] & Hi & Hin). cbn in Hi. subst i'.
    apply filter_In in Hin as [Hin Hc]. cbn in Hc.
    exists img. destruct viewportOnly.
    + apply filter_In in Hin as [Hin Hv]. cbn in Hv.
      apply In_combine_seq in Hin as [_ Hn]. rewrite Nat.sub_0_r in Hn.
      split; [exact Hn|]. split; [intros _; exact Hv|].
      destruct (complete img); [discriminate|reflexivity].
    + apply In_combine_seq in Hin as [_ Hn]. rewrite Nat.sub_0_r in Hn.
      split; [exact Hn|]. split; [discriminate|].
      destruct (complete img); [discriminate|reflexivity].
  - intros (img & Hn & Hv & Hc). exists (i, img). split; [reflexivity|].
    apply filter_In. split; [|cbn; rewrite Hc; reflexivity].
    assert (Hin : In (i, img) (combine (seq 0 (List.length images)) images)).
    { apply In_combine_seq. rewrite Nat.sub_0_r. split; [lia|exact Hn]. }
    destruct viewportOnly; [|exact Hin].
    apply filter_In. split; [exact Hin|]. cbn. apply Hv. reflexivity.
Qed.

Lemma NoDup_map_fst_filter {A B : Type} (f : A * B -> bool) (l : list (A * B)) :
  NoDup (map fst l) -> NoDup (map fst (filter f l)).
Proof.
  induction l as [|x l IH]; cbn [map filter]; intros H; [constructor|].
  inversion H as [|y l' Hx Hl]; subst.
  destruct (f x); [|apply IH, Hl]. cbn [map]. constructor; [|apply IH, Hl].
  intros Hin. apply Hx. apply in_map_iff in Hin as (z & Hz & Hin).
  apply filter_In in Hin as [Hin _]. apply in_map_iff. exists z. auto.
Qed.

Lemma map_fst_combine_seq {A : Type} (l : list A) :
  forall s, map fst (combine (seq s (List.length l)) l) = seq s (List.length l).
Proof.
  induction l as [|x l IH]; intros s; cbn; [reflexivity|]. f_equal. apply IH.
Qed.

Lemma listeners_NoDup (win : Window) (viewportOnly : bool) (images : list Image) :
  NoDup (listeners_of win viewportOnly images).
Proof.
  unfold listeners_of, unloadedImages, targetImages, document_images.
  apply NoDup_map_fst_filter.
  assert (H : NoDup (map fst (combine (seq 0 (List.length images)) images))).
  { rewrite map_fst_combine_seq. apply seq_NoDup. }
  destruct viewportOnly; [apply NoDup_map_fst_filter|]; exact H.
Qed.

(** The promise resolves at [settle_time], or at once when nothing is
    pending. *)
Lemma resolves_at_settle (maxWait : Z) (viewportOnly : bool) (win : Window)
      (images : list Image) (events : list ImageEvent) :
  let relevant := listeners_of win viewportOnly images in
  resolves_at maxWait viewportOnly win images events =
  Some (match relevant with
        | [] => 0
        | _ :: _ => settle_time maxWait relevant (List.length relevant) events
        end).
Proof.
  intros relevant. unfold resolves_at, waitForImages_script. fold relevant.
  destruct relevant as [|i others]; [reflexivity|].
  cbn [List.length Nat.eqb].
  rewrite (script_settles maxWait (i :: others) events); cbn; try reflexivity.
  lia.
Qed.

(** ** [scrollToBottom] *)

Lemma run_interval_stops (scrollHeightAt : nat -> Z) :
  forall (n fuel k : nat) (st : Scroller),
    timer st = true ->
    (forall j, (j < n)%nat ->
               totalHeight st + 300 * Z.of_nat (S j) < scrollHeightAt (k + j)%nat) ->
    scrollHeightAt (k + n)%nat <= totalHeight st + 300 * Z.of_nat (S n) ->
    (n < fuel)%nat ->
    run_interval fuel k scrollHeightAt st =
    {| totalHeight := totalHeight st + 300 * Z.of_nat (S n);
       timer := false;
       calls := calls st ++ repeat (scrollBy 0 300) (S n) ++ [scrollTo 0 0];
       resolve_due := Some (100 * Z.of_nat (k + n) + 200) |}.
Proof.
  induction n as [|n IH]; intros fuel k st Htimer Hbelow Hreach Hfuel;
    (destruct fuel as [|fuel]; [lia|]); cbn [run_interval]; rewrite Htimer.
  - unfold interval_callback, distance, delay. cbn [totalHeight calls].
    rewrite Nat.add_0_r in *.
    destruct (Z.geb_spec (totalHeight st + 300) (scrollHeightAt k)); [|lia].
    destruct fuel; cbn [run_interval timer repeat app];
      rewrite <- app_assoc; repeat f_equal; lia.
  - unfold interval_callback, distance, delay. cbn [totalHeight calls].
    specialize (Hbelow 0%nat ltac:(lia)) as H0. rewrite Nat.add_0_r in H0.
    destruct (Z.geb_spec (totalHeight st + 300) (scrollHeightAt k)); [lia|].
    rewrite (IH fuel (S k)); cbn [timer totalHeight calls resolve_due].
    + f_equal; try lia.
      * rewrite <- app_assoc. reflexivity.
      * f_equal. lia.
    + exact Htimer.
    + intros j Hj. specialize (Hbelow (S j) ltac:(lia)).
      replace (S k + j)%nat with (k + S j)%nat by lia. lia.
    + replace (S k + n)%nat with (k + S n)%nat by lia. lia.
    + lia.
Qed.

End InPageFacts.

(* ================================================================== *)
(** * Readiness and navigation *)
(* ================================================================== *)

Module ReadinessFacts.
Import Pool Async PoolOps Screenshot InPage.
Import AsyncFacts PoolFacts CaptureFacts InPageFacts.

Lemma plan_image_waits (options : ScreenshotOptions) (blockAds : bool) (pg : handle) :
  image_waits_are 5000 (negb (truthy (fullPage options)))
                  (planned_ops options blockAds pg) = true.
Proof.
  unfold planned_ops, setup_ops, navigation_op, readiness_ops, delay_ops,
    export_op.
  destruct blockAds, (truthy (fullPage options)), (Screenshot.delay options) as [d|],
    (type options) as [[| |]|]; try destruct (0 <? d); reflexivity.
Qed.

Lemma plan_scroll_first (options : ScreenshotOptions) (blockAds : bool) (pg : handle) :
  truthy (fullPage options) = true ->
  scroll_precedes_images false (planned_ops options blockAds pg) = true /\
  In (OpEvaluate pg ScrollScript) (planned_ops options blockAds pg).
Proof.
  intros H.
  unfold planned_ops, setup_ops, navigation_op, readiness_ops, delay_ops,
    export_op. rewrite H.
  destruct blockAds, (Screenshot.delay options) as [d|], (type options) as [[| |]|];
    try destruct (0 <? d); cbn; auto 10.
Qed.

Lemma plan_no_scroll (options : ScreenshotOptions) (blockAds : bool) (pg : handle) :
  truthy (fullPage options) = false ->
  existsb is_scroll (planned_ops options blockAds pg) = false.
Proof.
  intros H.
  unfold planned_ops, setup_ops, navigation_op, readiness_ops, delay_ops,
    export_op. rewrite H.
  destruct blockAds, (Screenshot.delay options) as [d|], (type options) as [[| |]|];
    try destruct (0 <? d); reflexivity.
Qed.

(** The promise of [waitForImages] resolves by [maxWait] at the
    latest; no later than the moment every relevant image (pending, and
    inside the viewport when [viewportOnly]) has fired [load] or
    [error]; at once when there is none; events on other images do not
    move it; and where no image fires twice, resolving before the
    timeout means every relevant image has reported. *)
Theorem image_wait_bounded_and_scoped
    (maxWait : Z) (viewportOnly : bool) (win : Window)
    (images : list Image) (events : list ImageEvent) :
  0 <= maxWait ->
  in_time_order events ->
  let relevant := listeners_of win viewportOnly images in
  (exists t,
      resolves_at maxWait viewportOnly win images events = Some t /\
      t <= maxWait /\
      (forall t', 0 <= t' -> all_reported_by events relevant t' -> t <= t') /\
      (report_once events -> t < maxWait -> all_reported_by events relevant t)) /\
  (relevant = [] ->
   resolves_at maxWait viewportOnly win images events = Some 0) /\
  (forall i, In i relevant <->
             exists img, nth_error images i = Some img /\
                         (viewportOnly = true -> in_viewport win img = true) /\
                         complete img = false) /\
  resolves_at maxWait viewportOnly win images events
  = resolves_at maxWait viewportOnly win images
                (filter (listened relevant) events).
Proof.
  intros Hmax Hord relevant.
  pose proof (resolves_at_settle maxWait viewportOnly win images events) as Hres.
  pose proof (resolves_at_settle maxWait viewportOnly win images
                (filter (listened relevant) events)) as Hres'.
  cbn zeta in Hres, Hres'. fold relevant in Hres, Hres'.
  pose proof (listeners_NoDup win viewportOnly images) as Hnd.
  fold relevant in Hnd.
  split; [|split; [|split]].
  - eexists. split; [exact Hres|]. destruct relevant as [|i others] eqn:Hrel.
    + split; [exact Hmax|]. split; [intros; assumption|].
      intros _ _ i [].
    + split; [apply settle_time_bounded|]. split.
      * intros t' _ Hall.
        apply (settle_time_all_reported maxWait (i :: others) events Hord
                 (List.length (i :: others)) (i :: others) t');
          [cbn; lia|exact Hnd|apply incl_refl|exact Hall].
      * intros Honce Hearly.
        destruct (settle_time_early maxWait (i :: others) events Hord
                    (List.length (i :: others)) _ ltac:(cbn; lia) eq_refl Hearly)
          as (es & Hlen & Hes & Hnd').
        specialize (Hnd' Honce).
        assert (Hincl : incl (i :: others) (map target es)).
        { apply NoDup_length_incl; [exact Hnd'| |].
          - rewrite length_map, Hlen. apply Nat.le_refl.
          - intros j Hj. apply in_map_iff in Hj as (e & <- & He).
            apply Hes, He. }
        intros j Hj. apply Hincl in Hj. apply in_map_iff in Hj as (e & <- & He).
        exists e. destruct (Hes e He) as (Hin & _ & Hle). auto.
  - intros Hrel. rewrite Hres, Hrel. reflexivity.
  - intros i. apply listeners_spec.
  - rewrite Hres, Hres'. destruct relevant as [|i others]; [reflexivity|].
    f_equal. apply settle_time_scope, Hord.
Qed.

(** C5.  The promise counts notifications, not images.  Two images
    in view are pending; the first fires [load] at 10 ms and again at
    20 ms (its source was replaced), the second reports nothing.  The
    events are in time order, both images carry the listeners, and the
    promise resolves at 20 ms, far from the limit of 5 s, while the
    second image has neither loaded nor failed; the same for a full
    page. *)
Theorem image_wait_counts_notifications :
  let relevant :=
    listeners_of Examples.a_window true Examples.two_pending_images in
  relevant = [0%nat; 1%nat] /\
  in_time_order Examples.double_load /\
  resolves_at 5000 true Examples.a_window Examples.two_pending_images
              Examples.double_load = Some 20 /\
  resolves_at 5000 false Examples.a_window Examples.two_pending_images
              Examples.double_load = Some 20 /\
  20 < 5000 /\
  ~ reported_by Examples.double_load 20 1%nat /\
  ~ all_reported_by Examples.double_load relevant 20.
Proof.
  assert (Hnot : ~ reported_by Examples.double_load 20 1%nat).
  { intros (e & [<-|[<-|[]]] & Htarget & _); discriminate. }
  cbn zeta.
  split; [reflexivity|].
  split; [cbn; intuition (subst; cbn; lia)|].
  split; [reflexivity|]. split; [reflexivity|]. split; [lia|].
  split; [exact Hnot|].
  intros Hall. apply Hnot, Hall. right. left. reflexivity.
Qed.

(** C9.  For a full-page capture, whenever the image wait is started the
    scroll pass is the operation right before it, and a capture that
    succeeds has run it; for a viewport capture no scroll pass is ever
    started.  In the page, the pass calls [scrollBy(0, 300)] every
    100 ms, reading the height of the page each time, until the distance
    scrolled reaches the height just read, then [scrollTo(0, 0)], and
    resolves 200 ms later. *)
Theorem scroll_pass_before_image_wait :
  (forall options blockAds pg env w,
      let ops := ops_started (capture_try options blockAds pg) env w in
      (truthy (fullPage options) = true ->
       scroll_precedes_images false ops = true /\
       (forall b, snd (exec (capture_try options blockAds pg) env w) = Fulfilled b ->
                  In (OpEvaluate pg ScrollScript) ops)) /\
      (truthy (fullPage options) = false -> existsb is_scroll ops = false)) /\
  (forall (scrollHeightAt : nat -> Z) (n fuel : nat),
      (1 <= n)%nat ->
      (forall k, (1 <= k < n)%nat -> 300 * Z.of_nat k < scrollHeightAt k) ->
      scrollHeightAt n <= 300 * Z.of_nat n ->
      (n <= fuel)%nat ->
      scrollToBottom_script fuel scrollHeightAt =
      {| totalHeight := 300 * Z.of_nat n;
         timer := false;
         calls := repeat (scrollBy 0 300) n ++ [scrollTo 0 0];
         resolve_due := Some (100 * Z.of_nat n + 200) |}).
Proof.
  split.
  - intros options blockAds pg env w ops. subst ops.
    destruct (try_ops_started options blockAds pg env w) as (k & Hk & Hfull).
    rewrite Hk. split.
    + intros Hfp. destruct (plan_scroll_first options blockAds pg Hfp) as [H1 H2].
      split; [apply scroll_precedes_images_firstn, H1|].
      intros b Hb. rewrite (Hfull b Hb), firstn_all. exact H2.
    + intros Hfp. apply existsb_firstn, plan_no_scroll, Hfp.
  - intros scrollHeightAt n fuel Hn Hbelow Hreach Hfuel.
    destruct n as [|n]; [lia|]. unfold scrollToBottom_script.
    rewrite (run_interval_stops scrollHeightAt n fuel 1);
      cbn [totalHeight timer calls].
    + first [reflexivity | repeat f_equal; lia].
    + reflexivity.
    + intros j Hj. specialize (Hbelow (S j) ltac:(lia)).
      replace (1 + j)%nat with (S j) by lia. lia.
    + replace (1 + n)%nat with (S n) by lia. lia.
    + lia.
Qed.

(** C8.  Once the page is set up, the next operation [capture] starts is
    the navigation to the target, waiting for [domcontentloaded] with a
    limit of 30000 ms; with Playwright settling it, it takes at most
    30 s, it is fulfilled as soon as the document is parsed whatever the
    later states do, and when the document is not parsed within 30 s
    [capture] rejects with the timeout error. *)
Theorem navigation_waits_for_parse_within_30s
    (options : ScreenshotOptions) (env : Oracle) (nav : Playwright.Navigation)
    (w w1 wn : World) (acq : Acquired) (v : Val) :
  exec (await_call acquirePage) env w = (w1, Fulfilled acq) ->
  Playwright.navigates env (url options) nav ->
  follow env (setup_ops options (nullish_or (blockAds options) true)
                        (acquired_page acq)) VUnit w1 = (wn, Fulfilled v) ->
  let nav_op := OpGoto (acquired_page acq) (url options)
                       (Some domcontentloaded) (Some 30000) in
  (exists rest,
      w_trace (fst (exec (capture options) env w)) = w_trace wn ++ nav_op :: rest) /\
  Z.of_N (snd (answer env wn nav_op)) <= 30000 /\
  (forall t, Playwright.reaches nav domcontentloaded = Some t -> t <= 30000 ->
             answer env wn nav_op = (Fulfilled VUnit, Z.to_N t)) /\
  ((forall t, Playwright.reaches nav domcontentloaded = Some t -> 30000 < t) ->
   snd (exec (capture options) env w) = Rejected Playwright.TimeoutError /\
   snd (answer env wn nav_op) = 30000%N).
Proof.
  intros Hacq Hnav Hsetup nav_op.
  assert (Hans : answer env wn nav_op
                 = Playwright.goto nav (Some domcontentloaded) (Some 30000)).
  { unfold answer. cbn [is_tick nav_op]. apply Hnav. }
  destruct (exec (capture_try options (nullish_or (blockAds options) true)
                    (acquired_page acq)) env w1) as [w2 primary] eqn:Htry.
  destruct (capture_unfolds options env w w1 w2 acq primary Hacq Htry)
    as (w5 & r & rest & _ & _ & _ & Htrace & Hcap).
  rewrite capture_try_follows_plan in Htry. unfold planned_ops in Htry.
  rewrite follow_app, Hsetup in Htry. cbn [app] in Htry.
  rewrite follow_cons in Htry. fold nav_op in Htry.
  unfold navigation_op in Htry. fold nav_op in Htry.
  split; [|split; [|split]].
  - rewrite Hcap. cbn [fst]. rewrite Htrace.
    destruct (answer env wn nav_op) as [[v'|e] dt].
    + match type of Htry with buffer_outcome (follow ?e ?ops ?l ?w0) = _ =>
        destruct (exec_trace_follow e ops l w0) as [more Hmore];
        remember (follow e ops l w0) as res eqn:Hres; clear Hres;
        destruct res as [w' o]
      end.
      cbn [buffer_outcome fst] in *.
      injection Htry as <- _. rewrite Hmore. cbn [elapse started w_trace is_tick nav_op].
      exists (more ++ [OpUnrouteAll (acquired_page acq) "wait";
                       OpGoto (acquired_page acq) "about:blank" None None] ++ rest).
      rewrite <- !app_assoc. reflexivity.
    + cbn [buffer_outcome] in Htry. injection Htry as <- _.
      cbn [elapse started w_trace is_tick nav_op].
      eexists. rewrite <- !app_assoc. reflexivity.
  - rewrite Hans. unfold Playwright.goto. cbn [nullish_or].
    destruct (Playwright.reaches nav domcontentloaded) as [t|]; [|cbn; lia].
    destruct (Z.leb_spec t 30000); cbn [snd]; lia.
  - intros t Ht Hle. rewrite Hans. unfold Playwright.goto. cbn [nullish_or].
    rewrite Ht. destruct (Z.leb_spec t 30000); [reflexivity|lia].
  - intros Hlate. rewrite Hcap. cbn [snd].
    rewrite Hans in *. unfold Playwright.goto in *. cbn [nullish_or] in *.
    destruct (Playwright.reaches nav domcontentloaded) as [t|].
    + specialize (Hlate t eq_refl).
      destruct (Z.leb_spec t 30000); [lia|].
      cbn [buffer_outcome] in Htry. injection Htry as _ <-. split; reflexivity.
    + cbn [buffer_outcome] in Htry. injection Htry as _ <-. split; reflexivity.
Qed.

Lemma image_wait_bounded_and_scoped_witness :
  let maxWait := 5000 in
  let win := Examples.a_window in
  let images := Examples.three_images in
  let events := Examples.one_load in
  let relevant := listeners_of win true images in
  0 <= maxWait /\
  in_time_order events /\
  ((exists t,
       resolves_at maxWait true win images events = Some t /\
       t <= maxWait /\
       (forall t', 0 <= t' -> all_reported_by events relevant t' -> t <= t') /\
       (report_once events -> t < maxWait -> all_reported_by events relevant t)) /\
   (relevant = [] -> resolves_at maxWait true win images events = Some 0) /\
   (forall i, In i relevant <->
              exists img, nth_error images i = Some img /\
                          (true = true -> in_viewport win img = true) /\
                          complete img = false) /\
   resolves_at maxWait true win images events
   = resolves_at maxWait true win images (filter (listened relevant) events)).
Proof.
  intros maxWait win images events relevant.
  assert (H1 : 0 <= maxWait) by (vm_compute; discriminate).
  assert (H2 : in_time_order events) by (cbn; split; [intros e' []|exact I]).
  split; [exact H1|]. split; [exact H2|].
  exact (image_wait_bounded_and_scoped maxWait true win images events H1 H2).
Defined.

Lemma scroll_pass_before_image_wait_witness :
  (1 <= 4)%nat /\
  (forall k, (1 <= k < 4)%nat -> 300 * Z.of_nat k < Examples.growing_page k) /\
  Examples.growing_page 4 <= 300 * Z.of_nat 4 /\
  (4 <= 10)%nat /\
  scrollToBottom_script 10 Examples.growing_page =
  {| totalHeight := 300 * Z.of_nat 4;
     timer := false;
     calls := repeat (scrollBy 0 300) 4 ++ [scrollTo 0 0];
     resolve_due := Some (100 * Z.of_nat 4 + 200) |}.
Proof.
  assert (H1 : (1 <= 4)%nat) by lia.
  assert (H2 : forall k, (1 <= k < 4)%nat ->
                         300 * Z.of_nat k < Examples.growing_page k).
  { intros k Hk. destruct k as [|[|[|[|k]]]]; try lia; vm_compute; reflexivity. }
  assert (H3 : Examples.growing_page 4 <= 300 * Z.of_nat 4)
    by (vm_compute; discriminate).
  assert (H4 : (4 <= 10)%nat) by lia.
  split; [exact H1|]. split; [exact H2|]. split; [exact H3|]. split; [exact H4|].
  exact (proj2 scroll_pass_before_image_wait Examples.growing_page 4%nat 10%nat
           H1 H2 H3 H4).
Defined.

Lemma navigation_waits_for_parse_within_30s_witness :
  let options := Examples.options_for "https://example.com" in
  let env := Examples.busy_site_env in
  let nav := Examples.busy_site in
  let w := Examples.idle_world in
  let w1 := fst (exec (await_call acquirePage) env w) in
  let acq := Examples.the_acquired in
  let wn := fst (follow env (setup_ops options true 11%nat) VUnit w1) in
  let nav_op := OpGoto (acquired_page acq) (url options)
                       (Some domcontentloaded) (Some 30000) in
  exec (await_call acquirePage) env w = (w1, Fulfilled acq) /\
  Playwright.navigates env (url options) nav /\
  follow env (setup_ops options (nullish_or (blockAds options) true)
                        (acquired_page acq)) VUnit w1 = (wn, Fulfilled VUnit) /\
  ((exists rest,
       w_trace (fst (exec (capture options) env w)) = w_trace wn ++ nav_op :: rest) /\
   Z.of_N (snd (answer env wn nav_op)) <= 30000 /\
   (forall t, Playwright.reaches nav domcontentloaded = Some t -> t <= 30000 ->
              answer env wn nav_op = (Fulfilled VUnit, Z.to_N t)) /\
   ((forall t, Playwright.reaches nav domcontentloaded = Some t -> 30000 < t) ->
    snd (exec (capture options) env w) = Rejected Playwright.TimeoutError /\
    snd (answer env wn nav_op) = 30000%N)).
Proof.
  intros options env nav w w1 acq wn nav_op.
  assert (H1 : exec (await_call acquirePage) env w = (w1, Fulfilled acq))
    by (vm_compute; reflexivity).
  assert (H2 : Playwright.navigates env (url options) nav)
    by (intros n pg waitUntil timeout; reflexivity).
  assert (H3 : follow env (setup_ops options (nullish_or (blockAds options) true)
                             (acquired_page acq)) VUnit w1 = (wn, Fulfilled VUnit))
    by (vm_compute; reflexivity).
  split; [exact H1|]. split; [exact H2|]. split; [exact H3|].
  exact (navigation_waits_for_parse_within_30s options env nav w w1 wn acq VUnit
           H1 H2 H3).
Defined.

Lemma plan_no_route (options : ScreenshotOptions) (pg : handle) :
  existsb is_route (planned_ops options false pg) = false.
Proof.
  unfold planned_ops, setup_ops, navigation_op, readiness_ops, delay_ops,
    export_op.
  destruct (truthy (fullPage options)), (Screenshot.delay options) as [d|],
    (type options) as [[| |]|]; try destruct (0 <? d); reflexivity.
Qed.

Lemma plan_has_image_wait (options : ScreenshotOptions) (blockAds : bool)
      (pg : handle) :
  In (OpEvaluate pg (ImagesScript 5000 (negb (truthy (fullPage options)))))
     (planned_ops options blockAds pg).
Proof.
  unfold planned_ops, setup_ops, navigation_op, readiness_ops, delay_ops,
    export_op.
  destruct blockAds, (truthy (fullPage options)), (Screenshot.delay options) as [d|],
    (type options) as [[| |]|]; try destruct (0 <? d); cbn; auto 10.
Qed.

(** A capture that succeeds has waited for the images of its scope
    (the viewport, or the whole page for a full-page capture) with the
    limit of 5000 ms, and no image wait is ever started with another
    limit or scope. *)
Theorem capture_waits_for_images
    (options : ScreenshotOptions) (blockAds : bool) (pg : handle)
    (env : Oracle) (w : World) :
  let ops := ops_started (capture_try options blockAds pg) env w in
  (forall bytes,
      snd (exec (capture_try options blockAds pg) env w) = Fulfilled bytes ->
      In (OpEvaluate pg (ImagesScript 5000 (negb (truthy (fullPage options)))))
         ops) /\
  image_waits_are 5000 (negb (truthy (fullPage options))) ops = true.
Proof.
  cbn zeta.
  destruct (try_ops_started options blockAds pg env w) as (n & Hn & Hfull).
  rewrite Hn. split.
  - intros bytes Hok. rewrite (Hfull bytes Hok), firstn_all.
    apply plan_has_image_wait.
  - apply forallb_firstn, plan_image_waits.
Qed.

(** Requests are intercepted unless [blockAds] is [false]: with
    [false] no route is installed; otherwise (the default) a capture
    that succeeds has installed the route for every URL first, and the
    handler aborts a request exactly when [shouldBlockUrl] says so. *)
Theorem interception_follows_blockAds
    (options : ScreenshotOptions) (pg : handle) (env : Oracle) (w : World) :
  let enabled := nullish_or (blockAds options) true in
  let ops := ops_started (capture_try options enabled pg) env w in
  (blockAds options = Some false -> existsb is_route ops = false) /\
  (blockAds options <> Some false ->
   forall bytes,
     snd (exec (capture_try options enabled pg) env w) = Fulfilled bytes ->
     hd_error ops = Some (OpRoute pg "**/*")) /\
  (forall u,
      (route_handler u = Some route_abort <->
       Blocklist.shouldBlockUrl u = Some true) /\
      (route_handler u = Some route_continue <->
       Blocklist.shouldBlockUrl u = Some false)).
Proof.
  cbn zeta. split; [|split].
  - intros ->. cbn [nullish_or].
    destruct (try_ops_started options false pg env w) as (n & -> & _).
    apply existsb_firstn, plan_no_route.
  - intros Hon bytes Hok.
    assert (He : nullish_or (blockAds options) true = true).
    { destruct (blockAds options) as [[|]|]; try reflexivity. congruence. }
    rewrite He in *.
    destruct (try_ops_started options true pg env w) as (n & Hn & Hfull).
    rewrite Hn, (Hfull bytes Hok), firstn_all. reflexivity.
  - intros u. unfold route_handler.
    destruct (Blocklist.shouldBlockUrl u) as [[|]|]; cbn [option_map];
      split; split; congruence.
Qed.

End ReadinessFacts.

(* ================================================================== *)
(** * Batches *)
(* ================================================================== *)

Module BatchFacts.
Import Pool Async PoolOps Screenshot Index.

Lemma allSettled_spec {A : Type} (s : System A) :
  forall (n first : nat) (results : list (Outcome A)),
    allSettled s first n = Some results ->
    List.length results = n /\
    forall i o, nth_error results i = Some o -> result_of s (first + i) = Some o.
Proof.
  induction n as [|n IH]; intros first results H; cbn [allSettled] in H.
  - injection H as <-. split; [reflexivity|]. intros [|i] o Hi; discriminate.
  - destruct (result_of s first) as [o0|] eqn:H0; [|discriminate].
    destruct (allSettled s (S first) n) as [rest|] eqn:Hrest; [|discriminate].
    injection H as <-. destruct (IH (S first) rest Hrest) as [Hlen Hnth].
    split; [cbn; f_equal; exact Hlen|].
    intros [|i] o Hi; cbn [nth_error] in Hi.
    + injection Hi as <-. rewrite Nat.add_0_r. exact H0.
    + replace (first + S i)%nat with (S first + i)%nat by lia. apply Hnth, Hi.
Qed.

Lemma map_index_length {A B : Type} (f : A -> nat -> B) (l : list A) :
  forall k, List.length (map_index f k l) = List.length l.
Proof.
  induction l as [|a l IH]; intros k; cbn; [reflexivity|]. f_equal. apply IH.
Qed.

Lemma map_index_nth {A B : Type} (f : A -> nat -> B) (l : list A) :
  forall k i,
    nth_error (map_index f k l) i
    = option_map (fun a => f a (k + i)%nat) (nth_error l i).
Proof.
  induction l as [|a l IH]; intros k [|i]; cbn [map_index nth_error option_map];
    try reflexivity.
  - rewrite Nat.add_0_r. reflexivity.
  - rewrite IH. replace (S k + i)%nat with (k + S i)%nat by lia. reflexivity.
Qed.

Lemma string_or_nonempty (s : option string) :
  string_or s "Screenshot failed" <> EmptyString.
Proof. destruct s as [[|c s]|]; cbn; discriminate. Qed.

Lemma allSettled_complete {A : Type} (s : System A) :
  forall (n first : nat),
    (forall i, (i < n)%nat -> result_of s (first + i) <> None) ->
    exists results, allSettled s first n = Some results.
Proof.
  induction n as [|n IH]; intros first H; cbn [allSettled].
  - exists []. reflexivity.
  - pose proof (H 0%nat ltac:(lia)) as H0. rewrite Nat.add_0_r in H0.
    destruct (result_of s first) as [o|]; [|congruence].
    destruct (IH (S first)) as [rest Hrest].
    { intros i Hi. replace (S first + i)%nat with (first + S i)%nat by lia.
      apply H. lia. }
    rewrite Hrest. exists (o :: rest). reflexivity.
Qed.

(** C6.  Once every capture of a batch has settled, fulfilled or
    rejected, [captureMany] settles with a list: one entry per request,
    in the order of the requests; the entry of a request carries its URL
    and the outcome of its own capture alone: [success] with the bytes
    if that capture was fulfilled, no [success] and a non-empty [error]
    if it was rejected.  A rejected capture neither rejects the batch
    nor changes the entry of another request. *)
Theorem captureMany_isolates_failures
    (optionsArray : list ScreenshotOptions) (schedule : list (Action Buffer))
    (w : World) (s : System Buffer) :
  run (start_all optionsArray ++ schedule) (mkSystem w []) = Some s ->
  (forall i, (i < List.length optionsArray)%nat -> result_of s i <> None) ->
  exists entries,
    captureMany optionsArray schedule w = Some entries /\
    List.length entries = List.length optionsArray /\
    forall i opts,
      nth_error optionsArray i = Some opts ->
      exists o entry,
        result_of s i = Some o /\
        nth_error entries i = Some entry /\
        entry_url entry = url opts /\
        match o with
        | Fulfilled bytes =>
            success entry = true /\ buffer entry = Some bytes /\ error entry = None
        | Rejected reason =>
            success entry = false /\ buffer entry = None /\
            exists msg, error entry = Some msg /\ msg <> EmptyString
        end.
Proof.
  intros Hrun Hsettled. unfold captureMany. rewrite Hrun.
  destruct (allSettled_complete s (List.length optionsArray) 0 Hsettled)
    as [results Hall].
  rewrite Hall. eexists. split; [reflexivity|].
  destruct (allSettled_spec s _ _ _ Hall) as [Hlen Hres].
  split; [rewrite map_index_length; exact Hlen|].
  intros i opts Hi.
  assert (Hlt : (i < List.length results)%nat).
  { rewrite Hlen. apply nth_error_Some. congruence. }
  destruct (nth_error results i) as [o|] eqn:Ho;
    [|apply nth_error_None in Ho; lia].
  exists o, (to_entry (url opts) o).
  split; [apply (Hres i o Ho)|]. split.
  - rewrite map_index_nth, Ho. cbn [option_map Nat.add].
    rewrite (nth_error_nth _ _ no_options Hi). reflexivity.
  - destruct o as [bytes|reason]; cbn [to_entry entry_url success buffer error].
    + auto.
    + split; [reflexivity|]. split; [reflexivity|]. split; [reflexivity|].
      eexists. split; [reflexivity|apply string_or_nonempty].
Qed.

(** The batch of the README on a pool of two pages, the captures
    interleaved, the second URL failing to resolve: the batch settles
    with the bytes of the first and the error of the second. *)
Lemma captureMany_isolates_failures_witness :
  exists s,
    run (start_all Examples.batch ++ Examples.batch_schedule)
        (mkSystem Examples.two_page_world []) = Some s /\
    result_of s 0 = Some (Fulfilled Examples.png_bytes) /\
    result_of s 1 = Some (Rejected (Error "net::ERR_NAME_NOT_RESOLVED")) /\
    exists entries,
      captureMany Examples.batch Examples.batch_schedule Examples.two_page_world
      = Some entries /\
      List.length entries = List.length Examples.batch /\
      forall i opts,
        nth_error Examples.batch i = Some opts ->
        exists o entry,
          result_of s i = Some o /\
          nth_error entries i = Some entry /\
          entry_url entry = url opts /\
          match o with
          | Fulfilled bytes =>
              success entry = true /\ buffer entry = Some bytes /\ error entry = None
          | Rejected reason =>
              success entry = false /\ buffer entry = None /\
              exists msg, error entry = Some msg /\ msg <> EmptyString
          end.
Proof.
  eexists.
  split; [vm_compute; reflexivity|].
  split; [reflexivity|]. split; [reflexivity|].
  apply (captureMany_isolates_failures Examples.batch Examples.batch_schedule
           Examples.two_page_world).
  - vm_compute. reflexivity.
  - intros [|[|i]] Hi; cbn in Hi; try lia; discriminate.
Defined.

(** ** The response of [POST /batch] *)

Lemma Math_round_quotient (d : Z) (n : positive) :
  Math_round (Qmake d n) = (2 * d + Z.pos n) / (2 * Z.pos n).
Proof.
  unfold Math_round, Qplus, Qfloor. cbn [Qnum Qden].
  f_equal; lia.
Qed.

(** C7, against the claim as it stands: the response has no
    [successCount] and no [failedCount], and its [avgMs] is rounded: for
    two items in 5 ms it is 3. *)
Lemma batch_response_lacks_counts :
  let response :=
    batch_response (fun b : Buffer => EmptyString) 0 5
      ["https://example.com"; "https://invalid-url.test"] None
      [Examples.png_bytes; Examples.png_bytes] in
  field "successCount" response = None /\
  field "failedCount" response = None /\
  field "count" response = Some (JNum 2) /\
  field "durationMs" response = Some (JNum 5) /\
  field "avgMs" response = Some (JNum 3) /\
  3 * 2 <> 5.
Proof. vm_compute. repeat split; discriminate. Qed.

(** C7, amended.  For a batch that is not empty the response carries
    [count], the number of items; [durationMs], the time between the two
    readings of the clock; [avgMs], the duration divided by the count
    and rounded to the nearest integer, halves upwards; and [results],
    one item per entry. *)
Theorem batch_response_aggregates
    {X : Type} (toBase64 : X -> string) (startTime now : Z)
    (urls : list string) (globalType : option OutputType)
    (screenshots : list X) :
  screenshots <> [] ->
  let response := batch_response toBase64 startTime now urls globalType screenshots in
  let count := Z.of_nat (List.length screenshots) in
  let duration := now - startTime in
  field "count" response = Some (JNum count) /\
  field "durationMs" response = Some (JNum duration) /\
  (exists avg,
      field "avgMs" response = Some (JNum avg) /\
      2 * count * avg <= 2 * duration + count < 2 * count * (avg + 1)) /\
  (exists items,
      field "results" response = Some (JArr items) /\
      List.length items = List.length screenshots).
Proof.
  intros Hne response count duration. subst response.
  unfold batch_response. cbn [field lookup String.eqb Ascii.eqb Bool.eqb].
  rewrite map_index_length. fold count. fold duration.
  split; [reflexivity|]. split; [reflexivity|]. split.
  - destruct screenshots as [|x rest]; [congruence|].
    cbn [List.length] in *. eexists. split; [reflexivity|].
    rewrite Math_round_quotient.
    assert (Hpos : Z.pos (Pos.of_nat (S (List.length rest))) = count).
    { subst count. rewrite <- Pos.of_nat_succ. lia. }
    rewrite Hpos.
    assert (Hc : 0 < count) by lia.
    pose proof (Z.div_mod (2 * duration + count) (2 * count) ltac:(lia)) as Hdm.
    pose proof (Z.mod_pos_bound (2 * duration + count) (2 * count) ltac:(lia)) as Hb.
    nia.
  - eexists. split; [reflexivity|]. apply map_index_length.
Qed.

Lemma batch_response_aggregates_witness :
  let screenshots := [Examples.png_bytes; Examples.png_bytes] in
  let response :=
    batch_response (fun b : Buffer => EmptyString) 0 5
      ["https://example.com"; "https://invalid-url.test"] None screenshots in
  screenshots <> [] /\
  (field "count" response = Some (JNum (Z.of_nat (List.length screenshots))) /\
   field "durationMs" response = Some (JNum (5 - 0)) /\
   (exists avg,
       field "avgMs" response = Some (JNum avg) /\
       2 * Z.of_nat (List.length screenshots) * avg
       <= 2 * (5 - 0) + Z.of_nat (List.length screenshots)
       < 2 * Z.of_nat (List.length screenshots) * (avg + 1)) /\
   (exists items,
       field "results" response = Some (JArr items) /\
       List.length items = List.length screenshots)).
Proof.
  intros screenshots response.
  split; [discriminate|].
  apply (batch_response_aggregates (fun b : Buffer => EmptyString) 0 5
           ["https://example.com"; "https://invalid-url.test"] None screenshots).
  discriminate.
Defined.

End BatchFacts.
(* ================================================================== *)
(** * No two captures hold the same pooled page *)
(* ================================================================== *)

Module ExclusionFacts.
Import Pool Async PoolOps Screenshot Exclusion.
Import AsyncFacts PoolFacts.
Local Open Scope prog_scope.

(** ** Lists *)

Lemma nth_error_write_at {A : Type} (l : list A) (x : A) :
  forall i j,
    nth_error (write_at l i x) j =
    if Nat.eqb i j
    then match nth_error l i with Some _ => Some x | None => None end
    else nth_error l j.
Proof.
  induction l as [|y l IH]; intros [|i] [|j]; cbn [write_at nth_error Nat.eqb];
    try reflexivity.
  - destruct (Nat.eqb i j); reflexivity.
  - apply IH.
Qed.

Lemma Forall2_write_at {A B : Type} (R : A -> B -> Prop) (x : A) (y : B) :
  forall l l' i,
    Forall2 R l l' -> R x y -> Forall2 R (write_at l i x) (write_at l' i y).
Proof.
  intros l l' i H Hxy. revert i.
  induction H as [|a b l l' Hab H IH]; intros [|i]; cbn [write_at];
    constructor; auto.
Qed.

Lemma Forall2_nth_error_l {A B : Type} (R : A -> B -> Prop) :
  forall l l' i a,
    Forall2 R l l' -> nth_error l i = Some a ->
    exists b, nth_error l' i = Some b /\ R a b.
Proof.
  intros l l' i a H. revert i.
  induction H as [|x y l l' Hxy H IH]; intros [|i] Hi; cbn [nth_error] in *;
    try discriminate.
  - injection Hi as <-. exists y. auto.
  - apply IH, Hi.
Qed.

Lemma Forall2_nth_error_r {A B : Type} (R : A -> B -> Prop) :
  forall l l' i b,
    Forall2 R l l' -> nth_error l' i = Some b ->
    exists a, nth_error l i = Some a /\ R a b.
Proof.
  intros l l' i b H. revert i.
  induction H as [|x y l l' Hxy H IH]; intros [|i] Hi; cbn [nth_error] in *;
    try discriminate.
  - injection Hi as <-. exists x. auto.
  - apply IH, Hi.
Qed.

Lemma Forall_write_at {A : Type} (P : A -> Prop) (x : A) :
  forall l i, Forall P l -> P x -> Forall P (write_at l i x).
Proof.
  intros l i H Hx. revert i.
  induction H as [|a l Ha H IH]; intros [|i]; cbn [write_at];
    constructor; auto.
Qed.

Lemma splice1_incl {A : Type} (l : list A) :
  forall index, incl (splice1 index l) l.
Proof.
  induction l as [|x l IH]; intros [|index]; cbn [splice1].
  - apply incl_refl.
  - apply incl_refl.
  - apply incl_tl, incl_refl.
  - intros y [<-|Hy]; [left; reflexivity|right; apply (IH index), Hy].
Qed.

(** ** The pool under the writes of the program *)

Lemma extends_refl (keep : ref -> Prop) (pool : BrowserPool) :
  extends keep pool pool.
Proof. split; [apply Nat.le_refl|]. intros r _. auto. Qed.

Lemma extends_eq (keep : ref -> Prop) (pool pool' : BrowserPool) :
  pool' = pool -> extends keep pool pool'.
Proof. intros ->. apply extends_refl. Qed.

Lemma deref_set_inUse_same (pool : BrowserPool) (r : ref) (b : bool) :
  (r < List.length (store pool))%nat ->
  deref (set_inUse r b pool) r
  = {| page := page (deref pool r); context := context (deref pool r);
       inUse := b; createdAt := createdAt (deref pool r) |}.
Proof.
  intros H. unfold deref, set_inUse. cbn [store].
  rewrite nth_write_at_same by exact H. reflexivity.
Qed.

Lemma extends_claim (keep : ref -> Prop) (pool : BrowserPool) (r : ref) :
  extends keep pool (set_inUse r true pool).
Proof.
  split.
  - unfold set_inUse. cbn [store]. rewrite length_write_at. apply Nat.le_refl.
  - intros r' Hr'. destruct (Nat.eq_dec r r') as [<-|Hne].
    + rewrite deref_set_inUse_same by exact Hr'. cbn. auto.
    + rewrite deref_set_inUse_other by exact Hne. auto.
Qed.

Lemma deref_push (pool : BrowserPool) (o : PooledPage) (r : ref) :
  (r < List.length (store pool))%nat ->
  deref (snd (push_new o pool)) r = deref pool r.
Proof.
  intros H. unfold deref, push_new. cbn [snd store]. apply app_nth1, H.
Qed.

Lemma extends_push (keep : ref -> Prop) (pool : BrowserPool) (o : PooledPage) :
  extends keep pool (snd (push_new o pool)).
Proof.
  split.
  - unfold push_new. cbn [snd store]. rewrite length_app. lia.
  - intros r Hr. rewrite deref_push by exact Hr. auto.
Qed.

Lemma extends_release (pool pool' : BrowserPool) (r : ref) :
  store pool' = store (set_inUse r false pool) ->
  extends (fun r' => r' <> r) pool pool'.
Proof.
  intros Hstore. split.
  - rewrite Hstore. unfold set_inUse. cbn [store]. rewrite length_write_at.
    apply Nat.le_refl.
  - intros r' Hr'.
    assert (Hd : forall r'', r'' <> r -> deref pool' r'' = deref pool r'').
    { intros r'' Hne. unfold deref. rewrite Hstore.
      apply (deref_set_inUse_other pool r r'' false). congruence. }
    destruct (Nat.eq_dec r' r) as [->|Hne].
    + split; [|intros Hk; contradiction].
      unfold deref at 1. rewrite Hstore.
      change (page (deref (set_inUse r false pool) r) = page (deref pool r)).
      rewrite deref_set_inUse_same by exact Hr'. reflexivity.
    + rewrite (Hd r' Hne). auto.
Qed.

Lemma status_ok_extends (keep : ref -> Prop) (pool pool' : BrowserPool)
      (st : Status) :
  extends keep pool pool' ->
  (forall r, ref_of st = Some r -> keep r) ->
  status_ok pool st -> status_ok pool' st.
Proof.
  intros [Hlen Hext] Hkeep. destruct st as [|r|r pg]; cbn [status_ok].
  - auto.
  - lia.
  - intros (Hr & Huse & Hpage). destruct (Hext r Hr) as [Hp Hu].
    split; [lia|]. split; [apply Hu; [apply Hkeep; reflexivity|exact Huse]|].
    congruence.
Qed.

Lemma pool_ok_claim (pool : BrowserPool) (r : ref) (b : bool) :
  pool_ok pool -> pool_ok (set_inUse r b pool).
Proof.
  intros H r' Hr'. unfold set_inUse in *. cbn [pages store] in *.
  rewrite length_write_at. apply H, Hr'.
Qed.

Lemma pool_ok_push (pool : BrowserPool) (o : PooledPage) :
  pool_ok pool -> pool_ok (snd (push_new o pool)).
Proof.
  intros H r Hr. unfold push_new in *. cbn [snd pages store] in *.
  rewrite length_app. cbn [List.length].
  apply in_app_or in Hr as [Hr|[<-|[]]]; [apply H in Hr|]; lia.
Qed.

Lemma pool_ok_release (pool pool' : BrowserPool) (r : ref) :
  store pool' = store (set_inUse r false pool) ->
  incl (pages pool') (pages pool) ->
  pool_ok pool -> pool_ok pool'.
Proof.
  intros Hstore Hincl H r' Hr'. rewrite Hstore. unfold set_inUse. cbn [store].
  rewrite length_write_at. apply H, Hincl, Hr'.
Qed.

Lemma find_free_spec (pool : BrowserPool) (r : ref) :
  find_free pool = Some r ->
  In r (pages pool) /\ inUse (deref pool r) = false.
Proof.
  unfold find_free. intros H. apply find_some in H as [Hin Hfree].
  split; [exact Hin|]. apply negb_true_iff, Hfree.
Qed.


(** ** Programs of one page *)

Lemma page_bind (pg : handle) {A B : Type} (p : Prog A) (f : A -> Prog B) :
  PageProg pg p -> (forall a, PageProg pg (f a)) -> PageProg pg (bind p f).
Proof.
  intros Hp Hf. induction Hp as [a|e|op k Hop Hk IH]; cbn [bind].
  - apply Hf.
  - constructor.
  - constructor; assumption.
Qed.

Lemma page_attempt (pg : handle) {A : Type} (p : Prog A) :
  PageProg pg p -> PageProg pg (attempt p).
Proof.
  intros Hp. induction Hp as [a|e|op k Hop Hk IH]; cbn [attempt];
    constructor; assumption.
Qed.

Lemma page_settle (pg : handle) {A : Type} (o : Outcome A) :
  PageProg pg (settle o).
Proof. destruct o; constructor. Qed.

Lemma page_op (pg : handle) (op : ExtOp) :
  page_of_op op = Some pg -> PageProg pg (await op).
Proof.
  intros H. unfold await. constructor; [left; exact H|].
  intros o. apply page_settle.
Qed.

Lemma page_await_call (pg : handle) {A : Type} (p : Prog A) :
  PageProg pg p -> PageProg pg (await_call p).
Proof.
  intros Hp. unfold await_call. apply page_bind; [apply page_attempt, Hp|].
  intros o. constructor; [right; reflexivity|]. intros _. apply page_settle.
Qed.

Ltac page_prog :=
  repeat first
    [ apply page_await_call
    | apply page_op; reflexivity
    | apply page_ret
    | apply page_settle
    | apply page_attempt
    | apply page_bind; [|intros ?] ].

(** The [try] block of [capture] works on the page it was given and on
    nothing else. *)
Lemma page_capture_try (options : ScreenshotOptions) (blockAds : bool)
      (pg : handle) :
  PageProg pg (capture_try options blockAds pg).
Proof.
  unfold capture_try, delay_step, export_step, waitForImages, scrollToBottom.
  apply page_bind; [destruct blockAds; page_prog|intros _].
  apply page_bind; [page_prog|intros _].
  apply page_bind; [page_prog|intros _].
  apply page_bind; [destruct (truthy (fullPage options)); page_prog|intros _].
  apply page_bind.
  - destruct (delay options) as [d|]; [|page_prog].
    destruct (negb (d =? 0) && (d >? 0)); page_prog.
  - intros _. destruct (type options) as [[| |]|]; page_prog.
Qed.

(** ** The stages of [capture] *)

Ltac run_job :=
  unfold world_after, task_after;
  cbn [bind attempt run_sync settle fst snd].

Lemma same_state_started (op : ExtOp) (w : World) : same_state w (started op w).
Proof. split; reflexivity. Qed.

Lemma quiet_same (w w' : World) : same_state w w' -> quiet w w'.
Proof. intros [H1 H2]. split; [exact H1|left; exact H2]. Qed.

(** A capture that only has to settle. *)
Lemma stage_settling (o : Outcome Buffer) :
  Stage Idle (Waiting OpTick (fun _ => settle o)).
Proof.
  apply stage_idle; [reflexivity|].
  intros o' w. left. unfold world_after, task_after.
  destruct o; cbn [settle run_sync fst snd];
    (split; [apply quiet_same; split; reflexivity|apply stage_settled]).
Qed.

(** A capture whose [acquirePage] has failed: [capture] resumes from its
    [await] and rejects. *)
Lemma stage_failed (e : Thrown) (w : World) :
  let p : Prog Buffer := Await OpTick (fun _ => Throw e) in
  same_state w (fst (run_sync p w)) /\ Stage Idle (snd (run_sync p w)).
Proof.
  cbn zeta. cbn [run_sync fst snd]. split; [apply same_state_started|].
  exact (stage_settling (Rejected e)).
Qed.

(** The body of the [try] block, followed by whatever still holds the
    page. *)
Lemma holding_body (r : ref) (pg : handle) {A : Type} (p : Prog A)
      (f : Outcome A -> Prog Buffer) :
  PageProg pg p ->
  (forall o w,
      same_state w (fst (run_sync (f o) w)) /\
      Stage (Holding r pg) (snd (run_sync (f o) w))) ->
  forall w,
    same_state w (fst (run_sync (bind (attempt p) f) w)) /\
    Stage (Holding r pg) (snd (run_sync (bind (attempt p) f) w)).
Proof.
  intros Hp Hf. induction Hp as [a|e|op k Hop Hk IH]; intros w;
    cbn [attempt bind].
  - apply Hf.
  - apply Hf.
  - cbn [run_sync fst snd]. split; [apply same_state_started|].
    apply stage_holding; [exact Hop|].
    intros o w'. left. unfold world_after, task_after. apply IH.
Qed.

(** The detached replacement. *)
Lemma detached_replacement (w : World) :
  let p := catch (createPooledPage ;; Ret tt) console_error in
  w_pool (fst (run_sync p w)) = w_pool w /\
  w_detached (fst (run_sync p w)) = w_detached w /\
  Detached (snd (run_sync p w)).
Proof.
  cbn zeta.
  unfold catch, createPooledPage, get_pool, await, date_now, put_pool,
    console_error.
  cbn [bind attempt run_sync].
  destruct (browser (w_pool w)) as [b|]; cbn [bind attempt run_sync fst snd].
  - split; [reflexivity|]. split; [reflexivity|].
    apply detached_waiting. intros [v|e] w1; run_job.
    + split; [left; apply same_state_started|].
      apply detached_waiting. intros [v'|e'] w2; run_job.
      * split; [right|apply detached_settled].
        split; [eexists; reflexivity|reflexivity].
      * split; [left; split; reflexivity|apply detached_settled].
    + split; [left; split; reflexivity|apply detached_settled].
  - split; [reflexivity|]. split; [reflexivity|]. apply detached_settled.
Qed.

(** [release] has waited for [context.close()]: it starts the
    replacement and returns. *)
Lemma stage_closed (o : Outcome Buffer) (w : World) :
  let p : Prog Buffer :=
    await_call (fork (catch (createPooledPage ;; Ret tt) console_error) ;;
                Ret tt) ;;
    settle o in
  quiet w (fst (run_sync p w)) /\ Stage Idle (snd (run_sync p w)).
Proof.
  cbn zeta. unfold await_call, fork. cbn [bind attempt run_sync].
  destruct (detached_replacement w) as (Hp & Hd & Hdet). cbn zeta in Hp, Hd, Hdet.
  destruct (run_sync _ w) as [w1 d]. cbn [fst snd] in *.
  cbn [bind attempt run_sync fst snd].
  split.
  - split; [exact Hp|]. right. exists (w_now w1), d.
    cbn. rewrite Hd. auto.
  - exact (stage_settling o).
Qed.

(** The job that calls [release]. *)
Lemma stage_release (r : ref) (o : Outcome Buffer) (w : World) :
  let p : Prog Buffer := await_call (release_of r) ;; settle o in
  releases r w (fst (run_sync p w)) /\ Stage Idle (snd (run_sync p w)).
Proof.
  cbn zeta.
  unfold await_call, release_of, modify_pool, date_now, get_pool, put_pool,
    catch_ignore, catch, await.
  cbn [bind attempt run_sync w_pool w_now with_pool].
  destruct (_ >? _).
  - destruct (indexOf r (pages (set_inUse r false (w_pool w)))) as [index|].
    + cbn [bind attempt run_sync fst snd]. split.
      { split; [reflexivity|]. split; [|reflexivity].
        cbn [started with_pool w_pool set_pages pages]. apply splice1_incl. }
      apply stage_idle; [reflexivity|].
      intros o1 w1. left. unfold world_after, task_after.
      destruct o1 as [v|e]; exact (stage_closed o w1).
    + cbn [bind attempt run_sync fst snd]. split.
      { split; [reflexivity|]. split; [apply incl_refl|reflexivity]. }
      exact (stage_settling o).
  - cbn [bind attempt run_sync fst snd]. split.
    { split; [reflexivity|]. split; [apply incl_refl|reflexivity]. }
    exact (stage_settling o).
Qed.

(** The [finally] block: the page is held until the job that calls
    [release]. *)
Lemma holding_finally (r : ref) (pg : handle) (o : Outcome Buffer) (w : World) :
  let p := capture_finally pg (release_of r) ;; settle o in
  same_state w (fst (run_sync p w)) /\
  Stage (Holding r pg) (snd (run_sync p w)).
Proof.
  cbn zeta.
  unfold capture_finally, catch_ignore, catch, await.
  cbn [bind attempt run_sync fst snd].
  split; [apply same_state_started|].
  apply stage_holding; [left; reflexivity|].
  intros o1 w1. left. unfold world_after, task_after.
  destruct o1 as [v1|e1]; cbn [bind attempt run_sync settle fst snd];
    (split; [apply same_state_started|]);
    (apply stage_holding; [left; reflexivity|]);
    intros o2 w2; right; unfold world_after, task_after;
    destruct o2 as [v2|e2]; exact (stage_release r o w2).
Qed.

(** From the job in which [capture] resumes with its page. *)
Lemma holding_try (r : ref) (pg : handle) (options : ScreenshotOptions)
      (blockAds : bool) (w : World) :
  let p := try_finally (capture_try options blockAds pg)
                       (capture_finally pg (release_of r)) in
  same_state w (fst (run_sync p w)) /\
  Stage (Holding r pg) (snd (run_sync p w)).
Proof.
  cbn zeta. unfold try_finally.
  apply holding_body; [apply page_capture_try|].
  intros o w'. apply holding_finally.
Qed.

(** [capture] resumes from [await this.pool.acquirePage()] with the
    page that was marked for it. *)
Lemma stage_acquired (r : ref) (pg : handle) (options : ScreenshotOptions) :
  Stage (Holding r pg)
    (Waiting OpTick
       (fun _ =>
          acq <- settle (Fulfilled {| acquired_page := pg;
                                      release := release_of r |}) ;;
          try_finally
            (capture_try options (nullish_or (blockAds options) true)
                         (acquired_page acq))
            (capture_finally (acquired_page acq) (release acq)))).
Proof.
  apply stage_holding; [right; reflexivity|].
  intros o w. left. unfold world_after, task_after.
  cbn [bind settle acquired_page release]. apply holding_try.
Qed.

(** [createPooledPage] has pushed a page for the capture: in the next
    promise job [acquirePage] marks it. *)
Lemma stage_created (r : ref) (options : ScreenshotOptions) :
  Stage (Reserving r)
    (Waiting OpTick
       (fun _ =>
          acq <- await_call
                   (pooledPage <- settle (Fulfilled r) ;;
                    modify_pool (set_inUse pooledPage true) ;;
                    pool <- get_pool ;;
                    Ret {| acquired_page := page (deref pool pooledPage);
                           release := release_of pooledPage |}) ;;
          try_finally
            (capture_try options (nullish_or (blockAds options) true)
                         (acquired_page acq))
            (capture_finally (acquired_page acq) (release acq)))).
Proof.
  apply stage_reserving. intros o w. unfold world_after, task_after.
  unfold await_call, modify_pool, get_pool.
  cbn [bind attempt run_sync settle fst snd w_pool with_pool started].
  split; [split; reflexivity|]. apply stage_acquired.
Qed.

(** [acquirePage] has failed, inside [createPooledPage] or before. *)
Lemma stage_failing (e : Thrown) (options : ScreenshotOptions) :
  Stage Idle
    (Waiting OpTick
       (fun _ =>
          acq <- await_call
                   (pooledPage <- settle (Rejected e) ;;
                    modify_pool (set_inUse pooledPage true) ;;
                    pool <- get_pool ;;
                    Ret {| acquired_page := page (deref pool pooledPage);
                           release := release_of pooledPage |}) ;;
          try_finally
            (capture_try options (nullish_or (blockAds options) true)
                         (acquired_page acq))
            (capture_finally (acquired_page acq) (release acq)))).
Proof.
  apply stage_idle; [reflexivity|].
  intros o w. left. unfold world_after, task_after.
  unfold await_call. cbn [bind attempt run_sync settle fst snd].
  split; [apply quiet_same, same_state_started|].
  exact (stage_settling (Rejected e)).
Qed.

(** The second scan of [acquirePage] and what follows it, in the job
    that resumes from the timer. *)
Lemma stage_rescan (options : ScreenshotOptions) (w : World) :
  let p : Prog Buffer :=
    acq <- await_call
             (pooledPage <- (pool <- get_pool ;; Ret (find_free pool)) ;;
              pooledPage <-
                match pooledPage with
                | None => await_call createPooledPage
                | Some r => Ret r
                end ;;
              modify_pool (set_inUse pooledPage true) ;;
              pool <- get_pool ;;
              Ret {| acquired_page := page (deref pool pooledPage);
                     release := release_of pooledPage |}) ;;
    try_finally
      (capture_try options (nullish_or (blockAds options) true)
                   (acquired_page acq))
      (capture_finally (acquired_page acq) (release acq)) in
  match find_free (w_pool w) with
  | Some r =>
      claims r w (fst (run_sync p w)) /\
      Stage (Holding r (page (deref (w_pool (fst (run_sync p w))) r)))
            (snd (run_sync p w))
  | None =>
      same_state w (fst (run_sync p w)) /\ Stage Idle (snd (run_sync p w))
  end.
Proof.
  cbn zeta. unfold await_call, get_pool, modify_pool.
  cbn [bind attempt run_sync].
  destruct (find_free (w_pool w)) as [r|].
  - cbn [bind attempt run_sync fst snd w_pool with_pool started].
    split; [split; reflexivity|]. exact (stage_acquired r _ options).
  - unfold createPooledPage, get_pool, await, date_now, put_pool.
    cbn [bind attempt run_sync].
    destruct (browser (w_pool w)) as [b|].
    + cbn [bind attempt run_sync fst snd].
      split; [apply same_state_started|].
      apply stage_idle; [reflexivity|].
      intros [v|e] w1; unfold world_after, task_after;
        cbn [bind attempt run_sync settle fst snd].
      * left. split; [apply quiet_same, same_state_started|].
        apply stage_idle; [reflexivity|].
        intros [v'|e'] w2; unfold world_after, task_after;
          cbn [bind attempt run_sync settle fst snd].
        -- right. right.
           cbn [push_new bind attempt run_sync fst snd w_pool with_pool started].
           split; [split; [eexists; reflexivity|reflexivity]|].
           exact (stage_created (List.length (store (w_pool w2))) options).
        -- left. split; [apply quiet_same, same_state_started|].
           exact (stage_failing e' options).
      * left. split; [apply quiet_same, same_state_started|].
        exact (stage_failing e options).
    + cbn [bind attempt run_sync fst snd].
      split; [apply same_state_started|].
      exact (stage_failing (Error "Browser not initialized") options).
Qed.

(** The job in which [capture] is called. *)
Lemma capture_starts (options : ScreenshotOptions) (w : World) :
  let p := capture options in
  match find_free (w_pool w) with
  | Some r =>
      claims r w (fst (run_sync p w)) /\
      Stage (Holding r (page (deref (w_pool (fst (run_sync p w))) r)))
            (snd (run_sync p w))
  | None =>
      same_state w (fst (run_sync p w)) /\ Stage Idle (snd (run_sync p w))
  end.
Proof.
  cbn zeta. unfold capture, acquirePage.
  unfold await_call, get_pool, modify_pool, await.
  cbn [bind attempt run_sync].
  destruct (find_free (w_pool w)) as [r|] eqn:Hfree.
  - cbn [bind attempt run_sync fst snd w_pool with_pool started].
    split; [split; reflexivity|]. exact (stage_acquired r _ options).
  - cbn [bind attempt run_sync fst snd].
    split; [apply same_state_started|].
    apply stage_idle; [reflexivity|].
    intros [v|e] w1; unfold world_after, task_after.
    + pose proof (stage_rescan options w1) as H. cbn zeta in H.
      destruct (find_free (w_pool w1)) as [r|] eqn:Hfree1.
      * right. left. split; [reflexivity|]. exists r.
        split; [reflexivity|]. exact H.
      * left. destruct H as [H1 H2]. split; [apply quiet_same, H1|exact H2].
    + left. cbn [bind attempt run_sync settle fst snd].
      split; [apply quiet_same, same_state_started|].
      exact (stage_settling (Rejected e)).
Qed.

(** ** The invariant, job by job *)

(** While no promise job is queued, no capture is between the push of
    its page and the mark. *)
Lemma no_tick_no_reserving (tasks : list (Z * Paused Buffer))
      (sts : list Status) :
  Forall2 (fun t st => Stage st (snd t)) tasks sts ->
  existsb waits_tick tasks = false ->
  no_reserving sts.
Proof.
  intros Hst Hnone i r Hi.
  destruct (Forall2_nth_error_r _ _ _ _ _ Hst Hi) as (t & Ht & Hstage).
  assert (Htick : waits_tick t = true).
  { unfold waits_tick. inversion Hstage; subst. reflexivity. }
  assert (Hex : existsb waits_tick tasks = true).
  { apply existsb_exists. exists t. split; [|exact Htick].
    apply nth_error_In with i, Ht. }
  congruence.
Qed.

(** One task moves on: what has to be checked. *)
Lemma inv_update (w w' : World) (tasks : list (Z * Paused Buffer))
      (sts : list Status) (i : nat) (t' : Z * Paused Buffer) (st' : Status) :
  Inv w tasks sts ->
  pool_ok (w_pool w') ->
  Forall (fun d => Detached (snd d)) (w_detached w') ->
  Stage st' (snd t') ->
  status_ok (w_pool w') st' ->
  (forall j stj,
      j <> i -> nth_error sts j = Some stj ->
      status_ok (w_pool w') stj /\
      forall r, ref_of st' = Some r -> ref_of stj <> Some r) ->
  Inv w' (write_at tasks i t') (write_at sts i st').
Proof.
  intros [Hpool Hdet Hstage Hstatus Hdistinct] Hpool' Hdet' Hst' Hok' Hothers.
  split.
  - exact Hpool'.
  - exact Hdet'.
  - apply Forall2_write_at; assumption.
  - intros j st. rewrite nth_error_write_at.
    destruct (Nat.eqb_spec i j) as [<-|Hne].
    + destruct (nth_error sts i); [|discriminate]. intros [= <-]. exact Hok'.
    + intros Hj. apply (Hothers j st); [congruence|exact Hj].
  - intros j1 j2 st1 st2 r. rewrite !nth_error_write_at.
    destruct (Nat.eqb_spec i j1) as [<-|Hne1];
      destruct (Nat.eqb_spec i j2) as [<-|Hne2].
    + reflexivity.
    + destruct (nth_error sts i); [|discriminate]. intros [= <-] H2 Hr1 Hr2.
      destruct (Hothers j2 st2 ltac:(congruence) H2) as [_ Hfresh].
      exfalso. exact (Hfresh r Hr1 Hr2).
    + destruct (nth_error sts i); [|discriminate]. intros H1 [= <-] Hr1 Hr2.
      destruct (Hothers j1 st1 ltac:(congruence) H1) as [_ Hfresh].
      exfalso. exact (Hfresh r Hr2 Hr1).
    + apply Hdistinct.
Qed.

Lemma Forall_detached_quiet (w w' : World) :
  quiet w w' ->
  Forall (fun d => Detached (snd d)) (w_detached w) ->
  Forall (fun d => Detached (snd d)) (w_detached w').
Proof.
  intros [_ [->|(z & d & -> & Hd)]] H; [exact H|].
  apply Forall_app. split; [exact H|]. constructor; [exact Hd|constructor].
Qed.

(** A job that leaves the pool alone, of a capture without a page. *)
Lemma inv_quiet (w w' : World) tasks sts (i : nat) (t' : Z * Paused Buffer) :
  Inv w tasks sts ->
  quiet w w' ->
  Stage Idle (snd t') ->
  Inv w' (write_at tasks i t') (write_at sts i Idle).
Proof.
  intros HI Hq Hst. pose proof HI as [Hpool Hdet Hstage Hstatus Hdistinct].
  destruct Hq as [Hp Hd]. apply (inv_update w); auto.
  - rewrite Hp. exact Hpool.
  - apply (Forall_detached_quiet w); [split; assumption|exact Hdet].
  - exact I.
  - intros j stj _ Hj. rewrite Hp. split; [apply (Hstatus j), Hj|].
    intros r [=].
Qed.

(** A job of a capture that keeps its page. *)
Lemma inv_keep (w w' : World) tasks sts (i : nat) (t' : Z * Paused Buffer)
      (r : ref) (pg : handle) :
  Inv w tasks sts ->
  nth_error sts i = Some (Holding r pg) ->
  same_state w w' ->
  Stage (Holding r pg) (snd t') ->
  Inv w' (write_at tasks i t') (write_at sts i (Holding r pg)).
Proof.
  intros HI Hi Hs Hst. pose proof HI as [Hpool Hdet Hstage Hstatus Hdistinct].
  destruct Hs as [Hp Hd]. apply (inv_update w); auto.
  - rewrite Hp. exact Hpool.
  - rewrite Hd. exact Hdet.
  - rewrite Hp. apply (Hstatus i), Hi.
  - intros j stj Hne Hj. rewrite Hp. split; [apply (Hstatus j), Hj|].
    intros r' [= <-] Hr. apply Hne.
    apply (Hdistinct j i stj (Holding r pg) r); auto.
Qed.

(** The scan finds a page free and marks it, in a job that is not a
    promise job: nobody else has that page. *)
Lemma inv_claim_free (w w' : World) tasks sts (i : nat)
      (t' : Z * Paused Buffer) (r : ref) :
  Inv w tasks sts ->
  no_reserving sts ->
  find_free (w_pool w) = Some r ->
  claims r w w' ->
  Stage (Holding r (page (deref (w_pool w') r))) (snd t') ->
  Inv w' (write_at tasks i t')
         (write_at sts i (Holding r (page (deref (w_pool w') r)))).
Proof.
  intros HI Hnr Hfree Hc Hst.
  pose proof HI as [Hpool Hdet Hstage Hstatus Hdistinct].
  destruct Hc as [Hp Hd]. apply find_free_spec in Hfree as [Hin Hunused].
  pose proof (Hpool r Hin) as Hr.
  apply (inv_update w); auto.
  - rewrite Hp. apply pool_ok_claim, Hpool.
  - rewrite Hd. exact Hdet.
  - cbn [status_ok]. rewrite Hp.
    split; [unfold set_inUse; cbn [store]; rewrite length_write_at; exact Hr|].
    split; [|reflexivity].
    rewrite deref_set_inUse_same by exact Hr. reflexivity.
  - intros j stj Hne Hj. split.
    + rewrite Hp.
      apply (status_ok_extends (fun _ => True) (w_pool w));
        [apply extends_claim|auto|apply (Hstatus j), Hj].
    + intros r' [= <-] Hr'. pose proof (Hstatus j stj Hj) as Hok.
      destruct stj as [|r0|r0 pg0]; cbn [ref_of] in Hr'; try discriminate;
        injection Hr' as ->.
      * exact (Hnr j r Hj).
      * cbn [status_ok] in Hok. destruct Hok as (_ & Huse & _). congruence.
Qed.

(** [acquirePage] marks the page that was pushed for it. *)
Lemma inv_claim_reserved (w w' : World) tasks sts (i : nat)
      (t' : Z * Paused Buffer) (r : ref) :
  Inv w tasks sts ->
  nth_error sts i = Some (Reserving r) ->
  claims r w w' ->
  Stage (Holding r (page (deref (w_pool w') r))) (snd t') ->
  Inv w' (write_at tasks i t')
         (write_at sts i (Holding r (page (deref (w_pool w') r)))).
Proof.
  intros HI Hi Hc Hst.
  pose proof HI as [Hpool Hdet Hstage Hstatus Hdistinct].
  destruct Hc as [Hp Hd].
  pose proof (Hstatus i _ Hi) as Hr. cbn [status_ok] in Hr.
  apply (inv_update w); auto.
  - rewrite Hp. apply pool_ok_claim, Hpool.
  - rewrite Hd. exact Hdet.
  - cbn [status_ok]. rewrite Hp.
    split; [unfold set_inUse; cbn [store]; rewrite length_write_at; exact Hr|].
    split; [|reflexivity].
    rewrite deref_set_inUse_same by exact Hr. reflexivity.
  - intros j stj Hne Hj. split.
    + rewrite Hp.
      apply (status_ok_extends (fun _ => True) (w_pool w));
        [apply extends_claim|auto|apply (Hstatus j), Hj].
    + intros r' [= <-] Hr'. apply Hne.
      apply (Hdistinct j i stj (Reserving r) r); auto.
Qed.

(** [createPooledPage] pushes a page for the capture: a new object. *)
Lemma inv_push (w w' : World) tasks sts (i : nat) (t' : Z * Paused Buffer) :
  Inv w tasks sts ->
  pushes w w' ->
  Stage (Reserving (List.length (store (w_pool w)))) (snd t') ->
  Inv w' (write_at tasks i t')
         (write_at sts i (Reserving (List.length (store (w_pool w))))).
Proof.
  intros HI Hpush Hst.
  pose proof HI as [Hpool Hdet Hstage Hstatus Hdistinct].
  destruct Hpush as [[o Hp] Hd].
  apply (inv_update w); auto.
  - rewrite Hp. apply pool_ok_push, Hpool.
  - rewrite Hd. exact Hdet.
  - cbn [status_ok]. rewrite Hp. unfold push_new. cbn [snd store].
    rewrite length_app. cbn [List.length]. lia.
  - intros j stj Hne Hj. pose proof (Hstatus j stj Hj) as Hok. split.
    + rewrite Hp.
      apply (status_ok_extends (fun _ => True) (w_pool w));
        [apply extends_push|auto|exact Hok].
    + intros r' [= <-] Hr'.
      destruct stj as [|r0|r0 pg0]; cbn [ref_of status_ok] in *;
        try discriminate; injection Hr' as ->; lia.
Qed.

(** The job that calls [release]. *)
Lemma inv_release (w w' : World) tasks sts (i : nat) (t' : Z * Paused Buffer)
      (r : ref) (pg : handle) :
  Inv w tasks sts ->
  nth_error sts i = Some (Holding r pg) ->
  releases r w w' ->
  Stage Idle (snd t') ->
  Inv w' (write_at tasks i t') (write_at sts i Idle).
Proof.
  intros HI Hi Hrel Hst.
  pose proof HI as [Hpool Hdet Hstage Hstatus Hdistinct].
  destruct Hrel as (Hstore & Hincl & Hd).
  apply (inv_update w); auto.
  - apply (pool_ok_release (w_pool w) _ r); assumption.
  - rewrite Hd. exact Hdet.
  - exact I.
  - intros j stj Hne Hj. split; [|intros r' [=]].
    apply (status_ok_extends (fun r' => r' <> r) (w_pool w));
      [apply extends_release, Hstore| |apply (Hstatus j), Hj].
    intros r' Hr' ->. apply Hne.
    apply (Hdistinct j i stj (Holding r pg) r); auto.
Qed.

(** A detached task runs a job. *)
Lemma inv_detached_job (w w' : World) tasks sts (l : list (Z * Paused unit)) :
  Inv w tasks sts ->
  same_state w w' \/ pushes w w' ->
  Forall (fun d => Detached (snd d)) l ->
  Inv (set_detached l w') tasks sts.
Proof.
  intros [Hpool Hdet Hstage Hstatus Hdistinct] Hw Hl.
  assert (Hext : extends (fun _ => True) (w_pool w) (w_pool w') /\
                 pool_ok (w_pool w')).
  { destruct Hw as [[Hp _]|[[o Hp] _]]; rewrite Hp.
    - split; [apply extends_refl|exact Hpool].
    - split; [apply extends_push|apply pool_ok_push, Hpool]. }
  destruct Hext as [Hext Hpool'].
  split; cbn [set_detached w_pool w_detached]; auto.
  intros j st Hj.
  apply (status_ok_extends (fun _ => True) (w_pool w)); auto.
  apply (Hstatus j), Hj.
Qed.

(** ** The steps of the event loop *)

Lemma step_resume (w : World) tasks sts (i : nat) (o : Outcome Val)
      (s' : System Buffer) :
  Inv w tasks sts ->
  step (Resume i o) (mkSystem w tasks) = Some s' ->
  exists sts', Inv (sys_world s') (sys_tasks s') sts'.
Proof.
  intros HI. pose proof HI as [Hpool Hdet Hstage Hstatus Hdistinct].
  unfold step. cbn [sys_world sys_tasks].
  destruct (nth_error tasks i) as [[since [res|op k]]|] eqn:Hi;
    try discriminate.
  destruct (resumable (mkSystem w tasks) since op) eqn:Hres; [|discriminate].
  destruct (run_sync (k o) w) as [w' t'] eqn:Hrun.
  intros [= <-]. cbn [sys_world sys_tasks].
  destruct (Forall2_nth_error_l _ _ _ _ _ Hstage Hi) as (st & Hsti & Hst).
  cbn [snd] in Hst.
  assert (Hafter : world_after k o w = w' /\ task_after k o w = t').
  { unfold world_after, task_after. rewrite Hrun. split; reflexivity. }
  destruct Hafter as [Hw' Ht'].
  inversion Hst as [|op0 k0 Hop Hnext|r k0 Hnext|r pg op0 k0 Hop Hnext]; subst.
  - destruct (Hnext o w) as [[Hq Hidle]|[(Htick & r & Hfree & Hc & Hhold)|[Hpush Hres']]].
    + eexists. apply (inv_quiet w); eauto.
    + assert (Hnr : no_reserving sts).
      { apply (no_tick_no_reserving tasks); [exact Hstage|].
        unfold resumable in Hres. rewrite Htick in Hres.
        apply andb_true_iff in Hres as [Hres _].
        apply negb_true_iff in Hres. unfold tick_pending in Hres.
        apply orb_false_iff in Hres as [Hres _]. exact Hres. }
      eexists. apply (inv_claim_free w); eauto.
    + eexists. apply (inv_push w); eauto.
  - destruct (Hnext o w) as [Hc Hhold].
    eexists. apply (inv_claim_reserved w _ tasks sts i _ r); eauto.
  - destruct (Hnext o w) as [[Hs Hhold]|[Hrel Hidle]].
    + eexists. apply (inv_keep w _ tasks sts i _ r pg); eauto.
    + eexists. apply (inv_release w _ tasks sts i _ r pg); eauto.
Qed.

Lemma step_resume_detached (w : World) tasks sts (j : nat) (o : Outcome Val)
      (s' : System Buffer) :
  Inv w tasks sts ->
  step (ResumeDetached j o) (mkSystem w tasks) = Some s' ->
  Inv (sys_world s') (sys_tasks s') sts.
Proof.
  intros HI. pose proof HI as [Hpool Hdet Hstage Hstatus Hdistinct].
  unfold step. cbn [sys_world sys_tasks].
  destruct (nth_error (w_detached w) j) as [[since [res|op k]]|] eqn:Hj;
    try discriminate.
  destruct (resumable (mkSystem w tasks) since op); [|discriminate].
  destruct (run_sync (k o) w) as [w' t'] eqn:Hrun.
  intros [= <-]. cbn [sys_world sys_tasks].
  assert (Hd : Detached (Waiting op k)).
  { apply nth_error_In in Hj.
    exact (proj1 (Forall_forall _ _) Hdet _ Hj). }
  inversion Hd as [|op0 k0 Hnext]; subst.
  destruct (Hnext o w) as [Hw Hd']. unfold world_after, task_after in Hw, Hd'.
  rewrite Hrun in Hw, Hd'. cbn [fst snd] in Hw, Hd'.
  apply (inv_detached_job w); [exact HI|exact Hw|].
  apply Forall_write_at; [|exact Hd'].
  destruct Hw as [[_ ->]|[_ ->]]; exact Hdet.
Qed.

Lemma step_elapse (w : World) tasks sts (dt : N) (s' : System Buffer) :
  Inv w tasks sts ->
  step (Elapse dt) (mkSystem w tasks) = Some s' ->
  Inv (sys_world s') (sys_tasks s') sts.
Proof.
  intros [Hpool Hdet Hstage Hstatus Hdistinct]. unfold step.
  destruct (tick_pending _); [discriminate|]. intros [= <-].
  split; assumption.
Qed.

(** *** A request *)

Lemma write_at_snoc {A : Type} (l : list A) (x y : A) :
  write_at (l ++ [x]) (List.length l) y = l ++ [y].
Proof. induction l as [|a l IH]; cbn; [reflexivity|]. f_equal. exact IH. Qed.

Lemma nth_error_snoc_idle (sts : list Status) (j : nat) (st : Status) (r : ref) :
  nth_error (sts ++ [Idle]) j = Some st ->
  ref_of st = Some r ->
  nth_error sts j = Some st.
Proof.
  intros Hj Hr. destruct (Nat.lt_ge_cases j (List.length sts)) as [Hlt|Hge].
  - rewrite nth_error_app1 in Hj by exact Hlt. exact Hj.
  - rewrite nth_error_app2 in Hj by exact Hge.
    destruct (j - List.length sts)%nat as [|n]; cbn in Hj.
    + injection Hj as <-. discriminate.
    + destruct n; discriminate.
Qed.

(** A task that has just been called and has not run yet. *)
Lemma inv_snoc (w : World) tasks sts (t : Z * Paused Buffer) (o : Outcome Buffer) :
  Inv w tasks sts ->
  snd t = Settled o ->
  Inv w (tasks ++ [t]) (sts ++ [Idle]).
Proof.
  intros [Hpool Hdet Hstage Hstatus Hdistinct] Ht. split; auto.
  - apply Forall2_app; [exact Hstage|].
    constructor; [rewrite Ht; apply stage_settled|constructor].
  - intros j st Hj. destruct st as [|r|r pg]; [exact I| |];
      apply (Hstatus j), (nth_error_snoc_idle sts j _ r Hj); reflexivity.
  - intros j1 j2 st1 st2 r H1 H2 Hr1 Hr2.
    apply (Hdistinct j1 j2 st1 st2 r); auto;
      eapply nth_error_snoc_idle; eauto.
Qed.

Lemma no_reserving_snoc (sts : list Status) (st : Status) :
  no_reserving sts ->
  (forall r, st <> Reserving r) ->
  no_reserving (sts ++ [st]).
Proof.
  intros Hnr Hst j r Hj.
  destruct (Nat.lt_ge_cases j (List.length sts)) as [Hlt|Hge].
  - rewrite nth_error_app1 in Hj by exact Hlt. exact (Hnr j r Hj).
  - rewrite nth_error_app2 in Hj by exact Hge.
    destruct (j - List.length sts)%nat as [|n]; cbn in Hj.
    + injection Hj as ->. exact (Hst r eq_refl).
    + destruct n; discriminate.
Qed.

(** [capture] is called: it runs its first job. *)
Lemma start_capture (w : World) tasks sts (options : ScreenshotOptions) :
  Inv w tasks sts ->
  no_reserving sts ->
  let s' := start (mkSystem w tasks) (capture options) in
  exists st,
    Inv (sys_world s') (sys_tasks s') (sts ++ [st]) /\
    no_reserving (sts ++ [st]).
Proof.
  intros HI Hnr. cbn zeta. unfold start. cbn [sys_world sys_tasks].
  pose proof (capture_starts options w) as Hstart. cbn zeta in Hstart.
  destruct (run_sync (capture options) w) as [w' t'] eqn:Hrun.
  cbn [fst snd sys_world sys_tasks] in *.
  pose proof (inv_stage _ _ _ HI) as Hstage.
  pose proof (Forall2_length Hstage) as Hlen.
  pose proof (inv_snoc w tasks sts (0, Settled (Fulfilled [])) (Fulfilled [])
                HI eq_refl) as HI1.
  assert (Hnr1 : no_reserving (sts ++ [Idle])).
  { apply no_reserving_snoc; [exact Hnr|discriminate]. }
  destruct (find_free (w_pool w)) as [r|] eqn:Hfree.
  - destruct Hstart as [Hc Hhold].
    exists (Holding r (page (deref (w_pool w') r))). split.
    + rewrite <- (write_at_snoc tasks (0, Settled (Fulfilled [])) (w_now w', t')).
      rewrite <- (write_at_snoc sts Idle). rewrite <- Hlen.
      apply (inv_claim_free w); auto.
    + apply no_reserving_snoc; [exact Hnr|discriminate].
  - destruct Hstart as [Hs Hidle].
    exists Idle. split.
    + rewrite <- (write_at_snoc tasks (0, Settled (Fulfilled [])) (w_now w', t')).
      rewrite <- (write_at_snoc sts Idle Idle). rewrite <- Hlen.
      apply (inv_quiet w); auto. apply quiet_same, Hs.
    + exact Hnr1.
Qed.

Lemma start_captures (ps : list (Prog Buffer)) :
  Forall is_capture ps ->
  forall (s : System Buffer) sts,
    Inv (sys_world s) (sys_tasks s) sts ->
    no_reserving sts ->
    exists sts',
      Inv (sys_world (fold_left start ps s)) (sys_tasks (fold_left start ps s)) sts'.
Proof.
  induction 1 as [|p ps [options ->] Hps IH]; intros s sts HI Hnr;
    cbn [fold_left].
  - exists sts. exact HI.
  - destruct s as [w tasks]. cbn [sys_world sys_tasks] in HI.
    destruct (start_capture w tasks sts options HI Hnr) as (st & HI' & Hnr').
    cbn zeta in HI', Hnr'. exact (IH _ _ HI' Hnr').
Qed.

Lemma step_request (w : World) tasks sts (ps : list (Prog Buffer))
      (s' : System Buffer) :
  Inv w tasks sts ->
  Forall is_capture ps ->
  step (Request ps) (mkSystem w tasks) = Some s' ->
  exists sts', Inv (sys_world s') (sys_tasks s') sts'.
Proof.
  intros HI Hps. unfold step.
  destruct (tick_pending (mkSystem w tasks)) eqn:Htick; [discriminate|].
  intros [= <-]. apply (start_captures ps Hps (mkSystem w tasks) sts HI).
  apply (no_tick_no_reserving tasks); [apply (inv_stage _ _ _ HI)|].
  unfold tick_pending in Htick. apply orb_false_iff in Htick as [Htick _].
  exact Htick.
Qed.

(** The invariant holds in every state the captures reach. *)
Lemma run_invariant (schedule : list (Action Buffer)) :
  only_captures schedule ->
  forall (s s' : System Buffer) sts,
    Inv (sys_world s) (sys_tasks s) sts ->
    run schedule s = Some s' ->
    exists sts', Inv (sys_world s') (sys_tasks s') sts'.
Proof.
  induction schedule as [|a rest IH]; intros Hsched s s' sts HI Hrun;
    cbn [run] in Hrun.
  - injection Hrun as <-. exists sts. exact HI.
  - destruct (step a s) as [s1|] eqn:Hstep; [|discriminate].
    destruct s as [w tasks]. cbn [sys_world sys_tasks] in HI.
    destruct a as [ps|i o|j o|dt]; cbn [only_captures] in Hsched.
    + destruct Hsched as [Hps Hrest].
      destruct (step_request w tasks sts ps s1 HI Hps Hstep) as [sts1 HI1].
      exact (IH Hrest s1 s' sts1 HI1 Hrun).
    + destruct (step_resume w tasks sts i o s1 HI Hstep) as [sts1 HI1].
      exact (IH Hsched s1 s' sts1 HI1 Hrun).
    + pose proof (step_resume_detached w tasks sts j o s1 HI Hstep) as HI1.
      exact (IH Hsched s1 s' sts HI1 Hrun).
    + pose proof (step_elapse w tasks sts dt s1 HI Hstep) as HI1.
      exact (IH Hsched s1 s' sts HI1 Hrun).
Qed.

Lemma inv_initial (w : World) :
  pool_ok (w_pool w) -> w_detached w = [] -> Inv w [] [].
Proof.
  intros Hpool Hdet. split.
  - exact Hpool.
  - rewrite Hdet. constructor.
  - constructor.
  - intros [|i] st H; discriminate.
  - intros [|i] j sti stj r H; discriminate.
Qed.

(** A task that works on a page holds a pooled page. *)
Lemma operating_holds (st : Status) (t : Z * Paused Buffer) (pg : handle) :
  Stage st (snd t) -> operating_on t = Some pg -> exists r, st = Holding r pg.
Proof.
  unfold operating_on. destruct t as [z [o|op k]]; cbn [snd];
    intros Hst Hop; [discriminate|].
  inversion Hst as [|op0 k0 Hnone Hnext|r k0 Hnext|r pg0 op0 k0 Hpg Hnext];
    subst.
  - congruence.
  - discriminate.
  - destruct Hpg as [Hpg| ->]; [|discriminate]. exists r. congruence.
Qed.

(** Scan and mark are one job: when the scan finds a page free,
    [acquirePage] marks it and returns without having been suspended. *)
Lemma scan_and_mark_in_one_job (w : World) (r : ref) :
  find_free (w_pool w) = Some r ->
  run_sync acquirePage w
  = (with_pool (set_inUse r true (w_pool w)) w,
     Settled (Fulfilled
                {| acquired_page := page (deref (set_inUse r true (w_pool w)) r);
                   release := release_of r |})).
Proof.
  intros Hfree. unfold acquirePage, get_pool, modify_pool.
  cbn [bind run_sync]. rewrite Hfree. reflexivity.
Qed.

(** The interleaving in which a second caller would scan between the
    push of [createPooledPage] and the mark of the first caller is no
    run of the event loop: the first caller is resumed by a promise job
    that is already queued. *)
Lemma race_is_no_run :
  run Examples.race_schedule Examples.busy_system = None.
Proof. vm_compute. reflexivity. Qed.

(** C2.  Captures called by request handlers and interleaved by the
    event loop in any way, on a pool whose array refers to existing
    objects.  When the scan of [acquirePage] finds a page free, the page
    is marked in that same job, before anything else can run.  And in
    every state the captures reach, each capture that is working on a
    page holds a pooled page of its own: the pooled page is in the
    store, it is the one with that page, its [inUse] is set, and no two
    captures hold the same pooled page; so, the browser having given
    every pooled page a page of its own, no two captures work on the
    same page. *)
Theorem captures_never_share_a_page
    (w0 : World) (schedule : list (Action Buffer)) (s : System Buffer) :
  pool_ok (w_pool w0) ->
  w_detached w0 = [] ->
  only_captures schedule ->
  run schedule (mkSystem w0 []) = Some s ->
  let pool := w_pool (sys_world s) in
  (forall w r,
      find_free (w_pool w) = Some r ->
      exists acq,
        run_sync acquirePage w
        = (with_pool (set_inUse r true (w_pool w)) w, Settled (Fulfilled acq)) /\
        release acq = release_of r) /\
  (exists holder : nat -> option ref,
      (forall i t pg,
          nth_error (sys_tasks s) i = Some t ->
          operating_on t = Some pg ->
          exists r,
            holder i = Some r /\
            (r < List.length (store pool))%nat /\
            page (deref pool r) = pg /\
            inUse (deref pool r) = true) /\
      (forall i j r, holder i = Some r -> holder j = Some r -> i = j)) /\
  (distinct_pages pool ->
   forall i j ti tj pg,
     nth_error (sys_tasks s) i = Some ti ->
     nth_error (sys_tasks s) j = Some tj ->
     operating_on ti = Some pg ->
     operating_on tj = Some pg ->
     i = j).
Proof.
  intros Hpool Hdet Hsched Hrun pool.
  destruct (run_invariant schedule Hsched (mkSystem w0 []) s []
              (inv_initial w0 Hpool Hdet) Hrun) as [sts HI].
  pose proof HI as [_ _ Hstage Hstatus Hdistinct]. fold pool in Hstatus.
  assert (Hholds : forall i t pg,
             nth_error (sys_tasks s) i = Some t ->
             operating_on t = Some pg ->
             exists r, nth_error sts i = Some (Holding r pg) /\
                       status_ok pool (Holding r pg)).
  { intros i t pg Hi Hop.
    destruct (Forall2_nth_error_l _ _ _ _ _ Hstage Hi) as (st & Hsti & Hst).
    destruct (operating_holds st t pg Hst Hop) as [r ->].
    exists r. split; [exact Hsti|]. apply (Hstatus i), Hsti. }
  split; [|split].
  - intros w r Hfree. eexists.
    split; [apply scan_and_mark_in_one_job, Hfree|reflexivity].
  - exists (fun i => match nth_error sts i with
                     | Some st => ref_of st
                     | None => None
                     end).
    split.
    + intros i t pg Hi Hop.
      destruct (Hholds i t pg Hi Hop) as (r & Hsti & Hr & Huse & Hpage).
      exists r. rewrite Hsti. auto.
    + intros i j r Hi Hj.
      destruct (nth_error sts i) as [sti|] eqn:Hsti; [|discriminate].
      destruct (nth_error sts j) as [stj|] eqn:Hstj; [|discriminate].
      exact (Hdistinct i j sti stj r Hsti Hstj Hi Hj).
  - intros Hpages i j ti tj pg Hi Hj Hopi Hopj.
    destruct (Hholds i ti pg Hi Hopi) as (ri & Hsti & Hri & _ & Hpi).
    destruct (Hholds j tj pg Hj Hopj) as (rj & Hstj & Hrj & _ & Hpj).
    assert (ri = rj) as -> by (apply Hpages; congruence).
    exact (Hdistinct i j _ _ rj Hsti Hstj eq_refl eq_refl).
Qed.

(** Two captures on a pool of two pages, both past [acquirePage]: the
    first works on page 11, the second on page 13. *)
Lemma captures_never_share_a_page_witness :
  exists s,
    run Examples.sharing_schedule (mkSystem Examples.two_page_world []) = Some s /\
    map operating_on (sys_tasks s) = [Some 11%nat; Some 13%nat] /\
    (forall w r,
        find_free (w_pool w) = Some r ->
        exists acq,
          run_sync acquirePage w
          = (with_pool (set_inUse r true (w_pool w)) w, Settled (Fulfilled acq)) /\
          release acq = release_of r) /\
    (exists holder : nat -> option ref,
        (forall i t pg,
            nth_error (sys_tasks s) i = Some t ->
            operating_on t = Some pg ->
            exists r,
              holder i = Some r /\
              (r < List.length (store (w_pool (sys_world s))))%nat /\
              page (deref (w_pool (sys_world s)) r) = pg /\
              inUse (deref (w_pool (sys_world s)) r) = true) /\
        (forall i j r, holder i = Some r -> holder j = Some r -> i = j)) /\
    (distinct_pages (w_pool (sys_world s)) ->
     forall i j ti tj pg,
       nth_error (sys_tasks s) i = Some ti ->
       nth_error (sys_tasks s) j = Some tj ->
       operating_on ti = Some pg ->
       operating_on tj = Some pg ->
       i = j).
Proof.
  eexists.
  split; [vm_compute; reflexivity|].
  split; [reflexivity|].
  apply (captures_never_share_a_page Examples.two_page_world
           Examples.sharing_schedule).
  - intros r [<-|[<-|[]]]; cbn; lia.
  - reflexivity.
  - split; [|exact I].
    apply Forall_cons; [eexists; reflexivity|].
    apply Forall_cons; [eexists; reflexivity|]. apply Forall_nil.
  - vm_compute. reflexivity.
Defined.

End ExclusionFacts.
(* ================================================================== *)
(** * The API key *)
(* ================================================================== *)

Module ServerFacts.
Import Server.


End ServerFacts.
